(** * The Mirror exchange simulator: matching engine, latency model, scheduler

    A shallow embedding of the Python sources

    - [src/src/engine.py]    (module [Engine]),
    - [src/src/replayer.py]  (module [Replayer]),
    - [src/src/network.py]   (module [Network]),
    - [src/simulation.py]    (module [Simulation], with [Heapq]),
    - [src/tests/test_determinism.py] (module [DeterminismTest]),

    followed by the properties of the specification that are settled on it.

    Conventions of the embedding.

    - Python [int] is [Z].  Prices are Python floats that the engine only
      compares, negates and uses as dictionary keys; they are represented by
      their value in hundredths ([101.50] is [10150]), an exact image of the
      order and equality of the finite floats the sources use.
    - Latencies are Python floats that are added, multiplied, compared
      and truncated by [int()]: they are Rocq's binary64 floats.  The
      random generators ([numpy.random.Generator], [random.Random]) are
      deterministic state machines given by their draw functions (classes
      [Generator] and [PyRandom]).
    - [side: str] takes the two values ['buy'] and ['sell']; it is the
      two-constructor type [Side].
    - [Order] objects are mutable and shared between a price level's deque,
      the side's [orders] dictionary and the caller.  They live in an object
      store ([objs], a list indexed by reference); deques and dictionaries
      hold references.
    - [heapq] on the list of prices is used through [heappush], [heappop],
      [heap[0]] and emptiness only, and prices are plain numbers, so the
      heap is represented by its sorted list of elements: [heap[0]] is the
      head.  The scheduler's event heap, where ties between equal
      timestamps are visible, follows CPython's [heapq] array algorithm
      (module [Heapq]).
    - A Python exception is an [outcome] of its own; loops run on fuel that
      is computed from the state, and [OutOfFuel] is shown unreachable. *)

From Stdlib Require Import ZArith String Floats.
From stdpp Require Import gmap list sorting.

Local Open Scope Z_scope.

(** ** Outcomes of Python calls *)

Inductive Exception : Type :=
  | IndexError      (* indexing an empty deque, popping an empty list *)
  | ValueError      (* int() of a NaN *)
  | OverflowError   (* int() of an infinity *)
  | NameError       (* a global name that the module does not bind *)
  | BadRef.         (* model only: a reference outside the object store *)

Inductive outcome (A : Type) : Type :=
  | Returns (a : A)
  | Raises (e : Exception)
  | OutOfFuel.

Arguments Returns {A} a.
Arguments Raises {A} e.
Arguments OutOfFuel {A}.

#[global] Instance outcome_ret : MRet outcome := fun A a => Returns a.
#[global] Instance outcome_bind : MBind outcome := fun A B f m =>
  match m with
  | Returns a => f a
  | Raises e => Raises e
  | OutOfFuel => OutOfFuel
  end.

Definition of_option {A : Type} (e : Exception) (o : option A) : outcome A :=
  match o with
  | Some a => Returns a
  | None => Raises e
  end.

(** Outcomes that are alike up to a relation on what is returned. *)
Definition outcome_rel {A B : Type} (P : A → B → Prop)
  (x : outcome A) (y : outcome B) : Prop :=
  match x, y with
  | Returns a, Returns b => P a b
  | Raises e1, Raises e2 => e1 = e2
  | OutOfFuel, OutOfFuel => True
  | _, _ => False
  end.

(** ** [src/src/engine.py] *)

Module Engine.

Inductive Side : Type := buy | sell.

Inductive Status : Type := OPEN | PARTIAL | FILLED.

Record Order : Type := mkOrder {
  id : Z;
  side : Side;
  price : Z;
  qty : Z;
  timestamp : Z;
  filled_qty : Z;
  status : Status
}.

(** [Order(id, side, price, qty, timestamp)]: the two defaulted fields. *)
Definition new_order (i : Z) (s : Side) (p q t : Z) : Order :=
  mkOrder i s p q t 0 OPEN.

Definition open_qty (o : Order) : Z := qty o - filled_qty o.

Definition set_filled_qty (o : Order) (v : Z) : Order :=
  mkOrder (id o) (side o) (price o) (qty o) (timestamp o) v (status o).

Definition set_status (o : Order) (s : Status) : Order :=
  mkOrder (id o) (side o) (price o) (qty o) (timestamp o) (filled_qty o) s.

Definition set_qty (o : Order) (v : Z) : Order :=
  mkOrder (id o) (side o) (price o) v (timestamp o) (filled_qty o) (status o).

Record Trade : Type := mkTrade {
  trade_price : Z;
  trade_qty : Z;
  maker_order_id : Z;
  taker_order_id : Z
}.

(** References into the object store. *)
Abbreviation ref := nat (only parsing).

Definition deref (objs : list Order) (r : ref) : outcome Order :=
  of_option BadRef (objs !! r).

(** [heapq.heappush] and [heapq.heappop] on the heap of prices. *)
Fixpoint heappush (h : list Z) (x : Z) : list Z :=
  match h with
  | [] => [x]
  | y :: h' => if x <=? y then x :: h else y :: heappush h' x
  end.

Definition heappop (h : list Z) : list Z := tail h.

Record OrderBookSide : Type := mkSide {
  is_bid : bool;
  price_heap : list Z;
  price_levels : gmap Z (list ref);
  orders : gmap Z ref
}.

Definition OrderBookSide_init (b : bool) : OrderBookSide :=
  mkSide b [] ∅ ∅.

Definition heap_price (b : bool) (p : Z) : Z := if b then - p else p.

(** [self.price_levels[p]] on a [defaultdict(deque)]: the deque read, and
    the dictionary with the key created when it was missing. *)
Definition level (lv : gmap Z (list ref)) (p : Z) : list ref :=
  default [] (lv !! p).

Definition touch (lv : gmap Z (list ref)) (p : Z) : gmap Z (list ref) :=
  match lv !! p with
  | Some _ => lv
  | None => <[p := []]> lv
  end.

Definition add (s : OrderBookSide) (objs : list Order) (r : ref)
  : outcome OrderBookSide :=
  order ← deref objs r;
  let heap :=
    match price_levels s !! price order with
    | None => heappush (price_heap s) (heap_price (is_bid s) (price order))
    | Some _ => price_heap s
    end in
  let levels :=
    <[price order := level (price_levels s) (price order) ++ [r]]>
      (price_levels s) in
  mret (mkSide (is_bid s) heap levels (<[id order := r]> (orders s))).

Definition best_price (s : OrderBookSide) : option Z :=
  match price_heap s with
  | [] => None
  | p :: _ => Some (if is_bid s then - p else p)
  end.

(** The loop of [get_queue_position] over the deque. *)
Fixpoint qty_ahead (objs : list Order) (target_id : Z) (queue : list ref)
  (acc : Z) : outcome Z :=
  match queue with
  | [] => mret acc
  | r :: queue' =>
      order ← deref objs r;
      if id order =? target_id then mret acc
      else qty_ahead objs target_id queue' (acc + open_qty order)
  end.

(** Returns the position and the side, whose [price_levels] the lookup of a
    missing price extends with an empty deque. *)
Definition get_queue_position (s : OrderBookSide) (objs : list Order)
  (order_id : Z) : outcome (Z * OrderBookSide) :=
  match orders s !! order_id with
  | None => mret (-1, s)
  | Some tr =>
      target_order ← deref objs tr;
      let queue := level (price_levels s) (price target_order) in
      let s' := mkSide (is_bid s) (price_heap s)
                  (touch (price_levels s) (price target_order)) (orders s) in
      n ← qty_ahead objs (id target_order) queue 0;
      mret (n, s')
  end.

(** The loop of [remove_filled_levels], on the heap and the levels; the
    heap after [heappop] is the tail [h']. *)
Fixpoint remove_levels (b : bool) (h : list Z) (lv : gmap Z (list ref))
  : list Z * gmap Z (list ref) :=
  match h with
  | [] => ([], lv)
  | raw_price :: h' =>
      let real_price := if b then - raw_price else raw_price in
      match lv !! real_price with
      | Some (_ :: _) => (h, lv)
      | _ => remove_levels b h' (delete real_price lv)
      end
  end.

Definition remove_filled_levels (s : OrderBookSide) : OrderBookSide :=
  let '(h, lv) := remove_levels (is_bid s) (price_heap s) (price_levels s) in
  mkSide (is_bid s) h lv (orders s).

Record MatchingEngine : Type := mkEngine {
  objs : list Order;
  bids : OrderBookSide;
  asks : OrderBookSide;
  trades : list Trade
}.

Definition MatchingEngine_init : MatchingEngine :=
  mkEngine [] (OrderBookSide_init true) (OrderBookSide_init false) [].

(** The side of the book selected by its [is_bid] flag. *)
Definition book (e : MatchingEngine) (b : bool) : OrderBookSide :=
  if b then bids e else asks e.

Definition set_book (e : MatchingEngine) (b : bool) (s : OrderBookSide)
  : MatchingEngine :=
  if b then mkEngine (objs e) s (asks e) (trades e)
  else mkEngine (objs e) (bids e) s (trades e).

Definition set_objs (e : MatchingEngine) (l : list Order) : MatchingEngine :=
  mkEngine l (bids e) (asks e) (trades e).

(** [opposing_book = self.bids if order.side == 'sell' else self.asks] and
    [my_book = self.asks if order.side == 'sell' else self.bids]. *)
Definition opposing_is_bid (s : Side) : bool :=
  match s with sell => true | buy => false end.

Definition my_is_bid (s : Side) : bool :=
  match s with sell => false | buy => true end.

Definition update (l : list Order) (r : ref) (f : Order → Order)
  : outcome (list Order) :=
  o ← deref l r; mret (<[r := f o]> l).

Definition restatus (o : Order) : Order :=
  set_status o (if open_qty o =? 0 then FILLED else PARTIAL).

Definition _execute_trade (e : MatchingEngine) (maker taker : ref)
  (q p : Z) : outcome MatchingEngine :=
  l1 ← update (objs e) maker (fun o => set_filled_qty o (filled_qty o + q));
  l2 ← update l1 taker (fun o => set_filled_qty o (filled_qty o + q));
  l3 ← update l2 maker restatus;
  l4 ← update l3 taker restatus;
  m ← deref l4 maker;
  t ← deref l4 taker;
  mret (mkEngine l4 (bids e) (asks e)
          (trades e ++ [mkTrade p q (id m) (id t)])).

Definition is_match (o : Order) (best : Z) : bool :=
  match side o with
  | buy => best <=? price o
  | sell => price o <=? best
  end.

(** One evaluation of the [while] test and, when it passes, of the loop
    body: [None] when the loop is left. *)
Definition match_step (taker : ref) (e : MatchingEngine)
  : outcome (option MatchingEngine) :=
  order ← deref (objs e) taker;
  if 0 <? open_qty order then
    let ob := opposing_is_bid (side order) in
    match best_price (book e ob) with
    | None => mret None
    | Some bp =>
        if is_match order bp then
          match level (price_levels (book e ob)) bp with
          | [] => Raises IndexError
          | maker :: rest =>
              maker_order ← deref (objs e) maker;
              let match_qty :=
                Z.min (open_qty order) (open_qty maker_order) in
              e1 ← _execute_trade e maker taker match_qty bp;
              maker_order' ← deref (objs e1) maker;
              if open_qty maker_order' =? 0 then
                let s := book e1 ob in
                let s1 := mkSide (is_bid s) (price_heap s)
                            (<[bp := rest]> (price_levels s)) (orders s) in
                mret (Some (set_book e1 ob (remove_filled_levels s1)))
              else mret (Some e1)
          end
        else mret None
    end
  else mret None.

Fixpoint match_loop (fuel : nat) (taker : ref) (e : MatchingEngine)
  : outcome MatchingEngine :=
  match fuel with
  | O => OutOfFuel
  | S n =>
      r ← match_step taker e;
      match r with
      | None => mret e
      | Some e' => match_loop n taker e'
      end
  end.

(** The number of references resting on a side: every pass of the loop
    that does not end it removes one of them. *)
Definition resting_count (lv : gmap Z (list ref)) : nat :=
  map_fold (fun _ q n => (length q + n)%nat) 0%nat lv.

(** [process_order] on an [Order] object that is already in the store. *)
Definition process_order_at (e : MatchingEngine) (taker : ref)
  : outcome (MatchingEngine * string) :=
  order0 ← deref (objs e) taker;
  let ob := opposing_is_bid (side order0) in
  let mb := my_is_bid (side order0) in
  e1 ← match_loop (S (resting_count (price_levels (book e ob)))) taker e;
  order ← deref (objs e1) taker;
  if 0 <? open_qty order then
    s ← add (book e1 mb) (objs e1) taker;
    mret (set_book e1 mb s, "RESTING"%string)
  else mret (e1, "FILLED"%string).

(** [process_order] on a freshly built [Order], as [__main__] passes it:
    the object enters the store. *)
Definition process_order (e : MatchingEngine) (o : Order)
  : outcome (MatchingEngine * string) :=
  process_order_at (set_objs e (objs e ++ [o])) (length (objs e)).

(** *** Vocabulary of the properties: invariants, intermediate states,
    worked scenarios *)

(** An order after [_execute_trade] has filled [q] more of it. *)
Definition fill (o : Order) (q : Z) : Order :=
  restatus (set_filled_qty o (filled_qty o + q)).

(** The side of the orders that rest on the bid ([true]) or ask book. *)
Definition side_of (b : bool) : Side := if b then buy else sell.

(** A side of the book is well formed over the store [l]: the heap holds
    exactly the prices of the levels, once each; no level is empty or
    repeats a reference; every resting order is at its own price, on its
    own side, with open quantity; the index of ids points into the store. *)
Record side_ok (l : list Order) (b : bool) (s : OrderBookSide) : Prop := {
  ok_flag : is_bid s = b;
  ok_sorted : StronglySorted Z.lt (price_heap s);
  ok_heap : ∀ p,
    heap_price b p ∈ price_heap s ↔ is_Some (price_levels s !! p);
  ok_queue : ∀ p q, price_levels s !! p = Some q → q ≠ [] ∧ NoDup q;
  ok_resting : ∀ p q r, price_levels s !! p = Some q → r ∈ q →
    ∃ o, l !! r = Some o ∧ price o = p ∧ side o = side_of b ∧
         0 < open_qty o;
  ok_orders : ∀ i r, orders s !! i = Some r →
    ∃ o, l !! r = Some o ∧ id o = i
}.

(** Both sides are well formed and every bid is below every ask. *)
Record engine_ok (e : MatchingEngine) : Prop := {
  ok_bids : side_ok (objs e) true (bids e);
  ok_asks : side_ok (objs e) false (asks e);
  ok_uncrossed : ∀ pb pa,
    is_Some (price_levels (bids e) !! pb) →
    is_Some (price_levels (asks e) !! pa) → pb < pa
}.

(** The object [t] is in no queue of the book. *)
Definition not_resting (e : MatchingEngine) (t : ref) : Prop :=
  ∀ b p q, price_levels (book e b) !! p = Some q → t ∉ q.

(** The engine after [_execute_trade] between maker [m] and taker [t],
    whose objects were [om] and [ot], at price [bp]. *)
Definition traded (e : MatchingEngine) (m t : ref) (om ot : Order)
  (bp : Z) : MatchingEngine :=
  let q := Z.min (open_qty ot) (open_qty om) in
  mkEngine (<[t := fill ot q]> (<[m := fill om q]> (objs e)))
    (bids e) (asks e) (trades e ++ [mkTrade bp q (id om) (id ot)]).

(** The side after [best_queue.popleft()] has left [rest] at [bp]. *)
Definition popleft (s : OrderBookSide) (bp : Z) (rest : list ref)
  : OrderBookSide :=
  mkSide (is_bid s) (price_heap s) (<[bp := rest]> (price_levels s))
    (orders s).

(** The engine after one pass of the loop that trades. *)
Definition next_state (e : MatchingEngine) (t : ref) (ot : Order) (bp : Z)
  (m : ref) (rest : list ref) (om : Order) : MatchingEngine :=
  let e1 := traded e m t om ot bp in
  if open_qty om - Z.min (open_qty ot) (open_qty om) =? 0 then
    let ob := opposing_is_bid (side ot) in
    set_book e1 ob (remove_filled_levels (popleft (book e1 ob) bp rest))
  else e1.

(** The situation in which a pass of the loop trades: taker [t] with open
    quantity against the head [m] of the best opposing level [bp]. *)
Record trade_ctx (e : MatchingEngine) (t : ref) (ot : Order) (bp : Z)
  (m : ref) (rest : list ref) (om : Order) : Prop := {
  tc_ok : engine_ok e;
  tc_taker : objs e !! t = Some ot;
  tc_free : not_resting e t;
  tc_open : 0 < open_qty ot;
  tc_best : best_price (book e (opposing_is_bid (side ot))) = Some bp;
  tc_match : is_match ot bp = true;
  tc_level :
    price_levels (book e (opposing_is_bid (side ot))) !! bp = Some (m :: rest);
  tc_maker : objs e !! m = Some om;
  tc_ne : m ≠ t;
  tc_maker_open : 0 < open_qty om;
  tc_maker_price : price om = bp;
  tc_maker_side : side om = side_of (opposing_is_bid (side ot))
}.

(** The loop is left: the [while] test fails, or one of the [break]s. *)
Definition exit_cond (e : MatchingEngine) (ot : Order) : Prop :=
  open_qty ot ≤ 0 ∨
  best_price (book e (opposing_is_bid (side ot))) = None ∨
  ∃ bp, best_price (book e (opposing_is_bid (side ot))) = Some bp ∧
        is_match ot bp = false.

(** The states the loop goes through, pass after pass, for the taker [t]. *)
Inductive match_steps (t : ref) : MatchingEngine → MatchingEngine → Prop :=
  | steps_refl e : match_steps t e e
  | steps_step e e1 e2 :
      match_step t e = Returns (Some e1) → match_steps t e1 e2 →
      match_steps t e e2.

(** The engines reachable from the empty one by [process_order] calls. *)
Inductive reachable : MatchingEngine → Prop :=
  | reach_init : reachable MatchingEngine_init
  | reach_step e o e' r :
      reachable e → process_order e o = Returns (e', r) → reachable e'.

(** Every order of the store has [0 <= filled_qty <= qty]. *)
Definition filled_ok (l : list Order) : Prop :=
  ∀ r o, l !! r = Some o → 0 ≤ filled_qty o ≤ qty o.

(** The engines reachable from the empty one by [process_order] calls on
    orders that are built with [0 <= filled_qty <= qty]. *)
Inductive reachable_valid : MatchingEngine → Prop :=
  | valid_init : reachable_valid MatchingEngine_init
  | valid_step e o e' r :
      reachable_valid e → 0 ≤ filled_qty o ≤ qty o →
      process_order e o = Returns (e', r) → reachable_valid e'.

(** The state in which the matching loop of [process_order e o] starts. *)
Definition submitted (e : MatchingEngine) (o : Order) : MatchingEngine :=
  set_objs e (objs e ++ [o]).

(** What the loop keeps true of the taker [t] from pass to pass. *)
Record loop_inv (t : ref) (o : Order) (e : MatchingEngine) : Prop := {
  li_ok : engine_ok e;
  li_free : not_resting e t;
  li_taker : ∃ ot, objs e !! t = Some ot ∧ side ot = side o ∧
                   price ot = price o ∧ id ot = id o ∧ qty ot = qty o
}.

(** The state of one price level's queue [queue] (as it was when the
    taker arrived) after some passes of the loop: the first [k] orders
    are gone and fully filled, the order at [k] is the head, the orders
    behind it are as they were. *)
Record fifo_inv (e0 e1 : MatchingEngine) (ob : bool) (p : Z)
  (queue : list ref) (k : nat) : Prop := {
  fi_level :
    price_levels (book e1 ob) !! p =
      if decide (k < length queue)%nat then Some (drop k queue) else None;
  fi_gone : ∀ i r, queue !! i = Some r → (i < k)%nat →
    ∃ o', objs e1 !! r = Some o' ∧ open_qty o' = 0;
  fi_behind : ∀ i r, queue !! i = Some r → (k < i)%nat →
    objs e1 !! r = objs e0 !! r;
  fi_price : ∀ i r, queue !! i = Some r →
    ∃ o', objs e1 !! r = Some o' ∧ price o' = p
}.

(** [process_order] on each order of a list in turn. *)
Fixpoint run_orders (e : MatchingEngine) (os : list Order)
  : outcome MatchingEngine :=
  match os with
  | [] => mret e
  | o :: os' => r ← process_order e o; run_orders (fst r) os'
  end.

(** The orders of the [__main__] scenario of [engine.py]. *)
Definition demo_makers : list Order :=
  [ new_order 1 sell 10100 100 1000;
    new_order 2 sell 10100 50 1001;
    new_order 3 sell 10200 200 1002 ].

Definition demo_taker : Order := new_order 99 buy 10150 120 2000.

(** The book with the three resting asks of the scenario. *)
Definition demo_book : MatchingEngine :=
  match run_orders MatchingEngine_init demo_makers with
  | Returns e => e
  | _ => MatchingEngine_init
  end.

(** A buy that takes both asks at 101.00 and rests the remainder. *)
Definition demo_sweep : Order := new_order 100 buy 10150 200 2001.

(** The value [get_queue_position] returns. *)
Definition position (r : outcome (Z * OrderBookSide)) : outcome Z :=
  x ← r; mret (fst x).

(** The scenario after the buy #99 has been processed. *)
Definition demo_after : outcome MatchingEngine :=
  run_orders MatchingEngine_init (demo_makers ++ [demo_taker]).

(** The open quantity of the orders of a queue. *)
Definition open_sum (l : list Order) (q : list ref) : Z :=
  foldr (fun r acc => from_option open_qty 0 (l !! r) + acc) 0 q.


(** The orders the specification wants refused. *)
Definition invalid_order (o : Order) : Prop := qty o ≤ 0 ∨ price o ≤ 0.

(** An explicit invalid-order signal: an exception, or a return value
    that is neither of the two placement codes; and the order has been
    neither matched nor rested. *)
Definition rejected (e : MatchingEngine) (o : Order) : Prop :=
  match process_order e o with
  | Returns (e', r) =>
      r ≠ "RESTING"%string ∧ r ≠ "FILLED"%string ∧
      bids e' = bids e ∧ asks e' = asks e ∧ trades e' = trades e
  | Raises _ => True
  | OutOfFuel => False
  end.

(** *** Vocabulary of the properties of one [process_order] call *)

(** The side after [add] has rested the object [r], which is [order]. *)
Definition rested (s : OrderBookSide) (order : Order) (r : ref)
  : OrderBookSide :=
  mkSide (is_bid s)
    (match price_levels s !! price order with
     | None => heappush (price_heap s) (heap_price (is_bid s) (price order))
     | Some _ => price_heap s
     end)
    (<[price order := level (price_levels s) (price order) ++ [r]]>
       (price_levels s))
    (<[id order := r]> (orders s)).

(** The quantity of a list of trades. *)
Definition trade_sum (l : list Trade) : Z :=
  foldr (fun tr acc => trade_qty tr + acc) 0 l.

(** A trade of the taker [o] against the book [e]: a positive quantity,
    at a price the limit of [o] accepts, which is the price of a level of
    the opposite side where the maker, an order of that id, was resting. *)
Definition fair_trade (e : MatchingEngine) (o : Order) (tr : Trade) : Prop :=
  0 < trade_qty tr ∧ taker_order_id tr = id o ∧
  is_match o (trade_price tr) = true ∧
  ∃ q m om,
    price_levels (book e (opposing_is_bid (side o))) !! trade_price tr
      = Some q ∧
    m ∈ q ∧ objs e !! m = Some om ∧ id om = maker_order_id tr ∧
    price om = trade_price tr.

(** The first of two trades is at a price at least as good for a taker
    whose opposite side is the bid ([b = true]) or the ask book. *)
Definition no_worse (b : bool) (tr1 tr2 : Trade) : Prop :=
  heap_price b (trade_price tr1) ≤ heap_price b (trade_price tr2).

(** What the passes of the loop for the taker [t], submitted as [o] to
    the book [e0], have done when the engine is [e1]. *)
Record taking (e0 : MatchingEngine) (t : ref) (o : Order)
  (e1 : MatchingEngine) : Prop := {
  tk_trades : ∃ new ot,
    trades e1 = trades e0 ++ new ∧ Forall (fair_trade e0 o) new ∧
    objs e1 !! t = Some ot ∧
    filled_qty ot = filled_qty o + trade_sum new ∧
    StronglySorted (no_worse (opposing_is_bid (side o))) new ∧
    ∀ tr p, tr ∈ new →
      is_Some (price_levels (book e1 (opposing_is_bid (side o))) !! p) →
      heap_price (opposing_is_bid (side o)) (trade_price tr)
      ≤ heap_price (opposing_is_bid (side o)) p;
  tk_frame : ∀ r, r ≠ t →
    (∀ p q, price_levels (book e0 (opposing_is_bid (side o))) !! p = Some q →
            r ∉ q) →
    objs e1 !! r = objs e0 !! r;
  tk_queues : ∀ p q,
    price_levels (book e1 (opposing_is_bid (side o))) !! p = Some q →
    ∃ q0, price_levels (book e0 (opposing_is_bid (side o))) !! p = Some q0 ∧
          q ⊆ q0;
  tk_static : ∀ r o0, objs e0 !! r = Some o0 →
    ∃ o1, objs e1 !! r = Some o1 ∧ id o1 = id o0 ∧ price o1 = price o0 ∧
          side o1 = side o0 ∧ qty o1 = qty o0 ∧
          timestamp o1 = timestamp o0;
  tk_own :
    book e1 (negb (opposing_is_bid (side o)))
    = book e0 (negb (opposing_is_bid (side o)))
}.

(** A third sell at 101.00 for the scenario, behind #1 and #2, and the
    book in which it rests. *)
Definition demo_late : Order := new_order 4 sell 10100 70 1003.

Definition demo_late_book : MatchingEngine :=
  match process_order demo_book demo_late with
  | Returns x => fst x
  | _ => demo_book
  end.

(** A buy below the asks of the scenario. *)
Definition demo_passive : Order := new_order 7 buy 10000 40 1500.

(** An ask side after its only order, #1 at 101.00, has been filled: no
    level is left and #1 is still indexed; the store also holds a sell #6
    at 101.00 that has not been added yet. *)
Definition stale_side : OrderBookSide :=
  mkSide false [] ∅ {[ 1 := 0%nat ]}.

Definition stale_store : list Order :=
  [ mkOrder 1 sell 10100 100 1000 100 FILLED;
    new_order 6 sell 10100 10 3000 ].

(** *** Fresh orders: status and accounts *)

(** The engines built from the empty one by [process_order] calls on
    orders made with the defaults of the dataclass: nothing filled,
    status [OPEN]. *)
Inductive reachable_fresh : MatchingEngine → Prop :=
  | fresh_init : reachable_fresh MatchingEngine_init
  | fresh_step e i s p q t e' r :
      reachable_fresh e →
      process_order e (new_order i s p q t) = Returns (e', r) →
      reachable_fresh e'.

(** The status of an order agrees with its quantities. *)
Definition status_ok (o : Order) : Prop :=
  match status o with
  | OPEN => filled_qty o = 0
  | PARTIAL => 0 < filled_qty o ∧ 0 < open_qty o
  | FILLED => 0 < filled_qty o ∧ open_qty o = 0
  end.

(** The filled quantity of all the orders of a store. *)
Definition filled_total (l : list Order) : Z :=
  foldr (fun o acc => filled_qty o + acc) 0 l.

(** A sum over the price levels of a side. *)
Definition level_sum (f : Z → list ref → Z) (lv : gmap Z (list ref)) : Z :=
  map_fold (fun p q acc => f p q + acc) 0 lv.

(** The liquidity the book [e] offers to the order [o]: the open
    quantity resting on the opposite side at prices that the limit of
    [o] accepts. *)
Definition avail (e : MatchingEngine) (o : Order) : Z :=
  level_sum (fun p q => if is_match o p then open_sum (objs e) q else 0)
    (price_levels (book e (opposing_is_bid (side o)))).

(** The book of the scenario after the buy #99. *)
Definition demo_final : MatchingEngine :=
  match demo_after with
  | Returns e => e
  | _ => MatchingEngine_init
  end.

(** *** The book under cancels *)

(** A side of the book as cancels leave it: as [side_ok], but a resting
    order may have no open quantity left (a cancel can take all of it). *)
Record side_wf (l : list Order) (b : bool) (s : OrderBookSide) : Prop := {
  wf_flag : is_bid s = b;
  wf_sorted : StronglySorted Z.lt (price_heap s);
  wf_heap : ∀ p,
    heap_price b p ∈ price_heap s ↔ is_Some (price_levels s !! p);
  wf_queue : ∀ p q, price_levels s !! p = Some q → q ≠ [] ∧ NoDup q;
  wf_resting : ∀ p q r, price_levels s !! p = Some q → r ∈ q →
    ∃ o, l !! r = Some o ∧ price o = p ∧ side o = side_of b ∧
         0 ≤ open_qty o;
  wf_orders : ∀ i r, orders s !! i = Some r →
    ∃ o, l !! r = Some o ∧ id o = i
}.

Record engine_wf (e : MatchingEngine) : Prop := {
  wf_bids : side_wf (objs e) true (bids e);
  wf_asks : side_wf (objs e) false (asks e);
  wf_uncrossed : ∀ pb pa,
    is_Some (price_levels (bids e) !! pb) →
    is_Some (price_levels (asks e) !! pa) → pb < pa
}.

(** The situation in which a pass of the loop trades, after cancels: the
    maker may have nothing open. *)
Record trade_wf (e : MatchingEngine) (t : ref) (ot : Order) (bp : Z)
  (m : ref) (rest : list ref) (om : Order) : Prop := {
  tw_ok : engine_wf e;
  tw_taker : objs e !! t = Some ot;
  tw_free : not_resting e t;
  tw_open : 0 < open_qty ot;
  tw_best : best_price (book e (opposing_is_bid (side ot))) = Some bp;
  tw_match : is_match ot bp = true;
  tw_level :
    price_levels (book e (opposing_is_bid (side ot))) !! bp = Some (m :: rest);
  tw_maker : objs e !! m = Some om;
  tw_ne : m ≠ t;
  tw_maker_open : 0 ≤ open_qty om;
  tw_maker_price : price om = bp;
  tw_maker_side : side om = side_of (opposing_is_bid (side ot))
}.

End Engine.

(** ** [src/src/replayer.py] *)

Module Replayer.

Inductive EventType : Type := ADD | CANCEL | TRADE.

Record MarketEvent : Type := mkMarketEvent {
  timestamp : Z;
  event_type : EventType;
  side : Engine.Side;
  price : Z;
  qty : Z;
  order_id : Z
}.

Record MarketDataReplayer : Type := mkReplayer {
  id_counter : Z
}.

Definition MarketDataReplayer_init : MarketDataReplayer := mkReplayer 10000.

Definition _generate_id (self : MarketDataReplayer)
  : Z * MarketDataReplayer :=
  (id_counter self + 1, mkReplayer (id_counter self + 1)).

(** The rows of [mock_csv_data]: timestamp, type, side, price, qty. *)
Definition mock_csv_data : list (Z * EventType * Engine.Side * Z * Z) :=
  [ (1000000, ADD, Engine.buy, 10000, 500);
    (1000050, ADD, Engine.sell, 10050, 200);
    (1000100, ADD, Engine.sell, 10055, 300);
    (1005000, CANCEL, Engine.sell, 10055, 300);
    (1010000, TRADE, Engine.buy, 10050, 50) ].

(** The events the generator [stream_events] yields, in order. *)
Fixpoint stream_rows (self : MarketDataReplayer)
  (rows : list (Z * EventType * Engine.Side * Z * Z))
  : list MarketEvent * MarketDataReplayer :=
  match rows with
  | [] => ([], self)
  | (ts, ty, sd, p, q) :: rows' =>
      let '(i, self1) := _generate_id self in
      let '(evs, self2) := stream_rows self1 rows' in
      (mkMarketEvent ts ty sd p q i :: evs, self2)
  end.

Definition stream_events (self : MarketDataReplayer)
  : list MarketEvent * MarketDataReplayer :=
  stream_rows self mock_csv_data.

(** [apply_market_event].  The module imports [csv], [io], [dataclass],
    [Iterator] and [Optional] only: in the ['ADD'] branch the name [Order]
    is not bound, and looking it up raises [NameError] before an order is
    built or the engine is touched.  The ['CANCEL'] branch names nothing
    that is missing; any other event type falls through both tests. *)
Definition apply_market_event (engine : Engine.MatchingEngine)
  (event : MarketEvent) : outcome Engine.MatchingEngine :=
  match event_type event with
  | ADD => Raises NameError
  | CANCEL =>
      let book_side :=
        match side event with
        | Engine.buy => Engine.bids engine
        | Engine.sell => Engine.asks engine
        end in
      match Engine.price_levels book_side !! price event with
      | Some queue =>
          let remaining_to_cancel := qty event in
          match last queue with
          | Some tr =>
              target ← Engine.deref (Engine.objs engine) tr;
              if remaining_to_cancel <=? Engine.open_qty target then
                mret (Engine.set_objs engine
                        (<[tr := Engine.set_qty target
                                   (Engine.qty target - remaining_to_cancel)]>
                           (Engine.objs engine)))
              else mret engine
          | None => mret engine
          end
      | None => mret engine
      end
  | TRADE => mret engine
  end.

(** *** Vocabulary of the properties of market events *)

(** The engines a client reaches from the empty one when it submits its
    orders to [process_order] of [engine.py] and applies market events
    with [apply_market_event]: the events that return are the ones that
    count, and none of them is an ['ADD']. *)
Inductive maintained : Engine.MatchingEngine → Prop :=
  | maintained_init : maintained Engine.MatchingEngine_init
  | maintained_order e o e' r :
      maintained e → Engine.process_order e o = Returns (e', r) →
      maintained e'
  | maintained_event e ev e' :
      maintained e → apply_market_event e ev = Returns e' → maintained e'.

(** [apply_market_event] on each event of a list in turn, from an engine,
    as the loop [for event in ...: apply_market_event(engine, event)] of
    [__main__] does; the first exception ends it.  ([__main__] itself
    does not reach its loop: [MatchingEngine] is not bound in the module
    either.) *)
Fixpoint replay (engine : Engine.MatchingEngine) (events : list MarketEvent)
  : outcome Engine.MatchingEngine :=
  match events with
  | [] => mret engine
  | event :: events' =>
      engine' ← apply_market_event engine event;
      replay engine' events'
  end.

(** The orders that the first three rows of the mock file describe, and
    the cancel of the fourth row. *)
Definition mock_orders : list Engine.Order :=
  [ Engine.new_order 10001 Engine.buy 10000 500 1000000;
    Engine.new_order 10002 Engine.sell 10050 200 1000050;
    Engine.new_order 10003 Engine.sell 10055 300 1000100 ].

Definition mock_cancel : MarketEvent :=
  mkMarketEvent 1005000 CANCEL Engine.sell 10055 300 10004.

(** The engine after the orders [os] have gone through [process_order]
    and the event [ev] through [apply_market_event]. *)
Definition orders_then_event (os : list Engine.Order) (ev : MarketEvent)
  : outcome Engine.MatchingEngine :=
  e ← Engine.run_orders Engine.MatchingEngine_init os;
  apply_market_event e ev.

(** The book of the first four rows, its orders submitted to
    [process_order]: the bid at 100.00, the ask at 100.50, and the ask at
    100.55 cancelled in full. *)
Definition mock_book : Engine.MatchingEngine :=
  match orders_then_event mock_orders mock_cancel with
  | Returns e => e
  | _ => Engine.MatchingEngine_init
  end.

(** The book of rows three and four alone: an ask of 300 at 100.55 that
    the cancel has taken in full, and that still rests. *)
Definition cancelled_book : Engine.MatchingEngine :=
  match orders_then_event (drop 2 mock_orders) mock_cancel with
  | Returns e => e
  | _ => Engine.MatchingEngine_init
  end.

End Replayer.

(** ** [src/src/network.py] *)

Module Network.

Record NetworkConfig : Type := mkNetworkConfig {
  name : string;
  base_latency_ms : float;
  jitter_scale : float;
  drop_probability : float
}.

(** [numpy.random.Generator], a deterministic state machine: the state
    made from a seed, and the two draws the sources use, each returning
    the sample and the state after it. *)
Class Generator (G : Type) : Type := {
  default_rng : Z → G;
  random : G → float * G;
  gamma : float → float → G → float * G
}.

Record LatencySimulator (G : Type) : Type := mkLatencySimulator {
  config : NetworkConfig;
  rng : G
}.

Arguments mkLatencySimulator {G} config rng.
Arguments config {G} l.
Arguments rng {G} l.

Definition LatencySimulator_init {G : Type} `{Generator G}
  (config : NetworkConfig) (seed : Z) : LatencySimulator G :=
  mkLatencySimulator config (default_rng seed).

Definition next_latency_ms {G : Type} `{Generator G}
  (self : LatencySimulator G) : float * LatencySimulator G :=
  let '(u, g1) := random (rng self) in
  if PrimFloat.ltb u (drop_probability (config self)) then
    ((-1.0)%float, mkLatencySimulator (config self) g1)
  else
    let '(jitter, g2) := gamma 2.0%float (jitter_scale (config self)) g1 in
    ((base_latency_ms (config self) + jitter)%float,
     mkLatencySimulator (config self) g2).

(** A generator that records the draws made on it, oldest first. *)
Inductive Draw : Type :=
  | DrawRandom
  | DrawGamma (shape scale : float).

Record Traced (G : Type) : Type := mkTraced {
  inner : G;
  draws : list Draw
}.

Arguments mkTraced {G} inner draws.
Arguments inner {G} t.
Arguments draws {G} t.

#[global] Instance Traced_Generator {G : Type} `{Generator G}
  : Generator (Traced G) := {
  default_rng seed := mkTraced (default_rng seed) [];
  random t :=
    let '(u, g) := random (inner t) in
    (u, mkTraced g (draws t ++ [DrawRandom]));
  gamma shape scale t :=
    let '(x, g) := gamma shape scale (inner t) in
    (x, mkTraced g (draws t ++ [DrawGamma shape scale]))
}.

(** Generators for worked examples: the state counts the draws; a uniform
    draw is 0.5, a gamma draw is the mean [shape * scale], a Gaussian
    draw is its mean. *)
#[global] Instance counting_Generator : Generator nat := {
  default_rng seed := Z.to_nat seed;
  random g := (0.5%float, S g);
  gamma shape scale g := ((shape * scale)%float, S g)
}.

(** Two generator objects, each with a state of its own, give the same
    draws: equal seeds make states related by [R], and states related by
    [R] return equal samples and are left related. *)
Record same_draws {G1 G2 : Type} `{Generator G1} `{Generator G2}
  (R : G1 → G2 → Prop) : Prop := {
  sd_seed : ∀ seed, R (default_rng seed) (default_rng seed);
  sd_random : ∀ g1 g2, R g1 g2 →
    fst (random g1) = fst (random g2) ∧
    R (snd (random g1)) (snd (random g2));
  sd_gamma : ∀ shape scale g1 g2, R g1 g2 →
    fst (gamma shape scale g1) = fst (gamma shape scale g2) ∧
    R (snd (gamma shape scale g1)) (snd (gamma shape scale g2))
}.

(** The recording generator draws what the generator inside it draws. *)
Definition recorded {G : Type} (g : G) (t : Traced G) : Prop := inner t = g.

Definition lossy_config : NetworkConfig :=
  mkNetworkConfig "Lossy" 0.5 0x1.999999999999ap-4 1.

(** A profile that never drops, on the counting generator. *)
Definition reliable_simulator : LatencySimulator nat :=
  LatencySimulator_init
    (mkNetworkConfig "Colo" 0.5 0x1.999999999999ap-4 0) 42.

End Network.

(** ** CPython's [heapq], on a list and an order [lt] (the [<] of the
    elements) *)

Module Heapq.

Section heapq.

Context {A : Type} (lt : A → A → bool).

(** The [while] loop of [_siftdown]; [pos] decreases at every pass, so
    [pos] passes are enough and the loop has ended when they are used up. *)
Fixpoint siftdown_loop (fuel : nat) (heap : list A) (startpos pos : nat)
  (newitem : A) : list A * nat :=
  match fuel with
  | O => (heap, pos)
  | S fuel' =>
      if (startpos <? pos)%nat then
        let parentpos := Nat.div2 (pos - 1) in
        match heap !! parentpos with
        | Some parent =>
            if lt newitem parent then
              siftdown_loop fuel' (<[pos := parent]> heap) startpos
                parentpos newitem
            else (heap, pos)
        | None => (heap, pos)
        end
      else (heap, pos)
  end.

Definition _siftdown (heap : list A) (startpos pos : nat) : list A :=
  match heap !! pos with
  | Some newitem =>
      let '(heap', pos') := siftdown_loop pos heap startpos pos newitem in
      <[pos' := newitem]> heap'
  | None => heap
  end.

(** The [while] loop of [_siftup]; [pos] increases at every pass. *)
Fixpoint siftup_loop (fuel : nat) (heap : list A) (endpos pos : nat)
  : list A * nat :=
  match fuel with
  | O => (heap, pos)
  | S fuel' =>
      let childpos := (2 * pos + 1)%nat in
      if (childpos <? endpos)%nat then
        let rightpos := (childpos + 1)%nat in
        let childpos :=
          if (rightpos <? endpos)%nat then
            match heap !! childpos, heap !! rightpos with
            | Some c, Some r => if lt c r then childpos else rightpos
            | _, _ => childpos
            end
          else childpos in
        match heap !! childpos with
        | Some c => siftup_loop fuel' (<[pos := c]> heap) endpos childpos
        | None => (heap, pos)
        end
      else (heap, pos)
  end.

Definition _siftup (heap : list A) (pos : nat) : list A :=
  match heap !! pos with
  | Some newitem =>
      let '(heap', pos') :=
        siftup_loop (length heap) heap (length heap) pos in
      _siftdown (<[pos' := newitem]> heap') pos pos'
  | None => heap
  end.

Definition heappush (heap : list A) (item : A) : list A :=
  _siftdown (heap ++ [item]) 0 (length heap).

(** [heappop]: the item returned and the heap left; [None] is the
    [IndexError] of popping an empty list. *)
Definition heappop (heap : list A) : option (A * list A) :=
  match last heap with
  | None => None
  | Some lastelt =>
      match removelast heap with
      | [] => Some (lastelt, [])
      | returnitem :: heap' =>
          Some (returnitem, _siftup (lastelt :: heap') 0)
      end
  end.

End heapq.

(** *** Vocabulary of the order of the heap *)

(** The heap invariant of [heapq] for elements compared by a key: no
    element is below its parent, the element at [(i - 1) // 2]. *)
Definition is_heap {A : Type} (key : A → Z) (h : list A) : Prop :=
  ∀ (i : nat) x p, (0 < i)%nat → h !! i = Some x →
    h !! Nat.div2 (i - 1) = Some p → (key p <= key x)%Z.

(** The invariant while [_siftdown] moves its item through the heap [h],
    in which the item stands at [pos]: every element but the one at
    [pos] is above its parent, and the children of [pos] are above the
    parent of [pos]. *)
Definition heap_but {A : Type} (key : A → Z) (h : list A) (pos : nat)
  : Prop :=
  (∀ (i : nat) x p, (0 < i)%nat → i ≠ pos → h !! i = Some x →
     h !! Nat.div2 (i - 1) = Some p → (key p <= key x)%Z) ∧
  (∀ (c : nat) x g, (0 < pos)%nat → (0 < c)%nat → Nat.div2 (c - 1) = pos →
     h !! c = Some x → h !! Nat.div2 (pos - 1) = Some g →
     (key g <= key x)%Z).

(** The invariant while [_siftup] moves the hole down: the value at the
    hole [pos] is stale; elsewhere the heap is in order, and the children
    of the hole are above its parent. *)
Definition heap_hole {A : Type} (key : A → Z) (h : list A) (pos : nat)
  : Prop :=
  (∀ (i : nat) x p, (0 < i)%nat → i ≠ pos → Nat.div2 (i - 1) ≠ pos →
     h !! i = Some x → h !! Nat.div2 (i - 1) = Some p →
     (key p <= key x)%Z) ∧
  (∀ (c : nat) x g, (0 < pos)%nat → (0 < c)%nat → Nat.div2 (c - 1) = pos →
     h !! c = Some x → h !! Nat.div2 (pos - 1) = Some g →
     (key g <= key x)%Z).

End Heapq.

(** ** [src/simulation.py] *)

Module Simulation.

Record NetworkConfig : Type := mkNetworkConfig {
  name : string;
  mean_latency_ms : float;
  std_dev_latency_ms : float;
  packet_loss_rate : float
}.

(** [random.Random]: the state made from a seed, and [gauss]. *)
Class PyRandom (R : Type) : Type := {
  Random : Z → R;
  gauss : float → float → R → float * R
}.

Record LatencySimulator (R : Type) : Type := mkLatencySimulator {
  config : NetworkConfig;
  random : R
}.

Arguments mkLatencySimulator {R} config random.
Arguments config {R} l.
Arguments random {R} l.

Definition LatencySimulator_init {R : Type} `{PyRandom R}
  (config : NetworkConfig) (seed : Z) : LatencySimulator R :=
  mkLatencySimulator config (Random seed).

(** What the scheduler asks of a latency model: one sample, and the
    model after it. *)
Class LatencyModel (L : Type) : Type := {
  next_latency_ms : L → float * L
}.

(** [max(0.1, x)] is [x] when [x > 0.1] and [0.1] otherwise. *)
#[global] Instance LatencySimulator_model {R : Type} `{PyRandom R}
  : LatencyModel (LatencySimulator R) := {
  next_latency_ms self :=
    let '(x, r) := gauss (mean_latency_ms (config self))
                     (std_dev_latency_ms (config self)) (random self) in
    (if PrimFloat.ltb 0x1.999999999999ap-4%float x then x
     else 0x1.999999999999ap-4%float,
     mkLatencySimulator (config self) r)
}.

(** The latency model of [src/src/network.py] offers the same method. *)
#[global] Instance Network_model {G : Type} `{Network.Generator G}
  : LatencyModel (Network.LatencySimulator G) := {
  next_latency_ms := Network.next_latency_ms
}.

Inductive Side : Type := buy | sell.

Record Order : Type := mkOrder {
  order_id : Z;
  side : Side;
  price : Z;
  quantity : Z;
  timestamp : Z
}.

Inductive EventType : Type := ADD | CANCEL | TRADE.

Record MarketEvent : Type := mkMarketEvent {
  ev_timestamp : Z;
  event_type : EventType;
  ev_order_id : Z;
  ev_price : Z;
  qty : Z;
  ev_side : Side
}.

Record MarketDataReplayer : Type := mkReplayer {
  _mock_events : list MarketEvent
}.

Definition MarketDataReplayer_init : MarketDataReplayer :=
  mkReplayer
    [ mkMarketEvent 1000 ADD 1 9995 100 buy;
      mkMarketEvent 1010 ADD 2 10001 50 sell;
      mkMarketEvent 1020 ADD 3 10000 20 buy;
      mkMarketEvent 1030 ADD 4 10002 75 sell;
      mkMarketEvent 1040 ADD 5 10005 30 buy;
      mkMarketEvent 1050 ADD 6 10003 30 buy ].

Definition stream_events (self : MarketDataReplayer) : list MarketEvent :=
  _mock_events self.

(** [BookSide]: [_levels], price to quantity. *)
Definition add_order (levels : gmap Z Z) (price qty : Z) : gmap Z Z :=
  <[price := default 0 (levels !! price) + qty]> levels.

Definition remove_order (levels : gmap Z Z) (price qty : Z) : gmap Z Z :=
  match levels !! price with
  | Some q => if q - qty <=? 0 then delete price levels
              else <[price := q - qty]> levels
  | None => levels
  end.

(** [max(self._levels.keys())] and [min(self._levels.keys())], [None] on
    an empty dictionary. *)
Definition BidBook_best_price (levels : gmap Z Z) : option Z :=
  map_fold (fun k _ acc =>
              Some (match acc with Some a => Z.max a k | None => k end))
    None levels.

Definition AskBook_best_price (levels : gmap Z Z) : option Z :=
  map_fold (fun k _ acc =>
              Some (match acc with Some a => Z.min a k | None => k end))
    None levels.

Record MatchingEngine : Type := mkEngine {
  bids : gmap Z Z;
  asks : gmap Z Z;
  orders : gmap Z Order
}.

Definition MatchingEngine_init : MatchingEngine :=
  mkEngine
    (add_order (add_order (add_order ∅ 9990 100) 9995 50) 10000 20)
    (add_order (add_order ∅ 10010 100) 10015 50)
    ∅.

Definition process_order (self : MatchingEngine) (order : Order)
  : MatchingEngine * string :=
  let orders' := <[order_id order := order]> (orders self) in
  (match side order with
   | buy => mkEngine (add_order (bids self) (price order) (quantity order))
              (asks self) orders'
   | sell => mkEngine (bids self)
               (add_order (asks self) (price order) (quantity order)) orders'
   end, "ACCEPTED"%string).

Definition apply_market_event (engine : MatchingEngine)
  (event : MarketEvent) : MatchingEngine :=
  match event_type event with
  | ADD =>
      match ev_side event with
      | buy => mkEngine (add_order (bids engine) (ev_price event) (qty event))
                 (asks engine) (orders engine)
      | sell => mkEngine (bids engine)
                  (add_order (asks engine) (ev_price event) (qty event))
                  (orders engine)
      end
  | _ => engine
  end.

(** [SimEvent]: the timestamp, and the discriminant with its payload.
    Events compare by timestamp alone. *)
Inductive SimEventBody : Type :=
  | MARKET (payload : MarketEvent)
  | ORDER_ARRIVAL (payload : Order).

Record SimEvent : Type := mkSimEvent {
  sim_timestamp : Z;
  body : SimEventBody
}.

Definition SimEvent_lt (a b : SimEvent) : bool :=
  sim_timestamp a <? sim_timestamp b.

(** A strategy: its state, and the hook that may return an order. *)
Class Strategy (T : Type) : Type := {
  on_market_update : T → MatchingEngine → option Order * T
}.

(** The base class [Strategy], which has no state and never trades. *)
#[global] Instance base_Strategy : Strategy unit := {
  on_market_update s _ := (None, s)
}.

Record SimpleMarketMaker : Type := mkSimpleMarketMaker {
  sent_order : bool
}.

Definition SimpleMarketMaker_init : SimpleMarketMaker :=
  mkSimpleMarketMaker false.

#[global] Instance SimpleMarketMaker_Strategy : Strategy SimpleMarketMaker := {
  on_market_update self engine :=
    match BidBook_best_price (bids engine) with
    | Some best_bid =>
        if negb (sent_order self) && negb (best_bid =? 0)
           && (10000 <=? best_bid)
        then (Some (mkOrder 999 buy 10005 10 0), mkSimpleMarketMaker true)
        else (None, self)
    | None => (None, self)
    end
}.

(** [int(x)] on a float: truncation towards zero. *)
Definition int_of_float (x : float) : outcome Z :=
  match Prim2SF x with
  | S754_zero _ => Returns 0
  | S754_finite s m e =>
      let v := Z.shiftl (Z.pos m) e in
      Returns (if s then - v else v)
  | S754_infinity _ => Raises OverflowError
  | S754_nan => Raises ValueError
  end.

(** What a run prints, as records: the trace of the run. *)
Inductive LogRecord : Type :=
  | LogStart
  | LogMarket (time : Z) (event : MarketEvent)
  | LogNetwork (latency_ms : float) (arrival_time : Z)
  | LogArrival (time : Z)
  | LogEngine (order : Order)
  | LogStatus (status : string).

Record SimulationRunner (L T : Type) : Type := mkRunner {
  engine : MatchingEngine;
  latency : L;
  strategy : T;
  events : list SimEvent;
  current_time : Z;
  market_stream : list MarketEvent;
  log : list LogRecord
}.

Arguments mkRunner {L T} engine latency strategy events current_time
  market_stream log.
Arguments engine {L T} s.
Arguments latency {L T} s.
Arguments strategy {L T} s.
Arguments events {L T} s.
Arguments current_time {L T} s.
Arguments market_stream {L T} s.
Arguments log {L T} s.

Section runner.

Context {L T : Type} `{LatencyModel L} `{Strategy T}.

Definition _schedule_next_market_event (self : SimulationRunner L T)
  : SimulationRunner L T :=
  match market_stream self with
  | evt :: stream =>
      mkRunner (engine self) (latency self) (strategy self)
        (Heapq.heappush SimEvent_lt (events self)
           (mkSimEvent (ev_timestamp evt) (MARKET evt)))
        (current_time self) stream (log self)
  | [] => self
  end.

Definition SimulationRunner_init (replayer : MarketDataReplayer)
  (engine : MatchingEngine) (latency_sim : L) (strategy : T)
  : SimulationRunner L T :=
  _schedule_next_market_event
    (mkRunner engine latency_sim strategy [] 0 (stream_events replayer) []).

Definition _handle_market_event (self : SimulationRunner L T)
  (market_event : MarketEvent) : outcome (SimulationRunner L T) :=
  let engine1 := apply_market_event (engine self) market_event in
  let log1 := log self ++ [LogMarket (current_time self) market_event] in
  let '(user_order, strategy1) := on_market_update (strategy self) engine1 in
  match user_order with
  | Some order =>
      let '(latency_ms, latency1) := next_latency_ms (latency self) in
      latency_us ← int_of_float (latency_ms * 1000)%float;
      let arrival_time := current_time self + latency_us in
      mret (mkRunner engine1 latency1 strategy1
              (Heapq.heappush SimEvent_lt (events self)
                 (mkSimEvent arrival_time (ORDER_ARRIVAL order)))
              (current_time self) (market_stream self)
              (log1 ++ [LogNetwork latency_ms arrival_time]))
  | None =>
      mret (mkRunner engine1 (latency self) strategy1 (events self)
              (current_time self) (market_stream self) log1)
  end.

Definition _handle_order_arrival (self : SimulationRunner L T)
  (order : Order) : SimulationRunner L T :=
  let '(engine1, status) := process_order (engine self) order in
  mkRunner engine1 (latency self) (strategy self) (events self)
    (current_time self) (market_stream self)
    (log self ++ [LogArrival (current_time self); LogEngine order;
                  LogStatus status]).

(** One pass of the [while self.events] loop of [run]; [None] when the
    queue is empty. *)
Definition run_step (self : SimulationRunner L T)
  : outcome (option (SimulationRunner L T)) :=
  match Heapq.heappop SimEvent_lt (events self) with
  | None => mret None
  | Some (sim_event, events1) =>
      let self1 :=
        mkRunner (engine self) (latency self) (strategy self) events1
          (sim_timestamp sim_event) (market_stream self) (log self) in
      match body sim_event with
      | MARKET payload =>
          self2 ← _handle_market_event self1 payload;
          mret (Some (_schedule_next_market_event self2))
      | ORDER_ARRIVAL payload =>
          mret (Some (_handle_order_arrival self1 payload))
      end
  end.

Fixpoint run_loop (fuel : nat) (self : SimulationRunner L T)
  : outcome (SimulationRunner L T) :=
  match fuel with
  | O => OutOfFuel
  | S fuel' =>
      r ← run_step self;
      match r with
      | None => mret self
      | Some self' => run_loop fuel' self'
      end
  end.

(** Every pass takes an event off the queue; a market event puts back at
    most an arrival and the next market event of the stream. *)
Definition event_weight (e : SimEvent) : nat :=
  match body e with MARKET _ => 2 | ORDER_ARRIVAL _ => 1 end.

Definition run_fuel (self : SimulationRunner L T) : nat :=
  S (2 * length (market_stream self)
     + sum_list_with event_weight (events self)).

Definition run (self : SimulationRunner L T)
  : outcome (SimulationRunner L T) :=
  run_loop (run_fuel self)
    (mkRunner (engine self) (latency self) (strategy self) (events self)
       (current_time self) (market_stream self) (log self ++ [LogStart])).

End runner.

(** *** Vocabulary of the properties and worked scenarios *)

(** What a run has printed, and the three sequences that can be read off
    it: the latency samples, the arrival times they gave, and the orders
    the engine has processed (this engine records orders, it makes no
    [Trade]). *)
Definition run_log {L T : Type} (x : outcome (SimulationRunner L T))
  : list LogRecord :=
  match x with
  | Returns self => log self
  | _ => []
  end.

Definition latency_samples (l : list LogRecord) : list float :=
  omap (fun r => match r with LogNetwork x _ => Some x | _ => None end) l.

Definition arrival_timestamps (l : list LogRecord) : list Z :=
  omap (fun r => match r with LogNetwork _ t => Some t | _ => None end) l.

Definition processed_orders (l : list LogRecord) : list Order :=
  omap (fun r => match r with LogEngine o => Some o | _ => None end) l.

(** The measure that every pass of [run]'s loop decreases. *)
Definition potential {L T : Type} (r : SimulationRunner L T) : nat :=
  2 * length (market_stream r) + sum_list_with event_weight (events r).

(** Two schedulers that differ in their latency models only. *)
Definition related {L1 L2 T : Type} (R : L1 → L2 → Prop)
  (r1 : SimulationRunner L1 T) (r2 : SimulationRunner L2 T) : Prop :=
  engine r1 = engine r2 ∧ R (latency r1) (latency r2) ∧
  strategy r1 = strategy r2 ∧ events r1 = events r2 ∧
  current_time r1 = current_time r2 ∧
  market_stream r1 = market_stream r2 ∧ log r1 = log r2.

(** The same for two [random.Random] objects, for two latency models and
    for two strategy objects: related states answer alike and are left
    related. *)
Record same_gauss {R1 R2 : Type} `{PyRandom R1} `{PyRandom R2}
  (R : R1 → R2 → Prop) : Prop := {
  sg_seed : ∀ seed, R (Random seed) (Random seed);
  sg_gauss : ∀ mu sigma r1 r2, R r1 r2 →
    fst (gauss mu sigma r1) = fst (gauss mu sigma r2) ∧
    R (snd (gauss mu sigma r1)) (snd (gauss mu sigma r2))
}.

Definition same_latencies {L1 L2 : Type} `{LatencyModel L1}
  `{LatencyModel L2} (R : L1 → L2 → Prop) : Prop :=
  ∀ l1 l2, R l1 l2 →
    fst (next_latency_ms l1) = fst (next_latency_ms l2) ∧
    R (snd (next_latency_ms l1)) (snd (next_latency_ms l2)).

Definition same_orders {T1 T2 : Type} `{Strategy T1} `{Strategy T2}
  (R : T1 → T2 → Prop) : Prop :=
  ∀ t1 t2 engine, R t1 t2 →
    fst (on_market_update t1 engine) = fst (on_market_update t2 engine) ∧
    R (snd (on_market_update t1 engine)) (snd (on_market_update t2 engine)).

(** Two schedulers, each with its own latency model and its own strategy
    object, in the same state up to [RL] and [RT]. *)
Definition alike {L1 L2 T1 T2 : Type} (RL : L1 → L2 → Prop)
  (RT : T1 → T2 → Prop) (r1 : SimulationRunner L1 T1)
  (r2 : SimulationRunner L2 T2) : Prop :=
  engine r1 = engine r2 ∧ RL (latency r1) (latency r2) ∧
  RT (strategy r1) (strategy r2) ∧ events r1 = events r2 ∧
  current_time r1 = current_time r2 ∧
  market_stream r1 = market_stream r2 ∧ log r1 = log r2.

(** The latency simulators of [network.py] and of [simulation.py] over
    two generators: same configuration, related generators. *)
Definition network_alike {G1 G2 : Type} (R : G1 → G2 → Prop)
  (l1 : Network.LatencySimulator G1) (l2 : Network.LatencySimulator G2)
  : Prop :=
  Network.config l1 = Network.config l2 ∧ R (Network.rng l1) (Network.rng l2).

Definition simulator_alike {R1 R2 : Type} (R : R1 → R2 → Prop)
  (l1 : LatencySimulator R1) (l2 : LatencySimulator R2) : Prop :=
  config l1 = config l2 ∧ R (random l1) (random l2).

#[global] Instance counting_PyRandom : PyRandom nat := {
  Random seed := Z.to_nat seed;
  gauss mu sigma g := (mu, S g)
}.

Definition colo_config : NetworkConfig :=
  mkNetworkConfig "Colo" 0.5 0x1.999999999999ap-4 0.

(** The latency model that has lost every packet: each sample is the
    drop result of [src/src/network.py]. *)
Definition dropped_model : LatencyModel unit :=
  {| next_latency_ms := fun _ => ((-1.0)%float, tt) |}.

Definition lossy_run {G : Type} `{Network.Generator G} (seed : Z)
  : outcome (SimulationRunner (Network.LatencySimulator G) SimpleMarketMaker)
  := run (SimulationRunner_init MarketDataReplayer_init MatchingEngine_init
            (Network.LatencySimulator_init Network.lossy_config seed)
            SimpleMarketMaker_init).

Definition dropped_run : outcome (SimulationRunner unit SimpleMarketMaker) :=
  @run unit SimpleMarketMaker dropped_model _
    (@SimulationRunner_init unit SimpleMarketMaker MarketDataReplayer_init
       MatchingEngine_init tt SimpleMarketMaker_init).





Definition pending_orders (h : list SimEvent) : list Order :=
  omap (fun e => match body e with
                 | ORDER_ARRIVAL o => Some o
                 | _ => None
                 end) h.



(** The one order of [SimpleMarketMaker], and where it is: processed, or
    in the event queue, once the strategy has set [sent_order]. *)
Definition maker_order : Order := mkOrder 999 buy 10005 10 0.

Definition maker_inv {L : Type} (r : SimulationRunner L SimpleMarketMaker)
  : Prop :=
  processed_orders (log r) ++ pending_orders (events r)
  ≡ₚ (if sent_order (strategy r) then [maker_order] else []).

(** The scheduler of [__main__], on the counting generator. *)
Definition colo_runner
  : SimulationRunner (LatencySimulator nat) SimpleMarketMaker :=
  SimulationRunner_init MarketDataReplayer_init MatchingEngine_init
    (LatencySimulator_init (R := nat) colo_config 42) SimpleMarketMaker_init.

(** The times at which a run has handled its events, in the order in
    which it has handled them. *)
Definition log_times (l : list LogRecord) : list Z :=
  omap (fun r => match r with
                 | LogMarket t _ | LogArrival t => Some t
                 | _ => None
                 end) l.

(** The discipline of the clock: the event queue is a heap by timestamp,
    nothing in it is earlier than an event already handled, the events
    handled were handled in time order, a market event is queued at its
    own timestamp, and the rest of the stream is in time order and not
    earlier than the market event that is queued. *)
Record clock_inv {L T : Type} (r : SimulationRunner L T) : Prop := {
  ci_heap : Heapq.is_heap sim_timestamp (events r);
  ci_before : ∀ t ev, t ∈ log_times (log r) → ev ∈ events r →
    t ≤ sim_timestamp ev;
  ci_sorted : StronglySorted Z.le (log_times (log r));
  ci_market : ∀ ev m, ev ∈ events r → body ev = MARKET m →
    sim_timestamp ev = ev_timestamp m;
  ci_stream :
    StronglySorted (fun a b => ev_timestamp a ≤ ev_timestamp b)
      (market_stream r);
  ci_next : ∀ ev m evt, ev ∈ events r → body ev = MARKET m →
    evt ∈ market_stream r → ev_timestamp m ≤ ev_timestamp evt
}.

(** A small queue of events in heap order, for worked examples. *)
Definition demo_events : list SimEvent :=
  [ mkSimEvent 1000 (ORDER_ARRIVAL maker_order);
    mkSimEvent 1500 (ORDER_ARRIVAL maker_order);
    mkSimEvent 1200 (ORDER_ARRIVAL maker_order) ].

End Simulation.

(** ** [src/tests/test_determinism.py] *)

Module DeterminismTest.

Record LatencySimulator (G : Type) : Type := mkLatencySimulator {
  rng : G
}.

Arguments mkLatencySimulator {G} rng.
Arguments rng {G} l.

Definition LatencySimulator_init {G : Type} `{Network.Generator G}
  (seed : Z) : LatencySimulator G :=
  mkLatencySimulator (Network.default_rng seed).

Definition next_latency {G : Type} `{Network.Generator G}
  (self : LatencySimulator G) : float * LatencySimulator G :=
  let '(x, g) := Network.gamma 2.0%float 0.5%float (rng self) in
  (x, mkLatencySimulator g).

Record MockSimulation (G : Type) : Type := mkMockSimulation {
  latency_sim : LatencySimulator G;
  execution_log : list float
}.

Arguments mkMockSimulation {G} latency_sim execution_log.
Arguments latency_sim {G} m.
Arguments execution_log {G} m.

Definition MockSimulation_init {G : Type} `{Network.Generator G}
  (seed : Z) : MockSimulation G :=
  mkMockSimulation (LatencySimulator_init seed) [].

(** The [for] loop of [run], from the simulation and [current_time]. *)
Fixpoint run_loop {G : Type} `{Network.Generator G} (iterations : nat)
  (self : MockSimulation G) (current_time : float) : MockSimulation G :=
  match iterations with
  | O => self
  | S n =>
      let '(delay, sim) := next_latency (latency_sim self) in
      let current_time := (current_time + delay)%float in
      run_loop n
        (mkMockSimulation sim (execution_log self ++ [current_time]))
        current_time
  end.

(** [run(iterations)]: the log returned, and the simulation after. *)
Definition run {G : Type} `{Network.Generator G} (self : MockSimulation G)
  (iterations : nat) : list float * MockSimulation G :=
  let self' := run_loop iterations self 0%float in
  (execution_log self', self').

End DeterminismTest.

(** * Properties *)

(** ** The matching engine *)

Section EngineFacts.
Import Engine.

(** *** The heap of prices and the count of resting orders *)

Lemma heap_price_involutive b p : heap_price b (heap_price b p) = p.
Proof. destruct b; simpl; lia. Qed.

Lemma heap_price_inj b p q : heap_price b p = heap_price b q → p = q.
Proof. destruct b; simpl; lia. Qed.

Lemma elem_of_heappush h x y : y ∈ heappush h x ↔ y = x ∨ y ∈ h.
Proof.
  induction h as [|z h IH]; simpl.
  - rewrite list_elem_of_singleton, elem_of_nil. tauto.
  - destruct (x <=? z); rewrite !elem_of_cons; [tauto|].
    rewrite IH. tauto.
Qed.

Lemma heappush_sorted h x :
  StronglySorted Z.lt h → x ∉ h → StronglySorted Z.lt (heappush h x).
Proof.
  induction h as [|z h IH]; simpl; intros Hs Hx.
  - repeat constructor.
  - apply StronglySorted_cons in Hs as [Hz Hs].
    apply not_elem_of_cons in Hx as [Hne Hx].
    destruct (Z.leb_spec x z).
    + apply StronglySorted_cons. split.
      * constructor; [lia|]. eapply Forall_impl; [exact Hz|]. simpl. lia.
      * apply StronglySorted_cons. auto.
    + apply StronglySorted_cons. split; [|auto].
      apply Forall_forall. intros y Hy.
      apply elem_of_heappush in Hy as [->|Hy]; [lia|].
      rewrite Forall_forall in Hz. auto.
Qed.

Lemma resting_count_delete (lv : gmap Z (list ref)) p q :
  lv !! p = Some q →
  resting_count lv = (length q + resting_count (delete p lv))%nat.
Proof.
  intros H. unfold resting_count.
  apply (map_fold_delete_L (fun _ (q : list ref) n => (length q + n)%nat));
    [intros; lia | done].
Qed.

Lemma resting_count_insert (lv : gmap Z (list ref)) p q q' :
  lv !! p = Some q →
  (resting_count (<[p := q']> lv) + length q
   = resting_count lv + length q')%nat.
Proof.
  intros H. rewrite (resting_count_delete lv p q H).
  rewrite (resting_count_delete (<[p := q']> lv) p q')
    by apply lookup_insert_eq.
  rewrite delete_insert_eq. lia.
Qed.

(** *** One trade *)

Lemma fill_open o q : open_qty (fill o q) = open_qty o - q.
Proof. unfold fill, restatus, open_qty. simpl. lia. Qed.

Lemma fill_static o q :
  id (fill o q) = id o ∧ side (fill o q) = side o ∧
  price (fill o q) = price o ∧ qty (fill o q) = qty o ∧
  timestamp (fill o q) = timestamp o.
Proof. repeat split. Qed.

Lemma deref_Some l r o : l !! r = Some o → deref l r = Returns o.
Proof. unfold deref. by intros ->. Qed.

Lemma update_Some l r o f :
  l !! r = Some o → update l r f = Returns (<[r := f o]> l).
Proof. intros H. unfold update. by rewrite (deref_Some _ _ _ H). Qed.

Lemma execute_trade_eq e m t om ot q p :
  objs e !! m = Some om → objs e !! t = Some ot → m ≠ t →
  _execute_trade e m t q p =
    Returns (mkEngine (<[t := fill ot q]> (<[m := fill om q]> (objs e)))
               (bids e) (asks e)
               (trades e ++ [mkTrade p q (id om) (id ot)])).
Proof.
  intros Hm Ht Hne. unfold _execute_trade.
  pose proof (lookup_lt_Some _ _ _ Hm) as Lm.
  pose proof (lookup_lt_Some _ _ _ Ht) as Lt.
  rewrite (update_Some _ _ _ _ Hm). simpl.
  erewrite update_Some; [|by rewrite list_lookup_insert_ne]. simpl.
  erewrite update_Some;
    [|rewrite list_lookup_insert_ne by done;
      apply list_lookup_insert_eq; lia]. simpl.
  erewrite update_Some;
    [|rewrite list_lookup_insert_ne by done;
      apply list_lookup_insert_eq; rewrite length_insert; lia]. simpl.
  set (l4 := <[t := _]> _).
  assert (E : l4 = <[t := fill ot q]> (<[m := fill om q]> (objs e))).
  { subst l4. rewrite (list_insert_insert_ne _ m t) by done.
    rewrite list_insert_insert_eq.
    by rewrite list_insert_insert_eq. }
  rewrite E.
  rewrite (deref_Some _ m (fill om q)).
  2:{ rewrite list_lookup_insert_ne by done.
      apply list_lookup_insert_eq; lia. }
  simpl.
  rewrite (deref_Some _ t (fill ot q)).
  2:{ apply list_lookup_insert_eq; rewrite length_insert; lia. }
  reflexivity.
Qed.

(** *** The two sides, by their flag *)

Lemma book_set_book e b s : book (set_book e b s) b = s.
Proof. by destruct b. Qed.

Lemma book_set_book_neg e b s :
  book (set_book e b s) (negb b) = book e (negb b).
Proof. by destruct b. Qed.

Lemma objs_set_book e b s : objs (set_book e b s) = objs e.
Proof. by destruct b. Qed.

Lemma trades_set_book e b s : trades (set_book e b s) = trades e.
Proof. by destruct b. Qed.

Lemma my_is_bid_negb s : my_is_bid s = negb (opposing_is_bid s).
Proof. by destruct s. Qed.

Lemma engine_ok_book e b : engine_ok e → side_ok (objs e) b (book e b).
Proof. intros [? ? ?]. by destruct b. Qed.

Lemma engine_ok_uncrossed e ob po pm :
  engine_ok e →
  is_Some (price_levels (book e ob) !! po) →
  is_Some (price_levels (book e (negb ob)) !! pm) →
  heap_price ob pm < heap_price ob po.
Proof.
  intros [_ _ H] Ho Hm. destruct ob; simpl in *.
  - specialize (H _ _ Ho Hm). lia.
  - by apply H.
Qed.

Lemma engine_ok_of ob e :
  side_ok (objs e) ob (book e ob) →
  side_ok (objs e) (negb ob) (book e (negb ob)) →
  (∀ po pm, is_Some (price_levels (book e ob) !! po) →
            is_Some (price_levels (book e (negb ob)) !! pm) →
            heap_price ob pm < heap_price ob po) →
  engine_ok e.
Proof.
  intros Ho Hm Hx. destruct ob; simpl in *; constructor; try done.
  - intros pb pa Hb Ha. specialize (Hx _ _ Hb Ha). lia.
  - intros pb pa Hb Ha. by apply Hx.
Qed.

(** *** One pass of the matching loop *)

Lemma best_price_Some s b bp :
  is_bid s = b → best_price s = Some bp →
  ∃ h, price_heap s = heap_price b bp :: h.
Proof.
  unfold best_price. intros <-. destruct (price_heap s) as [|x h]; [done|].
  intros [= <-]. exists h. f_equal. destruct (is_bid s); simpl; lia.
Qed.

Lemma best_price_None s : best_price s = None → price_heap s = [].
Proof. unfold best_price. by destruct (price_heap s). Qed.

Lemma match_step_eq e t ot bp m rest om :
  objs e !! t = Some ot → 0 < open_qty ot →
  best_price (book e (opposing_is_bid (side ot))) = Some bp →
  is_match ot bp = true →
  price_levels (book e (opposing_is_bid (side ot))) !! bp
    = Some (m :: rest) →
  objs e !! m = Some om → m ≠ t →
  match_step t e =
    Returns (Some
      (let e1 := traded e m t om ot bp in
       if open_qty om - Z.min (open_qty ot) (open_qty om) =? 0 then
         let ob := opposing_is_bid (side ot) in
         set_book e1 ob (remove_filled_levels (popleft (book e1 ob) bp rest))
       else e1)).
Proof.
  intros Ht Hpos Hbest Hmatch Hlv Hm Hne. unfold match_step.
  rewrite (deref_Some _ _ _ Ht). simpl.
  destruct (Z.ltb_spec 0 (open_qty ot)); [|lia].
  rewrite Hbest, Hmatch. unfold level. rewrite Hlv. simpl.
  rewrite (deref_Some _ _ _ Hm). simpl.
  rewrite (execute_trade_eq e m t om ot _ bp Hm Ht Hne). simpl.
  pose proof (lookup_lt_Some _ _ _ Hm) as Lm.
  rewrite (deref_Some _ m (fill om (Z.min (open_qty ot) (open_qty om)))).
  2:{ rewrite list_lookup_insert_ne by done.
      apply list_lookup_insert_eq; lia. }
  simpl. rewrite fill_open. unfold traded, popleft.
  by destruct (_ =? 0).
Qed.

Lemma match_step_break e t ot :
  objs e !! t = Some ot →
  (open_qty ot ≤ 0 ∨
   best_price (book e (opposing_is_bid (side ot))) = None ∨
   ∃ bp, best_price (book e (opposing_is_bid (side ot))) = Some bp ∧
         is_match ot bp = false) →
  match_step t e = Returns None.
Proof.
  intros Ht H. unfold match_step. rewrite (deref_Some _ _ _ Ht). simpl.
  destruct (Z.ltb_spec 0 (open_qty ot)); [|done].
  destruct H as [H|[H|(bp & H & Hm)]]; [lia| |]; rewrite H; [done|].
  by rewrite Hm.
Qed.

(** *** The invariant under a trade and under the removal of a level *)

Lemma side_ok_store l l' b s :
  side_ok l b s →
  (∀ r o, l !! r = Some o →
     ∃ o', l' !! r = Some o' ∧ id o' = id o ∧ side o' = side o ∧
           price o' = price o) →
  (∀ p q r o', price_levels s !! p = Some q → r ∈ q →
     l' !! r = Some o' → 0 < open_qty o') →
  side_ok l' b s.
Proof.
  intros [F S H Q R O] Hst Hpos. constructor; try done.
  - intros p q r Hq Hr. destruct (R p q r Hq Hr) as (o & Ho & Hp & Hs & _).
    destruct (Hst r o Ho) as (o' & Ho' & _ & Hs' & Hp').
    exists o'. split; [done|]. split; [congruence|]. split; [congruence|].
    by eapply Hpos.
  - intros i r Hi. destruct (O i r Hi) as (o & Ho & Hid).
    destruct (Hst r o Ho) as (o' & Ho' & Hid' & _).
    exists o'. split; [done|congruence].
Qed.

Lemma traded_lookup (l : list Order) m t om ot q r :
  l !! m = Some om → l !! t = Some ot → m ≠ t →
  <[t := fill ot q]> (<[m := fill om q]> l) !! r =
    if decide (r = t) then Some (fill ot q)
    else if decide (r = m) then Some (fill om q) else l !! r.
Proof.
  intros Hm Ht Hne.
  pose proof (lookup_lt_Some _ _ _ Hm). pose proof (lookup_lt_Some _ _ _ Ht).
  destruct (decide (r = t)) as [->|].
  { apply list_lookup_insert_eq. rewrite length_insert. lia. }
  rewrite list_lookup_insert_ne by done.
  destruct (decide (r = m)) as [->|].
  { apply list_lookup_insert_eq. lia. }
  by rewrite list_lookup_insert_ne.
Qed.

Lemma traded_stable (l : list Order) m t om ot q r o :
  l !! m = Some om → l !! t = Some ot → m ≠ t →
  l !! r = Some o →
  ∃ o', <[t := fill ot q]> (<[m := fill om q]> l) !! r = Some o' ∧
        id o' = id o ∧ side o' = side o ∧ price o' = price o.
Proof.
  intros Hm Ht Hne Hr. rewrite (traded_lookup l m t om ot q r Hm Ht Hne).
  repeat case_decide; simplify_eq; eauto.
Qed.

Lemma pop_level l b s bp m rest :
  side_ok l b s → best_price s = Some bp →
  price_levels s !! bp = Some (m :: rest) →
  remove_filled_levels (popleft s bp rest) =
    match rest with
    | [] => mkSide (is_bid s) (tail (price_heap s))
              (delete bp (price_levels s)) (orders s)
    | _ => popleft s bp rest
    end.
Proof.
  intros [F S H Q R O] Hb Hlv.
  destruct (best_price_Some _ _ _ F Hb) as [h Hh].
  unfold remove_filled_levels, popleft. simpl. rewrite Hh. simpl.
  assert (E : (if is_bid s then - heap_price b bp else heap_price b bp) = bp).
  { rewrite F. apply (heap_price_involutive b bp). }
  rewrite E, lookup_insert_eq.
  destruct rest as [|r rest]; [|done].
  rewrite delete_insert_eq.
  destruct h as [|y h]; [done|]. simpl.
  assert (Hy : is_Some (price_levels s !! heap_price b y)).
  { apply H. rewrite heap_price_involutive, Hh, !elem_of_cons. tauto. }
  assert (Hne : heap_price b y ≠ bp).
  { intros <-. rewrite heap_price_involutive in Hh. rewrite Hh in S.
    apply StronglySorted_cons in S as [S _].
    apply Forall_cons in S as [S _]. lia. }
  rewrite F. fold (heap_price b y).
  rewrite lookup_delete_ne by done.
  destruct Hy as [q Hq]. rewrite Hq.
  destruct (Q _ _ Hq) as [Hq' _]. by destruct q.
Qed.

Lemma popleft_side_ok l l' b s bp m rest :
  side_ok l b s → best_price s = Some bp →
  price_levels s !! bp = Some (m :: rest) →
  (∀ r o, l !! r = Some o →
     ∃ o', l' !! r = Some o' ∧ id o' = id o ∧ side o' = side o ∧
           price o' = price o) →
  (∀ p q r, price_levels s !! p = Some q → r ∈ q → r ≠ m →
     l' !! r = l !! r) →
  side_ok l' b (remove_filled_levels (popleft s bp rest)).
Proof.
  intros Hs Hb Hlv Hst Hsame.
  rewrite (pop_level l b s bp m rest Hs Hb Hlv).
  destruct Hs as [F S H Q R O].
  destruct (best_price_Some _ _ _ F Hb) as [h Hh].
  destruct (Q _ _ Hlv) as [_ Hnd]. apply NoDup_cons in Hnd as [Hm Hnd].
  assert (Hkeep : ∀ p q r, price_levels s !! p = Some q → r ∈ q → r ≠ m →
            ∃ o, l' !! r = Some o ∧ price o = p ∧ side o = side_of b ∧
                 0 < open_qty o).
  { intros p q r Hq Hr Hne. rewrite (Hsame p q r Hq Hr Hne). eauto. }
  assert (Hord : ∀ i r, orders s !! i = Some r →
            ∃ o, l' !! r = Some o ∧ id o = i).
  { intros i r Hi. destruct (O i r Hi) as (o & Ho & Hid).
    destruct (Hst r o Ho) as (o' & Ho' & Hid' & _).
    exists o'. split; [done|congruence]. }
  destruct rest as [|r0 rest].
  - constructor; simpl; try done.
    + rewrite Hh in S |- *. simpl.
      apply StronglySorted_cons in S as [_ S]. exact S.
    + intros p. rewrite Hh. simpl.
      rewrite Hh in S. apply StronglySorted_cons in S as [S _].
      rewrite Forall_forall in S.
      destruct (decide (p = bp)) as [->|Hne].
      * rewrite lookup_delete_eq. split.
        -- intros Hin. specialize (S _ Hin). lia.
        -- by intros [? ?].
      * rewrite lookup_delete_ne by done. rewrite <- H, Hh.
        rewrite elem_of_cons. split; [tauto|].
        intros [E|?]; [|done]. by apply heap_price_inj in E.
    + intros p q. rewrite lookup_delete_Some. intros [_ Hq]. eauto.
    + intros p q r. rewrite lookup_delete_Some. intros [Hne Hq] Hr.
      apply (Hkeep p q r Hq Hr). intros ->.
      destruct (R _ _ _ Hq Hr) as (o & Ho & Hp & _).
      destruct (R _ _ m Hlv ltac:(by left)) as (o2 & Ho2 & Hp2 & _).
      congruence.
  - constructor; simpl; try done.
    + intros p. rewrite H. destruct (decide (p = bp)) as [->|Hne].
      * rewrite lookup_insert_eq, Hlv. split; eauto.
      * by rewrite lookup_insert_ne.
    + intros p q. destruct (decide (p = bp)) as [->|Hne].
      * rewrite lookup_insert_eq. by intros [= <-].
      * rewrite lookup_insert_ne by done. eauto.
    + intros p q r. destruct (decide (p = bp)) as [->|Hne].
      * rewrite lookup_insert_eq. intros [= <-] Hr.
        apply (Hkeep bp (m :: r0 :: rest) r Hlv); [by right|].
        intros ->. done.
      * rewrite lookup_insert_ne by done. intros Hq Hr.
        apply (Hkeep p q r Hq Hr). intros ->.
        destruct (R _ _ _ Hq Hr) as (o & Ho & Hp & _).
        destruct (R _ _ m Hlv ltac:(by left)) as (o2 & Ho2 & Hp2 & _).
        congruence.
Qed.

Lemma popleft_levels l b s bp m rest p :
  side_ok l b s → best_price s = Some bp →
  price_levels s !! bp = Some (m :: rest) →
  is_Some (price_levels (remove_filled_levels (popleft s bp rest)) !! p) →
  is_Some (price_levels s !! p).
Proof.
  intros Hs Hb Hlv. rewrite (pop_level l b s bp m rest Hs Hb Hlv).
  destruct rest; simpl.
  - rewrite lookup_delete_is_Some. by intros [_ ?].
  - destruct (decide (p = bp)) as [->|Hne]; [by rewrite Hlv|].
    by rewrite lookup_insert_ne.
Qed.

Lemma popleft_queue l b s bp m rest p q :
  side_ok l b s → best_price s = Some bp →
  price_levels s !! bp = Some (m :: rest) →
  price_levels (remove_filled_levels (popleft s bp rest)) !! p = Some q →
  (p = bp ∧ q = rest) ∨ (p ≠ bp ∧ price_levels s !! p = Some q).
Proof.
  intros Hs Hb Hlv. rewrite (pop_level l b s bp m rest Hs Hb Hlv).
  destruct rest; simpl.
  - rewrite lookup_delete_Some. intros [? ?]. right. split; [congruence|done].
  - destruct (decide (p = bp)) as [->|Hne].
    + rewrite lookup_insert_eq. intros [= <-]. by left.
    + rewrite lookup_insert_ne by done. by right.
Qed.

Lemma popleft_count l b s bp m rest :
  side_ok l b s → best_price s = Some bp →
  price_levels s !! bp = Some (m :: rest) →
  S (resting_count
       (price_levels (remove_filled_levels (popleft s bp rest))))
  = resting_count (price_levels s).
Proof.
  intros Hs Hb Hlv. rewrite (pop_level l b s bp m rest Hs Hb Hlv).
  destruct rest as [|r rest]; simpl.
  - rewrite (resting_count_delete _ _ _ Hlv). done.
  - pose proof (resting_count_insert _ _ _ (r :: rest) Hlv) as E.
    simpl in E. lia.
Qed.

Lemma match_step_cases e t ot :
  engine_ok e → objs e !! t = Some ot → not_resting e t →
  (exit_cond e ot ∧ match_step t e = Returns None) ∨
  (∃ bp m rest om, trade_ctx e t ot bp m rest om ∧
     match_step t e = Returns (Some (next_state e t ot bp m rest om))).
Proof.
  intros Hok Ht Hfree.
  destruct (Z.le_gt_cases (open_qty ot) 0) as [Hle|Hgt].
  { left. split; [by left|]. apply (match_step_break e t ot Ht). by left. }
  destruct (best_price (book e (opposing_is_bid (side ot)))) as [bp|] eqn:Hb.
  2:{ left. split; [right; by left|].
      apply (match_step_break e t ot Ht). right. by left. }
  destruct (is_match ot bp) eqn:Hm.
  2:{ left. split; [right; right; eauto|].
      apply (match_step_break e t ot Ht). right. right. eauto. }
  right.
  pose proof (engine_ok_book e (opposing_is_bid (side ot)) Hok) as Hs.
  destruct (best_price_Some _ _ _ (ok_flag _ _ _ Hs) Hb) as [h Hh].
  assert (Hl : is_Some (price_levels (book e (opposing_is_bid (side ot)))
                          !! bp)).
  { apply (ok_heap _ _ _ Hs). rewrite Hh. by left. }
  destruct Hl as [q Hq].
  destruct (ok_queue _ _ _ Hs _ _ Hq) as [Hne _].
  destruct q as [|m rest]; [done|].
  destruct (ok_resting _ _ _ Hs _ _ m Hq ltac:(by left))
    as (om & Hom & Hp & Hsd & Hpos).
  assert (m ≠ t).
  { intros ->. apply (Hfree _ _ _ Hq). by left. }
  exists bp, m, rest, om. split; [by constructor; try lia|].
  apply match_step_eq; auto; lia.
Qed.

Lemma side_of_negb b : side_of (negb b) ≠ side_of b.
Proof. by destruct b. Qed.

Lemma objs_next_state e t ot bp m rest om :
  objs (next_state e t ot bp m rest om) =
    <[t := fill ot (Z.min (open_qty ot) (open_qty om))]>
      (<[m := fill om (Z.min (open_qty ot) (open_qty om))]> (objs e)).
Proof.
  unfold next_state. destruct (_ =? 0); [|done]. by rewrite objs_set_book.
Qed.

Lemma trades_next_state e t ot bp m rest om :
  trades (next_state e t ot bp m rest om) =
    trades e ++ [mkTrade bp (Z.min (open_qty ot) (open_qty om))
                   (id om) (id ot)].
Proof.
  unfold next_state. destruct (_ =? 0); [|done]. by rewrite trades_set_book.
Qed.

Lemma book_traded e m t om ot bp b :
  book (traded e m t om ot bp) b = book e b.
Proof. by destruct b. Qed.

Lemma book_next_state_own e t ot bp m rest om :
  book (next_state e t ot bp m rest om) (negb (opposing_is_bid (side ot)))
  = book e (negb (opposing_is_bid (side ot))).
Proof.
  unfold next_state. destruct (_ =? 0).
  - by rewrite book_set_book_neg, book_traded.
  - by rewrite book_traded.
Qed.

Lemma book_next_state_opp e t ot bp m rest om :
  book (next_state e t ot bp m rest om) (opposing_is_bid (side ot)) =
    if open_qty om - Z.min (open_qty ot) (open_qty om) =? 0 then
      remove_filled_levels
        (popleft (book e (opposing_is_bid (side ot))) bp rest)
    else book e (opposing_is_bid (side ot)).
Proof.
  unfold next_state. destruct (_ =? 0).
  - by rewrite book_set_book, book_traded.
  - by rewrite book_traded.
Qed.

(** Queues after a pass are queues before it, or the tail of the best one. *)
Lemma next_state_queue e t ot bp m rest om b p q :
  trade_ctx e t ot bp m rest om →
  price_levels (book (next_state e t ot bp m rest om) b) !! p = Some q →
  price_levels (book e b) !! p = Some q ∨
  (b = opposing_is_bid (side ot) ∧ p = bp ∧ q = rest ∧
   open_qty om ≤ open_qty ot).
Proof.
  intros C.
  destruct (decide (b = opposing_is_bid (side ot))) as [->|Hb].
  - rewrite book_next_state_opp.
    destruct (Z.eqb_spec (open_qty om - Z.min (open_qty ot) (open_qty om)) 0)
      as [E|E]; [|by left].
    intros Hq.
    destruct (popleft_queue _ _ _ _ _ _ _ _
      (engine_ok_book e _ (tc_ok _ _ _ _ _ _ _ C))
      (tc_best _ _ _ _ _ _ _ C) (tc_level _ _ _ _ _ _ _ C) Hq)
      as [[-> ->]|[_ ?]]; [|by left].
    right. repeat split; lia.
  - assert (b = negb (opposing_is_bid (side ot))) as ->
      by (destruct b, (opposing_is_bid (side ot)); done).
    rewrite book_next_state_own. by left.
Qed.

Lemma next_state_ok e t ot bp m rest om :
  trade_ctx e t ot bp m rest om →
  engine_ok (next_state e t ot bp m rest om) ∧
  not_resting (next_state e t ot bp m rest om) t.
Proof.
  intros C. pose proof C as [Hok Ht Hfree Hopen Hbest Hmatch Hlv Hm Hne
                               Hmo Hmp Hms].
  set (ob := opposing_is_bid (side ot)) in *.
  set (q := Z.min (open_qty ot) (open_qty om)).
  pose proof (engine_ok_book e ob Hok) as Hso.
  pose proof (engine_ok_book e (negb ob) Hok) as Hsm.
  assert (Hst : ∀ r o, objs e !! r = Some o →
    ∃ o', objs (next_state e t ot bp m rest om) !! r = Some o' ∧
          id o' = id o ∧ side o' = side o ∧ price o' = price o).
  { intros r o Hr. rewrite objs_next_state.
    by apply traded_stable. }
  assert (Hsame : ∀ b p qu r, price_levels (book e b) !! p = Some qu →
    r ∈ qu → r ≠ m →
    objs (next_state e t ot bp m rest om) !! r = objs e !! r).
  { intros b p qu r Hq Hr Hrm. rewrite objs_next_state.
    rewrite (traded_lookup _ m t om ot _ r Hm Ht Hne).
    rewrite decide_False; [by rewrite decide_False|].
    intros ->. by apply (Hfree _ _ _ Hq). }
  split.
  - apply (engine_ok_of ob).
    + rewrite book_next_state_opp. fold ob q.
      destruct (Z.eqb_spec (open_qty om - q) 0) as [E|E].
      * eapply popleft_side_ok; eauto.
      * eapply side_ok_store; eauto.
        intros p qu r o' Hq Hr Ho'.
        destruct (decide (r = m)) as [->|Hrm].
        -- rewrite objs_next_state in Ho'.
           rewrite (traded_lookup _ m t om ot _ m Hm Ht Hne) in Ho'.
           rewrite decide_False, decide_True in Ho' by done.
           injection Ho' as <-. rewrite fill_open. fold q. lia.
        -- rewrite (Hsame _ _ _ _ Hq Hr Hrm) in Ho'.
           destruct (ok_resting _ _ _ Hso _ _ _ Hq Hr) as (o & Ho & _ & _ & ?).
           congruence.
    + unfold ob. rewrite book_next_state_own. fold ob.
      eapply side_ok_store; eauto.
      intros p qu r o' Hq Hr Ho'.
      destruct (ok_resting _ _ _ Hsm _ _ _ Hq Hr) as (o & Ho & _ & Hsd & ?).
      rewrite (Hsame _ _ _ _ Hq Hr) in Ho'; [congruence|].
      intros ->. rewrite Hm in Ho. injection Ho as <-.
      rewrite Hms in Hsd. by apply (side_of_negb ob).
    + intros po pm Ho Hpm. unfold ob in Hpm.
      rewrite book_next_state_own in Hpm. fold ob in Hpm.
      apply (engine_ok_uncrossed e ob po pm Hok); [|done].
      rewrite book_next_state_opp in Ho. fold ob q in Ho.
      destruct (_ =? 0); [|done].
      by eapply popleft_levels.
  - intros b p qu Hq Hin.
    destruct (next_state_queue _ _ _ _ _ _ _ _ _ _ C Hq)
      as [Hq'|(_ & _ & -> & _)].
    + by apply (Hfree _ _ _ Hq').
    + apply (Hfree _ _ _ Hlv). by right.
Qed.

(** Progress: a pass removes a resting reference, or fills the taker. *)
Lemma next_state_progress e t ot bp m rest om :
  trade_ctx e t ot bp m rest om →
  (S (resting_count (price_levels
        (book (next_state e t ot bp m rest om) (opposing_is_bid (side ot)))))
   = resting_count (price_levels (book e (opposing_is_bid (side ot)))))
  ∨
  (book (next_state e t ot bp m rest om) (opposing_is_bid (side ot))
   = book e (opposing_is_bid (side ot)) ∧
   (0 < resting_count (price_levels (book e (opposing_is_bid (side ot)))))%nat
   ∧ open_qty (fill ot (Z.min (open_qty ot) (open_qty om))) = 0).
Proof.
  intros C. pose proof C as [Hok Ht Hfree Hopen Hbest Hmatch Hlv Hm Hne
                               Hmo Hmp Hms].
  rewrite book_next_state_opp.
  destruct (Z.eqb_spec (open_qty om - Z.min (open_qty ot) (open_qty om)) 0)
    as [E|E].
  - left. eapply popleft_count; eauto using engine_ok_book.
  - right. split; [done|]. split.
    + rewrite (resting_count_delete _ _ _ Hlv). simpl. lia.
    + rewrite fill_open. lia.
Qed.

(** *** The loop and [process_order] *)

Lemma taker_next_state e t ot bp m rest om :
  trade_ctx e t ot bp m rest om →
  objs (next_state e t ot bp m rest om) !! t
  = Some (fill ot (Z.min (open_qty ot) (open_qty om))).
Proof.
  intros C. rewrite objs_next_state.
  rewrite (traded_lookup _ m t om ot _ t (tc_maker _ _ _ _ _ _ _ C)
             (tc_taker _ _ _ _ _ _ _ C) (tc_ne _ _ _ _ _ _ _ C)).
  by rewrite decide_True.
Qed.

Lemma length_next_state e t ot bp m rest om :
  length (objs (next_state e t ot bp m rest om)) = length (objs e).
Proof. rewrite objs_next_state. by rewrite !length_insert. Qed.

(** The loop returns on the fuel [process_order] gives it, in a state that
    keeps the invariant and in which the [while] test or one of the two
    [break]s holds. *)
Lemma match_loop_returns fuel e t ot :
  engine_ok e → objs e !! t = Some ot → not_resting e t →
  ((resting_count
      (price_levels (book e (opposing_is_bid (side ot)))) < fuel)%nat
   ∨ (open_qty ot ≤ 0 ∧ (0 < fuel)%nat)) →
  ∃ e' ot',
    match_loop fuel t e = Returns e' ∧ match_steps t e e' ∧
    engine_ok e' ∧ not_resting e' t ∧ objs e' !! t = Some ot' ∧
    side ot' = side ot ∧ price ot' = price ot ∧ id ot' = id ot ∧
    exit_cond e' ot' ∧
    book e' (negb (opposing_is_bid (side ot)))
      = book e (negb (opposing_is_bid (side ot))) ∧
    length (objs e') = length (objs e).
Proof.
  revert e ot. induction fuel as [|n IH]; intros e ot Hok Ht Hfree Hfuel.
  { exfalso. destruct Hfuel as [?|[_ ?]]; lia. }
  destruct (match_step_cases e t ot Hok Ht Hfree)
    as [[Hex Hstep]|(bp & m & rest & om & C & Hstep)].
  - exists e, ot. simpl. rewrite Hstep. simpl.
    split_and!; try done; apply steps_refl.
  - simpl. rewrite Hstep. simpl.
    destruct (next_state_ok _ _ _ _ _ _ _ C) as [Hok' Hfree'].
    pose proof (taker_next_state _ _ _ _ _ _ _ C) as Ht'.
    set (q := Z.min (open_qty ot) (open_qty om)) in *.
    set (e1 := next_state e t ot bp m rest om) in *.
    destruct (IH e1 (fill ot q) Hok' Ht' Hfree') as
      (e' & ot' & Hl & Hs & Hok'' & Hfree'' & Ht'' & Hsd & Hp & Hid & Hex
       & Hbk & Hlen).
    { subst e1 q.
      destruct (fill_static ot (Z.min (open_qty ot) (open_qty om)))
        as (_ & -> & _).
      destruct (next_state_progress _ _ _ _ _ _ _ C) as [Hc|(Hb & Hc & Ho)].
      - left. destruct Hfuel as [?|[? _]]; [lia|].
        pose proof (tc_open _ _ _ _ _ _ _ C). lia.
      - right. split; [lia|]. destruct Hfuel as [?|[? _]].
        + lia.
        + pose proof (tc_open _ _ _ _ _ _ _ C). lia. }
    destruct (fill_static ot q) as (Ei & Es & Ep & _).
    exists e', ot'. rewrite Es in Hbk.
    split_and!; try congruence; auto.
    + eapply steps_step; eauto.
    + rewrite Hbk. apply book_next_state_own.
    + rewrite Hlen. apply length_next_state.
Qed.

Lemma side_of_my_is_bid s : side_of (my_is_bid s) = s.
Proof. by destruct s. Qed.

Lemma add_side_ok l b s t ot :
  side_ok l b s → l !! t = Some ot → side ot = side_of b →
  0 < open_qty ot →
  (∀ p q, price_levels s !! p = Some q → t ∉ q) →
  ∃ s', add s l t = Returns s' ∧ side_ok l b s' ∧
    ∀ p, is_Some (price_levels s' !! p) ↔
         p = price ot ∨ is_Some (price_levels s !! p).
Proof.
  intros [F S H Q R O] Ht Hsd Hpos Hfree. unfold add.
  rewrite (deref_Some _ _ _ Ht). simpl. eexists. split; [done|].
  split; [constructor; simpl|].
  - done.
  - destruct (price_levels s !! price ot) eqn:E; [done|].
    apply heappush_sorted; [done|]. rewrite F, H, E. by intros [? ?].
  - intros p. rewrite F.
    destruct (decide (p = price ot)) as [->|Hne].
    + rewrite lookup_insert_eq.
      destruct (price_levels s !! price ot) eqn:E.
      * rewrite H, E. split; eauto.
      * rewrite elem_of_heappush. split; eauto.
    + rewrite lookup_insert_ne by done.
      destruct (price_levels s !! price ot) eqn:E; [apply H|].
      rewrite elem_of_heappush, H. split; [|tauto].
      intros [E'|?]; [|done]. by apply heap_price_inj in E'.
  - intros p q. destruct (decide (p = price ot)) as [->|Hne].
    + rewrite lookup_insert_eq. intros [= <-]. split.
      * by destruct (level _ _).
      * unfold level. destruct (price_levels s !! price ot) as [q|] eqn:E;
          simpl; [|apply NoDup_singleton].
        apply NoDup_app. split; [by apply (Q _ _ E)|].
        split; [|apply NoDup_singleton].
        intros x Hx. rewrite list_elem_of_singleton. intros ->.
        by apply (Hfree _ _ E).
    + rewrite lookup_insert_ne by done. apply Q.
  - intros p q r. destruct (decide (p = price ot)) as [->|Hne].
    + rewrite lookup_insert_eq. intros [= <-].
      unfold level. rewrite elem_of_app, list_elem_of_singleton.
      intros [Hr| ->]; [|eauto].
      destruct (price_levels s !! price ot) as [q|] eqn:E; simpl in Hr.
      * eauto.
      * by apply elem_of_nil in Hr.
    + rewrite lookup_insert_ne by done. apply R.
  - intros i r. destruct (decide (i = id ot)) as [->|Hne].
    + rewrite lookup_insert_eq. intros [= <-]. eauto.
    + rewrite lookup_insert_ne by done. apply O.
  - intros p. destruct (decide (p = price ot)) as [->|Hne]; simpl.
    + rewrite lookup_insert_eq. split; eauto.
    + rewrite lookup_insert_ne by done. split; [tauto|].
      intros [?|?]; done.
Qed.

Lemma book_set_objs e l b : book (set_objs e l) b = book e b.
Proof. by destruct b. Qed.

Lemma alloc_ok e o :
  engine_ok e →
  engine_ok (set_objs e (objs e ++ [o])) ∧
  not_resting (set_objs e (objs e ++ [o])) (length (objs e)) ∧
  objs (set_objs e (objs e ++ [o])) !! length (objs e) = Some o.
Proof.
  intros Hok.
  assert (Hst : ∀ r o', objs e !! r = Some o' →
            (objs e ++ [o]) !! r = Some o').
  { intros r o' Hr. by apply lookup_app_l_Some. }
  assert (Hside : ∀ b, side_ok (objs e ++ [o]) b (book e b)).
  { intros b. pose proof (engine_ok_book e b Hok) as Hs.
    eapply side_ok_store; [exact Hs| |].
    - intros r o' Hr. exists o'. eauto.
    - intros p q r o' Hq Hr Ho'.
      destruct (ok_resting _ _ _ Hs _ _ _ Hq Hr) as (o2 & Ho2 & _ & _ & ?).
      rewrite (Hst _ _ Ho2) in Ho'. congruence. }
  split; [|split].
  - constructor; simpl.
    + apply (Hside true).
    + apply (Hside false).
    + apply (ok_uncrossed _ Hok).
  - intros b p q. rewrite book_set_objs. intros Hq Hin.
    destruct (ok_resting _ _ _ (engine_ok_book e b Hok) _ _ _ Hq Hin)
      as (o2 & Ho2 & _).
    apply lookup_lt_Some in Ho2. lia.
  - simpl. by rewrite lookup_app_r, Nat.sub_diag.
Qed.

Lemma heap_head_least s x h p :
  StronglySorted Z.lt (price_heap s) → price_heap s = x :: h →
  p ∈ price_heap s → x ≤ p.
Proof.
  intros S E. rewrite E in S |- *. apply StronglySorted_cons in S as [S _].
  rewrite Forall_forall in S. rewrite elem_of_cons.
  intros [->|Hp]; [lia|]. specialize (S _ Hp). lia.
Qed.

Lemma is_match_heap_price o bp :
  is_match o bp = true ↔
  heap_price (opposing_is_bid (side o)) bp
  ≤ heap_price (opposing_is_bid (side o)) (price o).
Proof.
  unfold is_match. destruct (side o); simpl; rewrite Z.leb_le; lia.
Qed.

(** When the loop is left with open quantity, the taker's limit is
    strictly on its own side of every opposing price. *)
Lemma exit_cond_uncrossed e ot po :
  engine_ok e → exit_cond e ot → 0 < open_qty ot →
  is_Some (price_levels (book e (opposing_is_bid (side ot))) !! po) →
  heap_price (opposing_is_bid (side ot)) (price ot)
  < heap_price (opposing_is_bid (side ot)) po.
Proof.
  intros Hok Hex Hpos Hpo. unfold exit_cond in Hex.
  set (ob := opposing_is_bid (side ot)) in *.
  pose proof (engine_ok_book e ob Hok) as Hs.
  apply (ok_heap _ _ _ Hs) in Hpo.
  destruct Hex as [?|[Hn|(bp & Hb & Hm)]]; [lia| |].
  - apply best_price_None in Hn. rewrite Hn in Hpo.
    by apply elem_of_nil in Hpo.
  - destruct (best_price_Some _ _ _ (ok_flag _ _ _ Hs) Hb) as [h Hh].
    pose proof (heap_head_least _ _ _ _ (ok_sorted _ _ _ Hs) Hh Hpo).
    assert (¬ heap_price ob bp ≤ heap_price ob (price ot)).
    { intros Hle. apply (is_match_heap_price ot bp) in Hle. congruence. }
    lia.
Qed.

Lemma bind_Returns {A B : Type} (a : A) (f : A → outcome B) :
  Returns a ≫= f = f a.
Proof. reflexivity. Qed.

Lemma process_order_returns e o :
  engine_ok e →
  ∃ e' r, process_order e o = Returns (e', r) ∧ engine_ok e'.
Proof.
  intros Hok. destruct (alloc_ok e o Hok) as (Hok0 & Hfree0 & Ht0).
  unfold process_order, process_order_at.
  set (e0 := set_objs e (objs e ++ [o])) in *.
  set (t := length (objs e)) in *.
  rewrite (deref_Some _ _ _ Ht0), bind_Returns. cbv beta zeta.
  destruct (match_loop_returns
              (S (resting_count
                    (price_levels (book e0 (opposing_is_bid (side o))))))
              e0 t o Hok0 Ht0 Hfree0 ltac:(left; lia))
    as (e1 & ot & Hl & _ & Hok1 & Hfree1 & Ht1 & Hsd & Hp & Hid & Hex
        & Hbk & Hlen).
  rewrite Hl, bind_Returns, (deref_Some _ _ _ Ht1), bind_Returns.
  destruct (Z.ltb_spec 0 (open_qty ot)) as [Hpos|Hnpos].
  2:{ eauto. }
  rewrite my_is_bid_negb.
  set (ob := opposing_is_bid (side o)) in *.
  destruct (add_side_ok (objs e1) (negb ob) (book e1 (negb ob)) t ot)
    as (s' & Hadd & Hs' & Hdom); auto using engine_ok_book.
  { rewrite Hsd. subst ob. rewrite <- my_is_bid_negb.
    by rewrite side_of_my_is_bid. }
  { intros p q. apply Hfree1. }
  rewrite Hadd, bind_Returns. eexists _, _. split; [done|].
  apply (engine_ok_of ob).
  - rewrite objs_set_book.
    replace (book (set_book e1 (negb ob) s') ob) with (book e1 ob)
      by (by destruct ob).
    by apply engine_ok_book.
  - by rewrite objs_set_book, book_set_book.
  - intros po pm. rewrite book_set_book.
    replace (book (set_book e1 (negb ob) s') ob) with (book e1 ob)
      by (by destruct ob).
    intros Hpo Hpm. apply Hdom in Hpm as [->|Hpm].
    + subst ob. rewrite <- Hsd in Hpo |- *.
      by apply (exit_cond_uncrossed e1).
    + by apply (engine_ok_uncrossed e1 ob).
Qed.

Lemma engine_ok_init : engine_ok MatchingEngine_init.
Proof.
  assert (∀ b, side_ok [] b (OrderBookSide_init b)).
  { intros b. constructor; simpl; try done.
    - constructor.
    - intros p. rewrite lookup_empty, elem_of_nil. split; [done|].
      by intros [? ?]. }
  constructor; simpl; auto.
  intros pb pa. rewrite lookup_empty. by intros [? ?].
Qed.

Lemma reachable_ok e : reachable e → engine_ok e.
Proof.
  induction 1 as [|e o e' r _ IH Hp]; [apply engine_ok_init|].
  destruct (process_order_returns e o IH) as (e2 & r2 & Hp2 & Hok).
  congruence.
Qed.

Lemma best_price_level l b s bp :
  side_ok l b s → best_price s = Some bp →
  is_Some (price_levels s !! bp).
Proof.
  intros Hs Hb. destruct (best_price_Some _ _ _ (ok_flag _ _ _ Hs) Hb)
    as [h Hh].
  apply (ok_heap _ _ _ Hs). rewrite Hh. by left.
Qed.


(** The numeric facts of a trading pass, for [lia]. *)
Ltac trade_facts C :=
  pose proof (tc_open _ _ _ _ _ _ _ C);
  pose proof (tc_maker_open _ _ _ _ _ _ _ C).

(** *** Intermediate states and quantities *)

Lemma match_step_inv t e e' :
  engine_ok e → not_resting e t → is_Some (objs e !! t) →
  match_step t e = Returns (Some e') →
  ∃ ot bp m rest om,
    trade_ctx e t ot bp m rest om ∧ e' = next_state e t ot bp m rest om.
Proof.
  intros Hok Hfree [ot Ht] Hstep.
  destruct (match_step_cases e t ot Hok Ht Hfree)
    as [[_ Hs]|(bp & m & rest & om & C & Hs)]; [congruence|].
  exists ot, bp, m, rest, om. split; [done|]. congruence.
Qed.

Lemma loop_inv_submitted e o :
  engine_ok e → loop_inv (length (objs e)) o (submitted e o).
Proof.
  intros Hok. destruct (alloc_ok e o Hok) as (Hok0 & Hfree0 & Ht0).
  constructor; eauto 10.
Qed.

Lemma loop_inv_step t o e e' :
  loop_inv t o e → match_step t e = Returns (Some e') → loop_inv t o e'.
Proof.
  intros [Hok Hfree (ot & Ht & Hs & Hp & Hi & Hq)] Hstep.
  destruct (match_step_inv t e e' Hok Hfree ltac:(eauto) Hstep)
    as (ot' & bp & m & rest & om & C & ->).
  pose proof (tc_taker _ _ _ _ _ _ _ C) as Ht'.
  assert (ot' = ot) as -> by congruence.
  destruct (next_state_ok _ _ _ _ _ _ _ C) as [Hok' Hfree'].
  constructor; auto.
  exists (fill ot (Z.min (open_qty ot) (open_qty om))).
  split; [by apply taker_next_state|].
  destruct (fill_static ot (Z.min (open_qty ot) (open_qty om)))
    as (-> & -> & -> & -> & _). done.
Qed.

Lemma loop_inv_steps t o e e' :
  loop_inv t o e → match_steps t e e' → loop_inv t o e'.
Proof. intros H Hs. induction Hs; eauto using loop_inv_step. Qed.

Lemma next_state_filled_ok e t ot bp m rest om :
  trade_ctx e t ot bp m rest om →
  filled_ok (objs e) → filled_ok (objs (next_state e t ot bp m rest om)).
Proof.
  intros C Hf r o. rewrite objs_next_state.
  rewrite (traded_lookup _ m t om ot _ r (tc_maker _ _ _ _ _ _ _ C)
             (tc_taker _ _ _ _ _ _ _ C) (tc_ne _ _ _ _ _ _ _ C)).
  pose proof (Hf _ _ (tc_maker _ _ _ _ _ _ _ C)).
  pose proof (Hf _ _ (tc_taker _ _ _ _ _ _ _ C)).
  trade_facts C. unfold open_qty in *.
  repeat case_decide; [| |by apply Hf]; intros [= <-]; simpl; lia.
Qed.

Lemma filled_ok_steps t o e e' :
  loop_inv t o e → match_steps t e e' →
  filled_ok (objs e) → filled_ok (objs e').
Proof.
  intros H Hs. induction Hs as [|e e1 e2 Hstep Hs IH]; [done|].
  intros Hf. apply IH; [by eapply loop_inv_step|].
  destruct H as [Hok Hfree (ot & Ht & _)].
  destruct (match_step_inv t e e1 Hok Hfree ltac:(eauto) Hstep)
    as (ot' & bp & m & rest & om & C & ->).
  by apply next_state_filled_ok.
Qed.

(** What [process_order] returns, in terms of the state the loop ends in. *)
Lemma process_order_final e o :
  engine_ok e →
  ∃ e1 e' r,
    process_order e o = Returns (e', r) ∧
    match_steps (length (objs e)) (submitted e o) e1 ∧
    objs e' = objs e1 ∧ trades e' = trades e1 ∧
    (r = "RESTING"%string ∨ r = "FILLED"%string) ∧ engine_ok e'.
Proof.
  intros Hok. destruct (alloc_ok e o Hok) as (Hok0 & Hfree0 & Ht0).
  destruct (process_order_returns e o Hok) as (e' & r & Hp & Hok').
  pose proof Hp as Hp0.
  unfold process_order, process_order_at in Hp. fold (submitted e o) in *.
  set (e0 := submitted e o) in *.
  set (t := length (objs e)) in *.
  rewrite (deref_Some _ _ _ Ht0), bind_Returns in Hp. cbv beta zeta in Hp.
  destruct (match_loop_returns
              (S (resting_count
                    (price_levels (book e0 (opposing_is_bid (side o))))))
              e0 t o Hok0 Ht0 Hfree0 ltac:(left; lia))
    as (e1 & ot & Hl & Hs & Hok1 & Hfree1 & Ht1 & _).
  rewrite Hl, bind_Returns, (deref_Some _ _ _ Ht1), bind_Returns in Hp.
  exists e1, e', r. split; [exact Hp0|]. split; [done|].
  destruct (0 <? open_qty ot).
  - destruct (add _ _ _) as [s| |]; [|discriminate Hp..].
    rewrite bind_Returns in Hp. injection Hp as <- <-.
    rewrite objs_set_book, trades_set_book. auto.
  - injection Hp as <- <-. auto.
Qed.

(** *** First in, first out *)

Lemma next_state_level e t ot bp m rest om p :
  trade_ctx e t ot bp m rest om →
  price_levels (book (next_state e t ot bp m rest om)
                  (opposing_is_bid (side ot))) !! p =
    if decide (p = bp) then
      if open_qty om - Z.min (open_qty ot) (open_qty om) =? 0 then
        match rest with [] => None | _ => Some rest end
      else Some (m :: rest)
    else price_levels (book e (opposing_is_bid (side ot))) !! p.
Proof.
  intros C. rewrite book_next_state_opp.
  pose proof (tc_level _ _ _ _ _ _ _ C) as Hlv.
  destruct (_ =? 0).
  - rewrite (pop_level _ _ _ _ _ _
      (engine_ok_book e _ (tc_ok _ _ _ _ _ _ _ C))
      (tc_best _ _ _ _ _ _ _ C) Hlv).
    case_decide as Hp; [subst p|].
    + destruct rest; simpl; [by rewrite lookup_delete_eq|].
      by rewrite lookup_insert_eq.
    + destruct rest; simpl; [by rewrite lookup_delete_ne|].
      by rewrite lookup_insert_ne.
  - case_decide; [by subst|done].
Qed.

Lemma fifo_inv_step e0 e1 e2 t o p queue k :
  loop_inv t o e1 → NoDup queue → t ∉ queue →
  fifo_inv e0 e1 (opposing_is_bid (side o)) p queue k →
  match_step t e1 = Returns (Some e2) →
  ∃ k', fifo_inv e0 e2 (opposing_is_bid (side o)) p queue k'.
Proof.
  intros [Hok Hfree (ot & Ht & Hsd & _)] Hnd Htq [Hlv Hgone Hbeh Hpr] Hstep.
  destruct (match_step_inv t e1 e2 Hok Hfree ltac:(eauto) Hstep)
    as (ot' & bp & m & rest & om & C & ->).
  pose proof (tc_taker _ _ _ _ _ _ _ C) as Ht'.
  assert (ot' = ot) as -> by congruence. clear Ht'.
  pose proof (tc_maker _ _ _ _ _ _ _ C) as Hm.
  pose proof (tc_ne _ _ _ _ _ _ _ C) as Hne.
  set (q := Z.min (open_qty ot) (open_qty om)).
  assert (Hsame : ∀ i r, queue !! i = Some r → r ≠ m →
    objs (next_state e1 t ot bp m rest om) !! r = objs e1 !! r).
  { intros i r Hi Hrm. rewrite objs_next_state.
    rewrite (traded_lookup _ m t om ot _ r Hm Ht Hne).
    rewrite decide_False; [by rewrite decide_False|].
    intros ->. apply Htq. by eapply list_elem_of_lookup_2. }
  assert (Hprice : ∀ i r, queue !! i = Some r →
    ∃ o', objs (next_state e1 t ot bp m rest om) !! r = Some o' ∧
          price o' = p).
  { intros i r Hi. destruct (Hpr i r Hi) as (o1 & Ho1 & Hp1).
    rewrite objs_next_state.
    destruct (traded_stable _ m t om ot q r o1 Hm Ht Hne Ho1)
      as (o' & Ho' & _ & _ & Hp').
    exists o'. split; [done|congruence]. }
  pose proof (next_state_level e1 t ot bp m rest om p C) as Hnl.
  rewrite Hsd in Hnl.
  destruct (decide (p = bp)) as [->|Hpbp].
  - pose proof (tc_level _ _ _ _ _ _ _ C) as Hl. rewrite Hsd, Hlv in Hl.
    case_decide as Hk; [|done]. injection Hl as Hl.
    assert (Hkm : queue !! k = Some m).
    { rewrite <- (Nat.add_0_r k), <- lookup_drop, Hl. done. }
    assert (Hrest : rest = drop (S k) queue).
    { replace (S k) with (k + 1)%nat by lia.
      by rewrite <- drop_drop, Hl. }
    assert (Hother : ∀ i r, queue !! i = Some r → i ≠ k → r ≠ m).
    { intros i r Hi Hik ->. apply Hik.
      by eapply (NoDup_lookup queue i k m). }
    destruct (Z.eqb_spec (open_qty om - q) 0) as [E|E].
    + exists (S k). constructor.
      * rewrite Hnl. fold q.
        destruct (Z.eqb_spec (open_qty om - q) 0); [|done].
        rewrite Hrest. pose proof (length_drop queue (S k)) as Hlen.
        destruct (drop (S k) queue) eqn:Hd; simpl in Hlen.
        -- rewrite decide_False; [done|lia].
        -- rewrite decide_True; [done|lia].
      * intros i r Hi Hik. destruct (decide (i = k)) as [->|Hik'].
        -- assert (r = m) as -> by congruence.
           exists (fill om q). split; [|rewrite fill_open; lia].
           rewrite objs_next_state.
           rewrite (traded_lookup _ m t om ot _ m Hm Ht Hne).
           by rewrite decide_False, decide_True.
        -- rewrite (Hsame i r Hi (Hother i r Hi Hik')).
           apply (Hgone i r Hi). lia.
      * intros i r Hi Hik.
        rewrite (Hsame i r Hi (Hother i r Hi ltac:(lia))).
        apply (Hbeh i r Hi). lia.
      * done.
    + exists k. constructor.
      * rewrite Hnl. fold q.
        destruct (Z.eqb_spec (open_qty om - q) 0); [done|].
        rewrite decide_True by done. by rewrite Hl.
      * intros i r Hi Hik.
        rewrite (Hsame i r Hi (Hother i r Hi ltac:(lia))).
        by apply (Hgone i r Hi).
      * intros i r Hi Hik.
        rewrite (Hsame i r Hi (Hother i r Hi ltac:(lia))).
        by apply (Hbeh i r Hi).
      * done.
  - assert (Hother : ∀ i r, queue !! i = Some r → r ≠ m).
    { intros i r Hi ->. destruct (Hpr i m Hi) as (o1 & Ho1 & Hp1).
      pose proof (tc_maker_price _ _ _ _ _ _ _ C). congruence. }
    exists k. constructor.
    + by rewrite Hnl, Hlv.
    + intros i r Hi Hik. rewrite (Hsame i r Hi (Hother i r Hi)).
      by apply (Hgone i r Hi).
    + intros i r Hi Hik. rewrite (Hsame i r Hi (Hother i r Hi)).
      by apply (Hbeh i r Hi).
    + done.
Qed.

Lemma fifo_inv_steps e0 e1 e2 t o p queue k :
  loop_inv t o e1 → NoDup queue → t ∉ queue →
  fifo_inv e0 e1 (opposing_is_bid (side o)) p queue k →
  match_steps t e1 e2 →
  ∃ k', fifo_inv e0 e2 (opposing_is_bid (side o)) p queue k'.
Proof.
  intros Hl Hnd Htq Hf Hs. revert k Hl Hf.
  induction Hs as [|e1 e2 e3 Hstep Hs IH]; intros k Hl Hf; [eauto|].
  destruct (fifo_inv_step _ _ _ _ _ _ _ _ Hl Hnd Htq Hf Hstep) as [k' Hf'].
  eapply IH; [by eapply loop_inv_step|exact Hf'].
Qed.

Lemma fifo_inv_submitted e o p queue :
  engine_ok e →
  price_levels (book e (opposing_is_bid (side o))) !! p = Some queue →
  fifo_inv e (submitted e o) (opposing_is_bid (side o)) p queue 0.
Proof.
  intros Hok Hq.
  pose proof (engine_ok_book e (opposing_is_bid (side o)) Hok) as Hs.
  destruct (ok_queue _ _ _ Hs _ _ Hq) as [Hne _].
  assert (Hin : ∀ i r, queue !! i = Some r →
    ∃ o', objs e !! r = Some o' ∧ price o' = p).
  { intros i r Hi.
    destruct (ok_resting _ _ _ Hs _ _ r Hq) as (o' & Ho' & Hp' & _);
      [by eapply list_elem_of_lookup_2|eauto]. }
  constructor.
  - unfold submitted. rewrite book_set_objs, Hq.
    rewrite decide_True; [done|]. destruct queue; [done|simpl; lia].
  - intros; lia.
  - intros i r Hi _. destruct (Hin i r Hi) as (o' & Ho' & _).
    simpl. rewrite Ho'. by apply lookup_app_l_Some.
  - intros i r Hi. destruct (Hin i r Hi) as (o' & Ho' & Hp').
    exists o'. split; [|done]. simpl. by apply lookup_app_l_Some.
Qed.

Lemma fifo_priority e0 e1 ob p queue k i j r1 r2 :
  fifo_inv e0 e1 ob p queue k →
  queue !! i = Some r1 → queue !! j = Some r2 → (i < j)%nat →
  objs e1 !! r2 = objs e0 !! r2 ∨
  ∃ o1, objs e1 !! r1 = Some o1 ∧ open_qty o1 = 0.
Proof.
  intros [_ Hgone Hbeh _] Hi Hj Hij.
  destruct (decide (k < j)%nat).
  - left. by apply (Hbeh j).
  - right. apply (Hgone i r1 Hi). lia.
Qed.

(** *** The properties of the specification *)

Lemma reachable_run_orders e os e' :
  reachable e → run_orders e os = Returns e' → reachable e'.
Proof.
  revert e. induction os as [|o os IH]; intros e Hr; simpl.
  - by intros [= <-].
  - destruct (process_order e o) as [[e1 r]| |] eqn:Hp; try done.
    rewrite bind_Returns. apply IH. by eapply reach_step.
Qed.

Lemma filled_ok_submitted e o :
  filled_ok (objs e) → 0 ≤ filled_qty o ≤ qty o →
  filled_ok (objs (submitted e o)).
Proof.
  intros Hf Ho r o'. simpl. rewrite lookup_app_Some.
  intros [Hl|[_ Hl]]; [by eapply Hf|].
  apply list_lookup_singleton_Some in Hl as [_ <-]. done.
Qed.

Lemma process_order_filled_ok e o e' r :
  engine_ok e → filled_ok (objs e) → 0 ≤ filled_qty o ≤ qty o →
  process_order e o = Returns (e', r) → filled_ok (objs e').
Proof.
  intros Hok Hf Ho Hp.
  destruct (process_order_final e o Hok)
    as (e1 & e2 & r2 & Hp2 & Hst & Hobjs & _).
  assert (e2 = e') as -> by congruence. rewrite Hobjs.
  eapply filled_ok_steps; [by apply loop_inv_submitted|exact Hst|].
  by apply filled_ok_submitted.
Qed.

(** On every engine built from orders that enter with
    [0 <= filled_qty <= qty], every order has it. *)
Lemma reachable_valid_filled_ok e :
  reachable_valid e → reachable e ∧ filled_ok (objs e).
Proof.
  induction 1 as [|e o e' r _ [Hr Hf] Ho Hp].
  - split; [apply reach_init|]. intros r o Hr. by destruct r.
  - split; [by eapply reach_step|].
    eapply process_order_filled_ok; eauto using reachable_ok.
Qed.



(** C3.  The end-to-end scenario: with asks #1 100@101.00, #2 50@101.00
    and #3 200@102.00 resting, the queue position of #2 is 100; the buy
    #99 120@101.50 then trades 100@101.00 with #1 and 20@101.00 with #2,
    in this order, and is FILLED; #1 is fully filled and #2 keeps an open
    quantity of 30. *)
Theorem demo_scenario :
  match run_orders MatchingEngine_init demo_makers with
  | Returns e3 =>
      position (get_queue_position (asks e3) (objs e3) 2) = Returns 100 ∧
      match process_order e3 demo_taker with
      | Returns (e4, st) =>
          st = "FILLED"%string ∧
          trades e4 = [mkTrade 10100 100 1 99; mkTrade 10100 20 2 99] ∧
          objs e4 =
            [ mkOrder 1 sell 10100 100 1000 100 FILLED;
              mkOrder 2 sell 10100 50 1001 20 PARTIAL;
              mkOrder 3 sell 10200 200 1002 0 OPEN;
              mkOrder 99 buy 10150 120 2000 120 FILLED ] ∧
          (open_qty <$> objs e4 !! 1%nat) = Some 30
      | _ => False
      end
  | _ => False
  end.
Proof. vm_compute. repeat split. Qed.

(** C6, at the failing inputs.  After the scenario, order #1 is fully
    filled and rests in no queue, but it is still in the [orders] index
    of the ask side: [get_queue_position] answers 30 for it (the open
    quantity of #2), not the not-found value -1.  When the level of the
    filled order is gone (one ask, bought in full), the answer is 0, the
    position of an order at the front, and the lookup leaves an empty
    level at that price that the heap of prices does not hold. *)
Theorem queue_position_of_filled_order :
  match demo_after with
  | Returns e =>
      position (get_queue_position (asks e) (objs e) 1) = Returns 30 ∧
      map_to_list (price_levels (asks e))
        = [(10100, [1%nat]); (10200, [2%nat])] ∧
      orders (asks e) !! 1 = Some 0%nat
  | _ => False
  end ∧
  match run_orders MatchingEngine_init
          [new_order 1 sell 10100 100 1000; new_order 5 buy 10100 100 1500]
  with
  | Returns e =>
      price_levels (asks e) !! 10100 = None ∧
      match get_queue_position (asks e) (objs e) 1 with
      | Returns (n, s) =>
          n = 0 ∧ price_heap s = [] ∧ price_levels s !! 10100 = Some []
      | _ => False
      end
  | _ => False
  end.
Proof. vm_compute. repeat split. Qed.

(** *** Queue positions *)

Lemma qty_ahead_front l tid front tr back acc target :
  l !! tr = Some target → id target = tid →
  (∀ r, r ∈ front → ∃ o, l !! r = Some o ∧ id o ≠ tid) →
  qty_ahead l tid (front ++ tr :: back) acc
  = Returns (acc + open_sum l front).
Proof.
  intros Ht Hid. revert acc.
  induction front as [|r front IH]; intros acc Hfront; simpl.
  - rewrite (deref_Some _ _ _ Ht), bind_Returns.
    rewrite (proj2 (Z.eqb_eq _ _) Hid). f_equal. unfold mret, outcome_ret.
    f_equal. lia.
  - destruct (Hfront r ltac:(by left)) as (o & Ho & Hne).
    rewrite (deref_Some _ _ _ Ho), bind_Returns.
    rewrite (proj2 (Z.eqb_neq _ _) Hne).
    rewrite IH by (intros r' Hr'; apply Hfront; by right).
    rewrite Ho. simpl. f_equal. lia.
Qed.

Lemma touch_present lv p (q : list ref) : lv !! p = Some q → touch lv p = lv.
Proof. unfold touch. by intros ->. Qed.

Lemma queue_position_resting s l i tr target front back :
  orders s !! i = Some tr → l !! tr = Some target →
  price_levels s !! price target = Some (front ++ tr :: back) →
  (∀ r, r ∈ front → ∃ o, l !! r = Some o ∧ id o ≠ id target) →
  get_queue_position s l i = Returns (open_sum l front, s).
Proof.
  intros Hi Ht Hq Hfront. unfold get_queue_position.
  rewrite Hi, (deref_Some _ _ _ Ht), bind_Returns. cbv zeta.
  unfold level. rewrite Hq. simpl.
  rewrite (qty_ahead_front l (id target) front tr back 0 target Ht eq_refl
             Hfront), bind_Returns.
  rewrite (touch_present _ _ _ Hq). by destruct s.
Qed.

Lemma queue_position_unknown s l i :
  orders s !! i = None → get_queue_position s l i = Returns (-1, s).
Proof. unfold get_queue_position. by intros ->. Qed.

Lemma open_sum_nonneg l b s p front back :
  side_ok l b s → price_levels s !! p = Some (front ++ back) →
  0 ≤ open_sum l front.
Proof.
  intros Hs Hq.
  assert (H : ∀ r, r ∈ front → ∃ o, l !! r = Some o ∧ 0 < open_qty o).
  { intros r Hr.
    destruct (ok_resting _ _ _ Hs p _ r Hq) as (o & Ho & _ & _ & ?);
      [apply elem_of_app; by left|eauto]. }
  clear Hq. induction front as [|r front IH]; simpl; [done|].
  destruct (H r ltac:(by left)) as (o & -> & ?). simpl.
  assert (0 ≤ open_sum l front); [|lia].
  apply IH. intros r' Hr'. apply H. by right.
Qed.

(** *** Orders that a validating engine would refuse *)

(** C7, counterexample.  On the empty book, a buy of quantity 0 is
    answered FILLED, and a sell of 10 at price -5 is answered RESTING and
    rests on the ask side: neither is rejected. *)
Lemma invalid_order_not_rejected :
  (invalid_order (new_order 7 buy 10100 0 1000) ∧
   ¬ rejected MatchingEngine_init (new_order 7 buy 10100 0 1000)) ∧
  (invalid_order (new_order 8 sell (-5) 10 1000) ∧
   ¬ rejected MatchingEngine_init (new_order 8 sell (-5) 10 1000) ∧
   ∃ e', process_order MatchingEngine_init (new_order 8 sell (-5) 10 1000)
           = Returns (e', "RESTING"%string) ∧
         price_levels (asks e') !! (-5) = Some [0%nat]).
Proof.
  split; [|split; [|split]].
  - split; [left; simpl; lia|]. unfold rejected. vm_compute.
    intros (_ & H & _). by apply H.
  - right; simpl; lia.
  - unfold rejected. vm_compute. intros (H & _). by apply H.
  - eexists. split; [vm_compute; reflexivity|]. vm_compute. reflexivity.
Qed.

(** C7, as amended.  [process_order] validates nothing: on every
    reachable book it answers RESTING or FILLED to every order, whatever
    its price and quantity.  An order of non-positive quantity of which
    nothing is filled is neither matched nor rested: the answer is FILLED
    and both sides and the trade log are as before. *)
Theorem process_order_never_rejects e o :
  reachable e →
  (∃ e' r, process_order e o = Returns (e', r) ∧
     (r = "RESTING"%string ∨ r = "FILLED"%string)) ∧
  (qty o ≤ 0 → 0 ≤ filled_qty o →
   ∃ e', process_order e o = Returns (e', "FILLED"%string) ∧
     bids e' = bids e ∧ asks e' = asks e ∧ trades e' = trades e ∧
     objs e' = objs e ++ [o]).
Proof.
  intros Hr. apply reachable_ok in Hr. split.
  - destruct (process_order_final e o Hr)
      as (e1 & e' & r & Hp & _ & _ & _ & Hcode & _). eauto.
  - intros Hq Hf. exists (submitted e o). split; [|done].
    destruct (alloc_ok e o Hr) as (_ & _ & Ht0).
    unfold process_order, process_order_at, submitted.
    rewrite (deref_Some _ _ _ Ht0), bind_Returns. cbv beta zeta.
    assert (Hstep : match_step (length (objs e))
                      (set_objs e (objs e ++ [o])) = Returns None).
    { apply (match_step_break _ _ o Ht0). left. unfold open_qty. lia. }
    unfold match_loop; fold match_loop.
    rewrite Hstep, !bind_Returns, (deref_Some _ _ _ Ht0), bind_Returns.
    destruct (Z.ltb_spec 0 (open_qty o)); [unfold open_qty in *; lia|done].
Qed.

End EngineFacts.

(** ** The replayer *)

Section ReplayerFacts.
Import Engine.

(** C10.  A CANCEL event whose price level has a queue on the named side
    takes its quantity off the total quantity of the last order of that
    queue, the most recently added one, when that order has at least this
    open quantity.  The order id of the event plays no part; every other
    order, both sides and the trade log are as before. *)
Theorem cancel_hits_last_order e (ev : Replayer.MarketEvent) queue tr target :
  Replayer.event_type ev = Replayer.CANCEL →
  price_levels (book e (my_is_bid (Replayer.side ev)))
    !! Replayer.price ev = Some queue →
  last queue = Some tr →
  objs e !! tr = Some target →
  Replayer.qty ev ≤ open_qty target →
  ∃ e', Replayer.apply_market_event e ev = Returns e' ∧
    objs e' !! tr
      = Some (set_qty target (qty target - Replayer.qty ev)) ∧
    (∀ r, r ≠ tr → objs e' !! r = objs e !! r) ∧
    bids e' = bids e ∧ asks e' = asks e ∧ trades e' = trades e.
Proof.
  intros Hty Hq Hlast Htr Hle. unfold Replayer.apply_market_event.
  rewrite Hty.
  replace (match Replayer.side ev with
           | buy => bids e | sell => asks e end)
    with (book e (my_is_bid (Replayer.side ev)))
    by (by destruct (Replayer.side ev)).
  rewrite Hq, Hlast, (deref_Some _ _ _ Htr), bind_Returns.
  destruct (Z.leb_spec (Replayer.qty ev) (open_qty target)); [|lia].
  eexists. split; [done|]. simpl. split_and!; try done.
  - apply list_lookup_insert_eq. by eapply lookup_lt_Some.
  - intros r Hne. by apply list_lookup_insert_ne.
Qed.

End ReplayerFacts.

(** ** The event heap *)

Section HeapqFacts.

Context {A : Type} (lt : A → A → bool).
Implicit Types (heap : list A) (x y : A).

Lemma insert_Permutation heap (i : nat) x y :
  heap !! i = Some x → x :: <[i := y]> heap ≡ₚ y :: heap.
Proof.
  revert i. induction heap as [|a heap IH]; intros [|i] Hi; simplify_eq/=.
  - apply perm_swap.
  - rewrite perm_swap, (IH i Hi). apply perm_swap.
Qed.

(** Moving the hole of a sift from [pos] to [pos'] keeps the elements. *)
Lemma hole_move heap (pos pos' : nat) x y :
  heap !! pos' = Some y → pos' ≠ pos → (pos < length heap)%nat →
  <[pos' := x]> (<[pos := y]> heap) ≡ₚ <[pos := x]> heap.
Proof.
  intros Hy Hne Hpos.
  destruct (lookup_lt_is_Some_2 heap pos Hpos) as [c Hc].
  assert (H1 : y :: <[pos' := x]> (<[pos := y]> heap)
               ≡ₚ x :: <[pos := y]> heap).
  { apply insert_Permutation. by rewrite list_lookup_insert_ne. }
  pose proof (insert_Permutation heap pos c y Hc) as H2.
  pose proof (insert_Permutation heap pos c x Hc) as H3.
  apply (Permutation_cons_inv (a := y)), (Permutation_cons_inv (a := c)).
  rewrite H1, (perm_swap y c), H3, (perm_swap x c), H2.
  apply perm_swap.
Qed.

Lemma div2_pred_lt (n : nat) : (0 < n)%nat → (Nat.div2 (n - 1) < n)%nat.
Proof.
  intros Hn. pose proof (Nat.div2_decr (n - 1) (n - 1) ltac:(lia)). lia.
Qed.

Lemma siftdown_loop_perm fuel heap startpos pos x :
  (pos < length heap)%nat →
  (let '(heap', pos') := Heapq.siftdown_loop lt fuel heap startpos pos x in
   (pos' < length heap')%nat ∧
   <[pos' := x]> heap' ≡ₚ <[pos := x]> heap).
Proof.
  revert heap pos. induction fuel as [|fuel IH]; intros heap pos Hpos; simpl.
  { done. }
  destruct (Nat.ltb_spec startpos pos) as [Hlt|]; [|done].
  destruct (heap !! Nat.div2 (pos - 1)) as [parent|] eqn:Hp; [|done].
  destruct (lt x parent); [|done].
  pose proof (div2_pred_lt pos ltac:(lia)) as Hd.
  specialize (IH (<[pos := parent]> heap) (Nat.div2 (pos - 1))).
  destruct (Heapq.siftdown_loop lt fuel _ startpos _ x) as [heap' pos'].
  destruct IH as [Hlen Hperm]; [rewrite length_insert; lia|].
  split; [done|]. rewrite Hperm. apply hole_move; [done|lia|done].
Qed.

Lemma siftdown_perm heap startpos pos :
  Heapq._siftdown lt heap startpos pos ≡ₚ heap.
Proof.
  unfold Heapq._siftdown. destruct (heap !! pos) as [x|] eqn:Hx; [|done].
  pose proof (siftdown_loop_perm pos heap startpos pos x
                (lookup_lt_Some _ _ _ Hx)) as H.
  destruct (Heapq.siftdown_loop lt pos heap startpos pos x) as [heap' pos'].
  destruct H as [_ ->]. by rewrite list_insert_id.
Qed.

Lemma siftup_loop_perm fuel heap pos x :
  (pos < length heap)%nat →
  (let '(heap', pos') :=
     Heapq.siftup_loop lt fuel heap (length heap) pos in
   (pos' < length heap')%nat ∧
   <[pos' := x]> heap' ≡ₚ <[pos := x]> heap).
Proof.
  revert heap pos. induction fuel as [|fuel IH]; intros heap pos Hpos.
  { done. }
  unfold Heapq.siftup_loop; fold (Heapq.siftup_loop lt).
  destruct (Nat.ltb_spec (2 * pos + 1) (length heap)) as [Hlt|]; [|done].
  set (childpos :=
    if (2 * pos + 1 + 1 <? length heap)%nat then
      match heap !! (2 * pos + 1)%nat, heap !! (2 * pos + 1 + 1)%nat with
      | Some c, Some r =>
          if lt c r then (2 * pos + 1)%nat else (2 * pos + 1 + 1)%nat
      | _, _ => (2 * pos + 1)%nat
      end
    else (2 * pos + 1)%nat).
  assert (Hc : (pos < childpos)%nat).
  { subst childpos. repeat case_match; lia. }
  destruct (heap !! childpos) as [c|] eqn:Hch; [|done].
  specialize (IH (<[pos := c]> heap) childpos).
  rewrite length_insert in IH.
  destruct (Heapq.siftup_loop lt fuel _ (length heap) childpos)
    as [heap' pos'].
  destruct IH as [Hlen Hperm]; [by eapply lookup_lt_Some|].
  split; [done|]. rewrite Hperm. apply hole_move; [done|lia|done].
Qed.

Lemma siftup_perm heap pos : Heapq._siftup lt heap pos ≡ₚ heap.
Proof.
  unfold Heapq._siftup. destruct (heap !! pos) as [x|] eqn:Hx; [|done].
  pose proof (siftup_loop_perm (length heap) heap pos x
                (lookup_lt_Some _ _ _ Hx)) as H.
  destruct (Heapq.siftup_loop lt (length heap) heap (length heap) pos)
    as [heap' pos'].
  destruct H as [_ H]. rewrite siftdown_perm, H. by rewrite list_insert_id.
Qed.

Lemma heappush_perm heap x : Heapq.heappush lt heap x ≡ₚ x :: heap.
Proof.
  unfold Heapq.heappush. rewrite siftdown_perm.
  by rewrite Permutation_app_comm.
Qed.

Lemma heappop_None heap : Heapq.heappop lt heap = None ↔ heap = [].
Proof.
  unfold Heapq.heappop. split; [|by intros ->].
  destruct heap as [|a heap] using rev_ind; [done|].
  rewrite last_snoc, removelast_last. by destruct heap.
Qed.

Lemma heappop_perm heap x heap' :
  Heapq.heappop lt heap = Some (x, heap') → heap ≡ₚ x :: heap'.
Proof.
  unfold Heapq.heappop.
  destruct heap as [|a heap _] using rev_ind; [done|].
  rewrite last_snoc, removelast_last.
  destruct heap as [|r heap]; intros [= <- <-]; [done|].
  rewrite siftup_perm. simpl. by rewrite <- Permutation_cons_append.
Qed.

End HeapqFacts.

(** ** The latency model *)

Section NetworkFacts.
Import Network.

(** C9.  One call of [next_latency_ms], on a generator that records its
    draws.  The first draw is the uniform one that decides the drop; on
    a drop the result is -1.0 and this was the only draw; otherwise one
    gamma draw of shape 2 and scale [jitter_scale] follows, and the
    result is the base latency plus that jitter. *)
Theorem sample_draws {G : Type} `{Generator G}
  (self : LatencySimulator (Traced G)) :
  let '(u, g1) := random (inner (rng self)) in
  let '(jitter, g2) := gamma 2.0%float (jitter_scale (config self)) g1 in
  let '(result, self') := next_latency_ms self in
  config self' = config self ∧
  if PrimFloat.ltb u (drop_probability (config self)) then
    result = (-1.0)%float ∧
    draws (rng self') = draws (rng self) ++ [DrawRandom] ∧
    inner (rng self') = g1
  else
    result = (base_latency_ms (config self) + jitter)%float ∧
    draws (rng self')
      = draws (rng self)
        ++ [DrawRandom; DrawGamma 2.0%float (jitter_scale (config self))] ∧
    inner (rng self') = g2.
Proof.
  unfold next_latency_ms. simpl.
  destruct (random (inner (rng self))) as [u g1]. simpl.
  destruct (gamma 2.0%float (jitter_scale (config self)) g1) as [j g2] eqn:E.
  destruct (PrimFloat.ltb u (drop_probability (config self))); simpl.
  - done.
  - by rewrite <- app_assoc.
Qed.

End NetworkFacts.

(** ** The scheduler *)

Section SchedulerFacts.
Import Simulation.

Context {L T : Type} `{LatencyModel L} `{Strategy T}.
Implicit Types (r : SimulationRunner L T).

Lemma weight_heappush (h : list SimEvent) x :
  sum_list_with event_weight (Heapq.heappush SimEvent_lt h x)
  = (event_weight x + sum_list_with event_weight h)%nat.
Proof. by rewrite heappush_perm. Qed.

Lemma weight_heappop (h h' : list SimEvent) x :
  Heapq.heappop SimEvent_lt h = Some (x, h') →
  sum_list_with event_weight h
  = (event_weight x + sum_list_with event_weight h')%nat.
Proof. intros Hp. by rewrite (heappop_perm _ _ _ _ Hp). Qed.

Lemma potential_schedule r :
  potential (_schedule_next_market_event r) = potential r.
Proof.
  unfold _schedule_next_market_event, potential.
  destruct (market_stream r) as [|evt stream] eqn:E; [by rewrite E|].
  simpl. rewrite weight_heappush. simpl. lia.
Qed.

Lemma int_of_float_fuel x : int_of_float x ≠ OutOfFuel.
Proof. unfold int_of_float. by destruct (Prim2SF x). Qed.

Lemma handle_market_event_cases r ev :
  (∃ e, _handle_market_event r ev = Raises e) ∨
  (∃ r', _handle_market_event r ev = Returns r' ∧
         (potential r' ≤ potential r + 1)%nat).
Proof.
  unfold _handle_market_event.
  destruct (on_market_update _ _) as [[order|] strategy1].
  - destruct (next_latency_ms _) as [latency_ms latency1].
    pose proof (int_of_float_fuel (latency_ms * 1000)%float) as Hf.
    destruct (int_of_float _) as [us|e|]; [|left; eauto|done].
    right. eexists. split; [done|]. unfold potential. simpl.
    rewrite weight_heappush. simpl. lia.
  - right. eexists. split; [done|]. unfold potential. simpl. lia.
Qed.

Lemma potential_arrival r order :
  potential (_handle_order_arrival r order) = potential r.
Proof.
  unfold _handle_order_arrival. by destruct (process_order _ _).
Qed.

Lemma run_step_cases r :
  run_step r = Returns None ∨ (∃ e, run_step r = Raises e) ∨
  (∃ r', run_step r = Returns (Some r') ∧ (potential r' < potential r)%nat).
Proof.
  unfold run_step.
  destruct (Heapq.heappop SimEvent_lt (events r)) as [[ev events1]|] eqn:Hp;
    [|by left].
  right. pose proof (weight_heappop _ _ _ Hp) as Hw.
  unfold event_weight at 2 in Hw.
  destruct (body ev) as [payload|payload].
  - match goal with |- context [_handle_market_event ?s payload] =>
      destruct (handle_market_event_cases s payload)
        as [[e ->]|(r' & -> & Hr')]
    end; [left; eauto|].
    right. eexists. split; [done|]. rewrite potential_schedule.
    unfold potential in *. simpl in *. lia.
  - right. eexists. split; [done|]. rewrite potential_arrival.
    unfold potential. simpl. lia.
Qed.

Lemma run_loop_terminates fuel r :
  (potential r < fuel)%nat → run_loop fuel r ≠ OutOfFuel.
Proof.
  revert r. induction fuel as [|fuel IH]; intros r Hf; [lia|]. simpl.
  destruct (run_step_cases r) as [->|[[e ->]|(r' & -> & Hr')]]; try done.
  simpl. apply IH. lia.
Qed.

Lemma run_terminates r : run r ≠ OutOfFuel.
Proof.
  unfold run, run_fuel. apply run_loop_terminates.
  unfold potential. simpl. lia.
Qed.

End SchedulerFacts.

Section SchedulerRelated.
Import Simulation.

Context {L1 L2 T : Type} `{LatencyModel L1} `{LatencyModel L2} `{Strategy T}.
Context (R : L1 → L2 → Prop).

Hypothesis same_samples : ∀ l1 l2, R l1 l2 →
  fst (next_latency_ms l1) = fst (next_latency_ms l2) ∧
  R (snd (next_latency_ms l1)) (snd (next_latency_ms l2)).

Lemma related_schedule (r1 : SimulationRunner L1 T)
  (r2 : SimulationRunner L2 T) :
  related R r1 r2 →
  related R (_schedule_next_market_event r1) (_schedule_next_market_event r2).
Proof.
  destruct r1 as [e1 l1 s1 ev1 c1 m1 g1], r2 as [e2 l2 s2 ev2 c2 m2 g2].
  intros (? & ? & ? & ? & ? & ? & ?); simpl in *; subst.
  unfold _schedule_next_market_event. simpl.
  destruct m2; by repeat split.
Qed.

Lemma related_handle_market_event (r1 : SimulationRunner L1 T)
  (r2 : SimulationRunner L2 T) ev :
  related R r1 r2 →
  outcome_rel (related R) (_handle_market_event r1 ev)
    (_handle_market_event r2 ev).
Proof.
  destruct r1 as [e1 l1 s1 ev1 c1 m1 g1], r2 as [e2 l2 s2 ev2 c2 m2 g2].
  intros (? & HR & ? & ? & ? & ? & ?); simpl in *; subst.
  unfold _handle_market_event. simpl.
  destruct (on_market_update _ _) as [[order|] strategy1].
  - destruct (same_samples _ _ HR) as [Hs HR'].
    destruct (next_latency_ms l1) as [x1 l1'].
    destruct (next_latency_ms l2) as [x2 l2'].
    simpl in *. subst x2.
    destruct (int_of_float _); simpl; by repeat split.
  - by repeat split.
Qed.

Lemma related_run_step (r1 : SimulationRunner L1 T)
  (r2 : SimulationRunner L2 T) :
  related R r1 r2 →
  outcome_rel (option_Forall2 (related R)) (run_step r1) (run_step r2).
Proof.
  intros Hr. pose proof Hr as (He & HR & Hs & Hev & Hc & Hm & Hl).
  unfold run_step. rewrite Hev.
  destruct (Heapq.heappop _ _) as [[ev events1]|]; [|constructor].
  destruct (body ev) as [payload|payload].
  - match goal with
    | |- outcome_rel _ (_handle_market_event ?a _ ≫= _)
           (_handle_market_event ?b _ ≫= _) =>
        pose proof (related_handle_market_event a b payload
                      ltac:(by repeat split)) as Hh
    end.
    destruct (_handle_market_event _ payload) as [a| |];
      destruct (_handle_market_event _ payload) as [b| |];
      simpl in *; try done.
    constructor. by apply related_schedule.
  - simpl. constructor. unfold _handle_order_arrival. simpl. rewrite He.
    destruct (process_order (engine r2) payload).
    repeat split; simpl; congruence.
Qed.

Lemma related_run_loop fuel (r1 : SimulationRunner L1 T)
  (r2 : SimulationRunner L2 T) :
  related R r1 r2 → outcome_rel (related R) (run_loop fuel r1) (run_loop fuel r2).
Proof.
  revert r1 r2. induction fuel as [|fuel IH]; intros r1 r2 Hr; [done|].
  simpl. pose proof (related_run_step r1 r2 Hr) as Hs.
  destruct (run_step r1) as [[a|]| |]; destruct (run_step r2) as [[b|]| |];
    simpl in *; try done; try by inversion Hs.
  apply IH. by inversion Hs.
Qed.

(** The runs of two schedulers whose latency models give the same samples
    end alike: same exception, or same engine, events, clock and log. *)
Lemma related_run r1 r2 :
  related R r1 r2 → outcome_rel (related R) (run r1) (run r2).
Proof.
  intros Hr. pose proof Hr as (He & HR & Hs & Hev & Hc & Hm & Hl).
  unfold run, run_fuel. rewrite Hev, Hm.
  apply related_run_loop. repeat split; simpl; congruence.
Qed.

End SchedulerRelated.

(** Two runs, each with objects of its own *)

Section SchedulerAlike.
Import Simulation.

Context {L1 L2 T1 T2 : Type} `{LatencyModel L1} `{LatencyModel L2}
  `{Strategy T1} `{Strategy T2}.
Context (RL : L1 → L2 → Prop) (RT : T1 → T2 → Prop).

Hypothesis latencies_alike : same_latencies RL.
Hypothesis orders_alike : same_orders RT.

Lemma alike_schedule (r1 : SimulationRunner L1 T1)
  (r2 : SimulationRunner L2 T2) :
  alike RL RT r1 r2 →
  alike RL RT (_schedule_next_market_event r1)
    (_schedule_next_market_event r2).
Proof.
  destruct r1 as [e1 l1 s1 ev1 c1 m1 g1], r2 as [e2 l2 s2 ev2 c2 m2 g2].
  intros (? & ? & ? & ? & ? & ? & ?); simpl in *; subst.
  unfold _schedule_next_market_event. simpl.
  destruct m2; by repeat split.
Qed.

Lemma alike_handle_market_event (r1 : SimulationRunner L1 T1)
  (r2 : SimulationRunner L2 T2) ev :
  alike RL RT r1 r2 →
  outcome_rel (alike RL RT) (_handle_market_event r1 ev)
    (_handle_market_event r2 ev).
Proof.
  destruct r1 as [e1 l1 s1 ev1 c1 m1 g1], r2 as [e2 l2 s2 ev2 c2 m2 g2].
  intros (? & HL & HT & ? & ? & ? & ?); simpl in *; subst.
  unfold _handle_market_event. simpl.
  destruct (orders_alike s1 s2 (apply_market_event e2 ev) HT) as [Ho HT'].
  destruct (on_market_update s1 _) as [order1 s1'].
  destruct (on_market_update s2 _) as [order2 s2'].
  simpl in *. subst order2. destruct order1 as [order|].
  - destruct (latencies_alike _ _ HL) as [Hs HL'].
    destruct (next_latency_ms l1) as [x1 l1'].
    destruct (next_latency_ms l2) as [x2 l2'].
    simpl in *. subst x2.
    destruct (int_of_float _); simpl; by repeat split.
  - by repeat split.
Qed.

Lemma alike_run_step (r1 : SimulationRunner L1 T1)
  (r2 : SimulationRunner L2 T2) :
  alike RL RT r1 r2 →
  outcome_rel (option_Forall2 (alike RL RT)) (run_step r1) (run_step r2).
Proof.
  intros Hr. pose proof Hr as (He & HL & HT & Hev & Hc & Hm & Hl).
  unfold run_step. rewrite Hev.
  destruct (Heapq.heappop _ _) as [[ev events1]|]; [|constructor].
  destruct (body ev) as [payload|payload].
  - match goal with
    | |- outcome_rel _ (_handle_market_event ?a _ ≫= _)
           (_handle_market_event ?b _ ≫= _) =>
        pose proof (alike_handle_market_event a b payload
                      ltac:(by repeat split)) as Hh
    end.
    destruct (_handle_market_event _ payload) as [a| |];
      destruct (_handle_market_event _ payload) as [b| |];
      simpl in *; try done.
    constructor. by apply alike_schedule.
  - simpl. constructor. unfold _handle_order_arrival. simpl. rewrite He.
    destruct (process_order (engine r2) payload).
    repeat split; simpl; congruence.
Qed.

Lemma alike_run_loop fuel (r1 : SimulationRunner L1 T1)
  (r2 : SimulationRunner L2 T2) :
  alike RL RT r1 r2 →
  outcome_rel (alike RL RT) (run_loop fuel r1) (run_loop fuel r2).
Proof.
  revert r1 r2. induction fuel as [|fuel IH]; intros r1 r2 Hr; [done|].
  simpl. pose proof (alike_run_step r1 r2 Hr) as Hs.
  destruct (run_step r1) as [[a|]| |]; destruct (run_step r2) as [[b|]| |];
    simpl in *; try done; try by inversion Hs.
  apply IH. by inversion Hs.
Qed.

(** Two schedulers in the same state, whose latency models and strategies
    answer alike, end alike: the same exception, or the same engine,
    event queue, clock and log. *)
Lemma alike_run r1 r2 :
  alike RL RT r1 r2 → outcome_rel (alike RL RT) (run r1) (run r2).
Proof.
  intros Hr. pose proof Hr as (He & HL & HT & Hev & Hc & Hm & Hl).
  unfold run, run_fuel. rewrite Hev, Hm.
  apply alike_run_loop. repeat split; simpl; congruence.
Qed.

Lemma alike_init replayer engine0 l1 l2 t1 t2 :
  RL l1 l2 → RT t1 t2 →
  alike RL RT (SimulationRunner_init replayer engine0 l1 t1)
    (SimulationRunner_init replayer engine0 l2 t2).
Proof.
  intros HL HT. apply alike_schedule. by repeat split.
Qed.

(** What two runs that end alike have in common. *)
Lemma alike_outputs (x : outcome (SimulationRunner L1 T1))
  (y : outcome (SimulationRunner L2 T2)) :
  outcome_rel (alike RL RT) x y →
  latency_samples (run_log x) = latency_samples (run_log y) ∧
  arrival_timestamps (run_log x) = arrival_timestamps (run_log y) ∧
  processed_orders (run_log x) = processed_orders (run_log y).
Proof.
  destruct x as [a| |], y as [b| |]; simpl; try done.
  intros (He & _ & _ & _ & Hc & _ & Hl). by rewrite Hl.
Qed.

End SchedulerAlike.

Section SchedulerClaims.
Import Simulation.

Lemma next_latency_ms_dropped {G : Type} `{Network.Generator G}
  (l : Network.LatencySimulator G) :
  Network.drop_probability (Network.config l) = 1%float →
  (∀ g, PrimFloat.ltb (fst (Network.random g)) 1 = true) →
  Network.next_latency_ms l
  = ((-1.0)%float,
     Network.mkLatencySimulator (Network.config l)
       (snd (Network.random (Network.rng l)))).
Proof.
  intros Hp Hu. unfold Network.next_latency_ms. rewrite Hp.
  specialize (Hu (Network.rng l)).
  destruct (Network.random (Network.rng l)) as [u g1]. simpl in *.
  by rewrite Hu.
Qed.

(** With drop probability 1.0, [_handle_market_event] takes the drop
    result -1.0 for a latency: the order is put on the event queue, to
    arrive one millisecond before the current time. *)
Lemma dropped_order_is_scheduled {G T : Type} `{Network.Generator G}
  `{Strategy T} (self : SimulationRunner (Network.LatencySimulator G) T)
  (market_event : MarketEvent) (order : Order) (strategy1 : T) :
  Network.drop_probability (Network.config (latency self)) = 1%float →
  (∀ g, PrimFloat.ltb (fst (Network.random g)) 1 = true) →
  on_market_update (strategy self)
    (apply_market_event (engine self) market_event)
  = (Some order, strategy1) →
  ∃ self',
    _handle_market_event self market_event = Returns self' ∧
    mkSimEvent (current_time self - 1000) (ORDER_ARRIVAL order)
      ∈ events self' ∧
    last (log self')
      = Some (LogNetwork (-1.0)%float (current_time self - 1000)).
Proof.
  intros Hp Hu Hs. unfold _handle_market_event. rewrite Hs.
  change (next_latency_ms (latency self))
    with (Network.next_latency_ms (latency self)).
  rewrite (next_latency_ms_dropped _ Hp Hu).
  change (int_of_float (-1.0 * 1000)%float) with (Returns (-1000) : outcome Z).
  eexists. split; [done|]. simpl. split.
  - rewrite heappush_perm. by left.
  - by rewrite last_snoc.
Qed.

Lemma network_same_latencies {G1 G2 : Type} `{Network.Generator G1}
  `{Network.Generator G2} (RG : G1 → G2 → Prop) :
  Network.same_draws RG → same_latencies (network_alike RG).
Proof.
  intros [_ Hrandom Hgamma] [c1 g1] [c2 g2] [Hc HR]. simpl in *. subst c2.
  unfold Network.next_latency_ms. simpl.
  destruct (Hrandom _ _ HR) as [Hu HR1].
  destruct (Network.random g1) as [u1 g1'].
  destruct (Network.random g2) as [u2 g2']. simpl in *. subst u2.
  destruct (PrimFloat.ltb u1 _); [by repeat split|].
  destruct (Hgamma 2.0%float (Network.jitter_scale c1) _ _ HR1) as [Hj HR2].
  destruct (Network.gamma _ _ g1') as [j1 g1''].
  destruct (Network.gamma _ _ g2') as [j2 g2'']. simpl in *. subst j2.
  by repeat split.
Qed.

Lemma simulator_same_latencies {R1 R2 : Type} `{PyRandom R1} `{PyRandom R2}
  (RR : R1 → R2 → Prop) :
  same_gauss RR → same_latencies (simulator_alike RR).
Proof.
  intros [_ Hgauss] [c1 g1] [c2 g2] [Hc HR]. simpl in *. subst c2.
  destruct (Hgauss (mean_latency_ms c1) (std_dev_latency_ms c1) _ _ HR)
    as [Hx HR1].
  destruct (gauss _ _ g1) as [x1 g1']. destruct (gauss _ _ g2) as [x2 g2'].
  simpl in *. subst x2. by repeat split.
Qed.

Lemma mock_run_loop {G1 G2 : Type} `{Network.Generator G1}
  `{Network.Generator G2} (RG : G1 → G2 → Prop) iterations
  (a : DeterminismTest.MockSimulation G1)
  (b : DeterminismTest.MockSimulation G2) current_time :
  Network.same_draws RG →
  RG (DeterminismTest.rng (DeterminismTest.latency_sim a))
     (DeterminismTest.rng (DeterminismTest.latency_sim b)) →
  DeterminismTest.execution_log a = DeterminismTest.execution_log b →
  DeterminismTest.execution_log
    (DeterminismTest.run_loop iterations a current_time)
  = DeterminismTest.execution_log
      (DeterminismTest.run_loop iterations b current_time).
Proof.
  intros Hd. revert a b current_time.
  induction iterations as [|n IH]; intros a b t HR Hlog; [done|].
  simpl. unfold DeterminismTest.next_latency.
  destruct (Network.sd_gamma _ Hd 2.0%float 0.5%float _ _ HR) as [Hx HR'].
  destruct (Network.gamma _ _ (DeterminismTest.rng _)) as [x1 g1].
  destruct (Network.gamma _ _ (DeterminismTest.rng _)) as [x2 g2].
  simpl in *. subst x2. apply IH; simpl; [done|by rewrite Hlog].
Qed.


Lemma recorded_same_draws {G : Type} `{Network.Generator G} :
  Network.same_draws (Network.recorded (G := G)).
Proof.
  constructor.
  - done.
  - intros g t <-. simpl. by destruct (Network.random (Network.inner t)).
  - intros shape scale g t <-. simpl.
    by destruct (Network.gamma shape scale (Network.inner t)).
Qed.

Lemma eq_same_gauss {R : Type} `{PyRandom R} : same_gauss (@eq R).
Proof. constructor; [done|]. by intros mu sigma r ? <-. Qed.

Lemma eq_same_orders {T : Type} `{Strategy T} : same_orders (@eq T).
Proof. by intros t ? engine <-. Qed.

(** C1.  Determinism.  Take two runs of the scheduler built from the same
    seed, the same replay sequence and the same strategy, each run with
    generator and strategy objects of its own: the generators of the two
    runs give the same draws from equal seeds, and the strategies answer
    alike.  Then the two runs end alike, with the same exception or with
    the same log (latency samples, arrival times, processed orders), the
    same engine, event queue and clock, and with generators and
    strategies that still answer alike; and a run always ends.  This holds
    with the latency model of [network.py] and with the one of
    [simulation.py]; the two runs of [test_reproducibility] return the
    same list as well. *)
Theorem determinism {G1 G2 R1 R2 T1 T2 : Type}
  `{Network.Generator G1} `{Network.Generator G2}
  `{PyRandom R1} `{PyRandom R2} `{Strategy T1} `{Strategy T2}
  (RG : G1 → G2 → Prop) (RR : R1 → R2 → Prop) (RT : T1 → T2 → Prop)
  (net_config : Network.NetworkConfig) (sim_config : NetworkConfig)
  (seed : Z) (replayer : MarketDataReplayer)
  (strategy_a : T1) (strategy_b : T2) (iterations : nat) :
  Network.same_draws RG → same_gauss RR → same_orders RT →
  RT strategy_a strategy_b →
  let run_a := run (SimulationRunner_init replayer MatchingEngine_init
                      (Network.LatencySimulator_init (G:=G1) net_config seed)
                      strategy_a) in
  let run_b := run (SimulationRunner_init replayer MatchingEngine_init
                      (Network.LatencySimulator_init (G:=G2) net_config seed)
                      strategy_b) in
  let run_c := run (SimulationRunner_init replayer MatchingEngine_init
                      (LatencySimulator_init (R:=R1) sim_config seed)
                      strategy_a) in
  let run_d := run (SimulationRunner_init replayer MatchingEngine_init
                      (LatencySimulator_init (R:=R2) sim_config seed)
                      strategy_b) in
  (run_a ≠ OutOfFuel ∧
   outcome_rel (alike (network_alike RG) RT) run_a run_b ∧
   latency_samples (run_log run_a) = latency_samples (run_log run_b) ∧
   arrival_timestamps (run_log run_a) = arrival_timestamps (run_log run_b) ∧
   processed_orders (run_log run_a) = processed_orders (run_log run_b)) ∧
  (run_c ≠ OutOfFuel ∧
   outcome_rel (alike (simulator_alike RR) RT) run_c run_d ∧
   latency_samples (run_log run_c) = latency_samples (run_log run_d) ∧
   arrival_timestamps (run_log run_c) = arrival_timestamps (run_log run_d) ∧
   processed_orders (run_log run_c) = processed_orders (run_log run_d)) ∧
  fst (DeterminismTest.run
         (DeterminismTest.MockSimulation_init (G:=G1) seed) iterations)
  = fst (DeterminismTest.run
           (DeterminismTest.MockSimulation_init (G:=G2) seed) iterations).
Proof.
  intros Hd Hg Ho Hs run_a run_b run_c run_d.
  assert (Hab : outcome_rel (alike (network_alike RG) RT) run_a run_b).
  { apply alike_run; [by apply network_same_latencies|done|].
    apply alike_init; [|done]. split; [done|]. apply (Network.sd_seed _ Hd). }
  assert (Hcd : outcome_rel (alike (simulator_alike RR) RT) run_c run_d).
  { apply alike_run; [by apply simulator_same_latencies|done|].
    apply alike_init; [|done]. split; [done|]. apply (sg_seed _ Hg). }
  pose proof (alike_outputs _ _ _ _ Hab) as (? & ? & ?).
  pose proof (alike_outputs _ _ _ _ Hcd) as (? & ? & ?).
  split; [by split_and!; [apply run_terminates|..]|].
  split; [by split_and!; [apply run_terminates|..]|].
  apply (mock_run_loop RG); [done| |done]. apply (Network.sd_seed _ Hd).
Qed.

(** The two strategies have to start alike.  A second run that is handed
    the strategy object of a first run, which has sent its order by then,
    processes no order, where the first run has processed one. *)
Lemma reused_strategy_differs :
  match run colo_runner with
  | Returns first =>
      processed_orders (log first) = [maker_order] ∧
      processed_orders
        (run_log
           (run (SimulationRunner_init MarketDataReplayer_init
                   MatchingEngine_init
                   (LatencySimulator_init (R := nat) colo_config 42)
                   (strategy first)))) = []
  | _ => False
  end.
Proof. vm_compute. split; reflexivity. Qed.

Lemma dropped_run_eq :
  match dropped_run with
  | Returns self =>
      take 6 (log self)
        = [ LogStart;
            LogMarket 1000 (mkMarketEvent 1000 ADD 1 9995 100 buy);
            LogNetwork (-1.0)%float 0;
            LogArrival 0;
            LogEngine (mkOrder 999 buy 10005 10 0);
            LogStatus "ACCEPTED" ] ∧
      orders (engine self) !! 999 = Some (mkOrder 999 buy 10005 10 0)
  | _ => False
  end.
Proof. vm_compute. repeat split. Qed.

(** C8, at the failing input.  The scheduler of [simulation.py] with the
    latency model of [network.py] at drop probability 1.0, the mock
    replay and [SimpleMarketMaker], on any generator whose uniform draws
    are below 1 and any seed: the order the strategy sends at time 1000
    is scheduled to arrive at time 0, arrives, and is processed by the
    engine. *)
Theorem dropped_order_reaches_engine {G : Type} `{Network.Generator G}
  (seed : Z) :
  (∀ g, PrimFloat.ltb (fst (Network.random g)) 1 = true) →
  ∃ self,
    lossy_run seed = Returns self ∧
    take 6 (log self)
      = [ LogStart;
          LogMarket 1000 (mkMarketEvent 1000 ADD 1 9995 100 buy);
          LogNetwork (-1.0)%float 0;
          LogArrival 0;
          LogEngine (mkOrder 999 buy 10005 10 0);
          LogStatus "ACCEPTED" ] ∧
    orders (engine self) !! 999 = Some (mkOrder 999 buy 10005 10 0).
Proof.
  intros Hu.
  pose proof (@related_run (Network.LatencySimulator G) unit
                SimpleMarketMaker _ dropped_model _
                (fun l _ => Network.drop_probability (Network.config l)
                            = 1%float)) as Hrel.
  specialize (Hrel ltac:(
    intros l1 [] Hp; simpl;
    change (next_latency_ms l1) with (Network.next_latency_ms l1);
    rewrite (next_latency_ms_dropped l1 Hp Hu); by split)).
  specialize (Hrel
    (SimulationRunner_init MarketDataReplayer_init MatchingEngine_init
       (Network.LatencySimulator_init Network.lossy_config seed)
       SimpleMarketMaker_init)
    (@SimulationRunner_init unit SimpleMarketMaker MarketDataReplayer_init
       MatchingEngine_init tt SimpleMarketMaker_init)
    ltac:(by repeat split)).
  fold (lossy_run seed) in Hrel. fold dropped_run in Hrel.
  pose proof dropped_run_eq as Hd.
  destruct dropped_run as [self2| |]; [|done..].
  destruct (lossy_run seed) as [self| |]; [|done..].
  destruct Hrel as (He & _ & _ & _ & _ & _ & Hl).
  exists self. split; [done|]. rewrite He, Hl. exact Hd.
Qed.

End SchedulerClaims.

(** ** One [process_order] call: trades, frame and result *)

Section EngineCalls.
Import Engine.

Lemma add_eq s l r o : l !! r = Some o → add s l r = Returns (rested s o r).
Proof. intros Hr. unfold add. by rewrite (deref_Some _ _ _ Hr). Qed.

Lemma trade_sum_app l1 l2 : trade_sum (l1 ++ l2) = trade_sum l1 + trade_sum l2.
Proof. induction l1 as [|a l1 IH]; simpl; lia. Qed.

Lemma taking_refl e0 t o :
  objs e0 !! t = Some o → taking e0 t o e0.
Proof.
  intros Ht. constructor; eauto 10.
  exists [], o. rewrite app_nil_r. simpl. split_and!; auto.
  - lia.
  - constructor.
  - intros tr p Htr. by apply elem_of_nil in Htr.
Qed.

Lemma StronglySorted_snoc {A} (R : A → A → Prop) l a :
  StronglySorted R l → Forall (fun x => R x a) l →
  StronglySorted R (l ++ [a]).
Proof.
  induction 1 as [|x l Hl IH Hx]; intros Ha; simpl.
  - repeat constructor.
  - apply Forall_cons in Ha as [Hxa Ha]. constructor; [by apply IH|].
    apply Forall_app. split; [done|]. by apply Forall_singleton.
Qed.

Lemma taking_step e0 t o e1 e2 :
  engine_ok e0 → loop_inv t o e1 → taking e0 t o e1 →
  match_step t e1 = Returns (Some e2) → taking e0 t o e2.
Proof.
  intros Hok0 [Hok Hfree (ot & Ht & Hsd & Hpr & Hid & Hq)]
         [(new & ot0 & Htr & Hnew & Ht0 & Hsum & Hsort & Hbest)
            Hfr Hqu Hst Hown] Hstep.
  assert (ot0 = ot) as -> by congruence.
  destruct (match_step_inv t e1 e2 Hok Hfree ltac:(eauto) Hstep)
    as (ot' & bp & m & rest & om & C & ->).
  pose proof (tc_taker _ _ _ _ _ _ _ C) as Ht'.
  assert (ot' = ot) as -> by congruence. clear Ht'.
  pose proof (tc_maker _ _ _ _ _ _ _ C) as Hm.
  pose proof (tc_ne _ _ _ _ _ _ _ C) as Hne.
  pose proof (tc_level _ _ _ _ _ _ _ C) as Hlv. rewrite Hsd in Hlv.
  set (q := Z.min (open_qty ot) (open_qty om)).
  destruct (Hqu _ _ Hlv) as (q0 & Hq0 & Hsub).
  assert (Hm0 : m ∈ q0) by (apply Hsub; by left).
  assert (Hlook : ∀ r, objs (next_state e1 t ot bp m rest om) !! r =
            if decide (r = t) then Some (fill ot q)
            else if decide (r = m) then Some (fill om q) else objs e1 !! r).
  { intros r. rewrite objs_next_state. by apply traded_lookup. }
  assert (Hlevels : ∀ p,
            is_Some (price_levels (book (next_state e1 t ot bp m rest om)
                                     (opposing_is_bid (side o))) !! p) →
            is_Some (price_levels (book e1 (opposing_is_bid (side o))) !! p)).
  { intros p [q' Hq']. rewrite <- Hsd in Hq'.
    destruct (next_state_queue _ _ _ _ _ _ _ _ _ _ C Hq')
      as [Hold|(_ & -> & _)]; [rewrite Hsd in Hold|]; eauto. }
  assert (Hbp : ∀ p,
            is_Some (price_levels (book e1 (opposing_is_bid (side o))) !! p) →
            heap_price (opposing_is_bid (side o)) bp
            ≤ heap_price (opposing_is_bid (side o)) p).
  { intros p Hp.
    pose proof (engine_ok_book e1 (opposing_is_bid (side o)) Hok) as Hs.
    pose proof (tc_best _ _ _ _ _ _ _ C) as Hb. rewrite Hsd in Hb.
    destruct (best_price_Some _ _ _ (ok_flag _ _ _ Hs) Hb) as (h & Hh).
    apply (heap_head_least _ _ h _ (ok_sorted _ _ _ Hs) Hh).
    by apply (ok_heap _ _ _ Hs). }
  constructor.
  - exists (new ++ [mkTrade bp q (id om) (id ot)]), (fill ot q).
    split_and!.
    + rewrite trades_next_state, Htr. by rewrite <- app_assoc.
    + apply Forall_app. split; [done|]. apply Forall_singleton.
      pose proof (tc_open _ _ _ _ _ _ _ C).
      pose proof (tc_maker_open _ _ _ _ _ _ _ C).
      pose proof (tc_match _ _ _ _ _ _ _ C) as Hma.
      split; [simpl; lia|]. split; [done|]. split.
      { simpl. unfold is_match in *. by rewrite <- Hsd, <- Hpr. }
      destruct (ok_resting _ _ _ (engine_ok_book e0 _ Hok0) _ _ _ Hq0 Hm0)
        as (om0 & Hom0 & Hp0 & _).
      destruct (Hst m om0 Hom0) as (o1 & Ho1 & Hi1 & _).
      assert (o1 = om) as -> by congruence.
      exists q0, m, om0. simpl. split_and!; auto.
    + rewrite Hlook. by rewrite decide_True.
    + change (filled_qty (fill ot q)) with (filled_qty ot + q).
      rewrite Hsum, trade_sum_app. simpl. lia.
    + apply StronglySorted_snoc; [done|]. apply Forall_forall.
      intros tr Hin. apply (Hbest tr bp Hin). by rewrite Hlv.
    + intros tr p [Hin|Hin%list_elem_of_singleton]%elem_of_app Hp.
      * apply (Hbest tr p Hin). by apply Hlevels.
      * subst tr. simpl. by apply Hbp, Hlevels.
  - intros r Hrt Hr. rewrite Hlook, decide_False by done.
    rewrite decide_False; [by apply Hfr|].
    intros ->. by apply (Hr _ _ Hq0).
  - intros p q' Hq'. rewrite <- Hsd in Hq'.
    destruct (next_state_queue _ _ _ _ _ _ _ _ _ _ C Hq')
      as [Hold|(_ & -> & -> & _)].
    + rewrite Hsd in Hold. by apply Hqu.
    + exists q0. split; [done|]. intros x Hx. apply Hsub. by right.
  - intros r o0 Hr. destruct (Hst r o0 Hr) as (o1 & Ho1 & ? & ? & ? & ? & ?).
    rewrite Hlook. repeat case_decide; subst.
    + exists (fill ot q). split; [done|].
      assert (o1 = ot) as -> by congruence. by split_and!.
    + exists (fill om q). split; [done|].
      assert (o1 = om) as -> by congruence. by split_and!.
    + exists o1. by split_and!.
  - rewrite <- Hown, <- Hsd. apply book_next_state_own.
Qed.

Lemma taking_steps e0 t o e1 e2 :
  engine_ok e0 → loop_inv t o e1 → taking e0 t o e1 →
  match_steps t e1 e2 → taking e0 t o e2.
Proof.
  intros Hok0 Hl Hk Hs. induction Hs as [|e1 e2 e3 Hstep Hs IH]; [done|].
  apply IH; [by eapply loop_inv_step|by eapply taking_step].
Qed.



(** What [process_order] returns, from the state [e1] in which the loop
    is left and the taker [ot] as it is then. *)
Lemma process_order_shape e o :
  engine_ok e →
  ∃ e1 ot,
    match_steps (length (objs e)) (submitted e o) e1 ∧
    loop_inv (length (objs e)) o e1 ∧
    taking (submitted e o) (length (objs e)) o e1 ∧
    objs e1 !! length (objs e) = Some ot ∧ exit_cond e1 ot ∧
    length (objs e1) = S (length (objs e)) ∧
    process_order e o =
      Returns (if 0 <? open_qty ot then
                 (set_book e1 (my_is_bid (side o))
                    (rested (book e1 (my_is_bid (side o))) ot
                       (length (objs e))),
                  "RESTING"%string)
               else (e1, "FILLED"%string)).
Proof.
  intros Hok. destruct (alloc_ok e o Hok) as (Hok0 & Hfree0 & Ht0).
  fold (submitted e o) in *.
  set (e0 := submitted e o) in *. set (t := length (objs e)) in *.
  destruct (match_loop_returns
              (S (resting_count
                    (price_levels (book e0 (opposing_is_bid (side o))))))
              e0 t o Hok0 Ht0 Hfree0 ltac:(left; lia))
    as (e1 & ot & Hl & Hs & Hok1 & Hfree1 & Ht1 & Hsd & Hp & Hid & Hex & _
        & Hlen).
  pose proof (loop_inv_submitted e o Hok) as Hli. fold e0 t in Hli.
  exists e1, ot. split_and!; auto.
  - by eapply loop_inv_steps.
  - eapply taking_steps; eauto. by apply taking_refl.
  - rewrite Hlen. unfold e0, submitted. simpl. rewrite length_app. simpl.
    unfold t. lia.
  - unfold process_order, process_order_at. fold (submitted e o). fold e0 t.
    rewrite (deref_Some _ _ _ Ht0), bind_Returns. cbv beta zeta.
    rewrite Hl, bind_Returns, (deref_Some _ _ _ Ht1), bind_Returns.
    destruct (0 <? open_qty ot); [|done].
    by rewrite (add_eq _ _ _ _ Ht1), bind_Returns.
Qed.

Lemma fair_trade_submitted e o tr :
  engine_ok e → fair_trade (submitted e o) o tr → fair_trade e o tr.
Proof.
  intros Hok (Hq & Hi & Hm & q & m & om & Hlv & Hin & Hom & Hid & Hp).
  unfold submitted in Hlv. rewrite book_set_objs in Hlv.
  split_and!; auto. exists q, m, om. split_and!; auto.
  destruct (ok_resting _ _ _ (engine_ok_book e _ Hok) _ _ _ Hlv Hin)
    as (om' & Hom' & _).
  simpl in Hom. rewrite (lookup_app_l_Some _ _ _ _ Hom') in Hom. congruence.
Qed.

Lemma rested_ext s o o' r :
  price o' = price o → id o' = id o → rested s o' r = rested s o r.
Proof. unfold rested. by intros -> ->. Qed.

(** The result of [process_order e o] over the book [e] it was given:
    the state [e1] in which the loop is left, the taker [ot] as it is
    then, and the value returned. *)
Lemma process_order_result e o :
  engine_ok e →
  ∃ e1 ot,
    taking (submitted e o) (length (objs e)) o e1 ∧
    engine_ok e1 ∧ length (objs e1) = S (length (objs e)) ∧
    objs e1 !! length (objs e) = Some ot ∧ exit_cond e1 ot ∧
    side ot = side o ∧ price ot = price o ∧ id ot = id o ∧
    qty ot = qty o ∧
    book e1 (my_is_bid (side o)) = book e (my_is_bid (side o)) ∧
    process_order e o =
      Returns (if 0 <? open_qty ot then
                 (set_book e1 (my_is_bid (side o))
                    (rested (book e (my_is_bid (side o))) o
                       (length (objs e))),
                  "RESTING"%string)
               else (e1, "FILLED"%string)).
Proof.
  intros Hok.
  destruct (process_order_shape e o Hok)
    as (e1 & ot & Hs & Hli & Htk & Ht & Hex & Hlen & Hp).
  destruct Hli as [Hok1 _ (ot' & Ht' & Hsd & Hpr & Hid & Hq)].
  assert (ot' = ot) as -> by congruence.
  assert (Hown : book e1 (my_is_bid (side o)) = book e (my_is_bid (side o))).
  { rewrite my_is_bid_negb, (tk_own _ _ _ _ Htk). unfold submitted.
    by rewrite book_set_objs. }
  exists e1, ot. split_and!; auto.
  by rewrite Hp, Hown, (rested_ext _ _ _ _ Hpr Hid).
Qed.



Lemma fair_trades_submitted e o new :
  engine_ok e → Forall (fair_trade (submitted e o) o) new →
  Forall (fair_trade e o) new.
Proof.
  intros Hok H. eapply Forall_impl; [exact H|].
  intros tr. by apply fair_trade_submitted.
Qed.

Lemma result_trades e1 o (ot : Order) s :
  trades (fst (if 0 <? open_qty ot
               then (set_book e1 (my_is_bid (side o)) s, "RESTING"%string)
               else (e1, "FILLED"%string))) = trades e1.
Proof. destruct (0 <? open_qty ot); simpl; [apply trades_set_book|done]. Qed.

Lemma result_objs e1 o (ot : Order) s :
  objs (fst (if 0 <? open_qty ot
             then (set_book e1 (my_is_bid (side o)) s, "RESTING"%string)
             else (e1, "FILLED"%string))) = objs e1.
Proof. destruct (0 <? open_qty ot); simpl; [apply objs_set_book|done]. Qed.

Lemma result_opposite e1 o (ot : Order) s :
  book (fst (if 0 <? open_qty ot
             then (set_book e1 (my_is_bid (side o)) s, "RESTING"%string)
             else (e1, "FILLED"%string))) (opposing_is_bid (side o))
  = book e1 (opposing_is_bid (side o)).
Proof.
  destruct (0 <? open_qty ot); simpl; [|done].
  replace (opposing_is_bid (side o)) with (negb (my_is_bid (side o)))
    by (by destruct (side o)).
  apply book_set_book_neg.
Qed.

(** X1.  Every trade that a [process_order] call records is appended to
    the trade log, has a positive quantity, names the incoming order as
    taker, and is made at the price of a level of the opposite side at
    which its maker was resting when the order came in, a price that the
    limit of the incoming order accepts. *)
Theorem trades_are_fair e o :
  reachable e →
  ∃ e' r new,
    process_order e o = Returns (e', r) ∧
    trades e' = trades e ++ new ∧
    Forall (fair_trade e o) new.
Proof.
  intros Hok%reachable_ok.
  destruct (process_order_result e o Hok)
    as (e1 & ot & Htk & _ & _ & _ & _ & _ & _ & _ & _ & _ & Hp).
  destruct (tk_trades _ _ _ _ Htk) as (new & ot' & Htr & Hfair & _).
  eexists _, _, new. split; [rewrite Hp; f_equal; apply surjective_pairing|].
  rewrite (result_trades e1 o ot). split; [done|].
  by apply fair_trades_submitted.
Qed.

(** X2.  Price priority: the trades of one [process_order] call are made
    in the order of the opposite side's prices, best first (lowest ask
    first for a buy, highest bid first for a sell), and none is made at a
    price worse than that of a level still resting on the opposite side
    when the call returns. *)
Theorem price_priority e o :
  reachable e →
  ∃ e' r new,
    process_order e o = Returns (e', r) ∧
    trades e' = trades e ++ new ∧
    StronglySorted (no_worse (opposing_is_bid (side o))) new ∧
    ∀ tr p, tr ∈ new →
      is_Some (price_levels (book e' (opposing_is_bid (side o))) !! p) →
      heap_price (opposing_is_bid (side o)) (trade_price tr)
      ≤ heap_price (opposing_is_bid (side o)) p.
Proof.
  intros Hok%reachable_ok.
  destruct (process_order_result e o Hok)
    as (e1 & ot & Htk & _ & _ & _ & _ & _ & _ & _ & _ & _ & Hp).
  destruct (tk_trades _ _ _ _ Htk)
    as (new & ot' & Htr & _ & _ & _ & Hsort & Hbest).
  eexists _, _, new. split; [rewrite Hp; f_equal; apply surjective_pairing|].
  rewrite (result_trades e1 o ot), (result_opposite e1 o ot).
  by split_and!.
Qed.

(** X3.  The incoming order is filled by exactly the quantity of the
    trades the call records: its object, the last of the store, keeps its
    id, side, price and quantity, and its [filled_qty] has grown by the
    sum of the quantities of the new trades. *)
Theorem taker_filled_by_trades e o :
  reachable e →
  ∃ e' r new ot,
    process_order e o = Returns (e', r) ∧
    trades e' = trades e ++ new ∧
    objs e' !! length (objs e) = Some ot ∧
    filled_qty ot = filled_qty o + trade_sum new ∧
    id ot = id o ∧ side ot = side o ∧ price ot = price o ∧ qty ot = qty o.
Proof.
  intros Hok%reachable_ok.
  destruct (process_order_result e o Hok)
    as (e1 & ot & Htk & _ & _ & Ht & _ & Hsd & Hpr & Hid & Hq & _ & Hp).
  destruct (tk_trades _ _ _ _ Htk) as (new & ot' & Htr & _ & Ht' & Hsum & _).
  assert (ot' = ot) as -> by congruence.
  eexists _, _, new, ot. split; [rewrite Hp; f_equal; apply surjective_pairing|].
  rewrite (result_trades e1 o ot), (result_objs e1 o ot).
  by split_and!.
Qed.

(** X4.  Frame: a [process_order] call adds one object to the store, the
    incoming order, and changes no other object than orders that were
    resting on the opposite side; of those it changes neither id, side,
    price, quantity nor timestamp. *)
Theorem process_order_frame e o :
  reachable e →
  ∃ e' r,
    process_order e o = Returns (e', r) ∧
    length (objs e') = S (length (objs e)) ∧
    ∀ x o0, objs e !! x = Some o0 →
      ∃ o1, objs e' !! x = Some o1 ∧
        id o1 = id o0 ∧ side o1 = side o0 ∧ price o1 = price o0 ∧
        qty o1 = qty o0 ∧ timestamp o1 = timestamp o0 ∧
        ((∀ p q, price_levels (book e (opposing_is_bid (side o))) !! p
                 = Some q → x ∉ q) → o1 = o0).
Proof.
  intros Hok%reachable_ok.
  destruct (process_order_result e o Hok)
    as (e1 & ot & Htk & _ & Hlen & _ & _ & _ & _ & _ & _ & _ & Hp).
  eexists _, _. split; [rewrite Hp; f_equal; apply surjective_pairing|].
  rewrite (result_objs e1 o ot). split; [done|].
  intros x o0 Hx.
  assert (Hx0 : objs (submitted e o) !! x = Some o0)
    by (by apply lookup_app_l_Some).
  destruct (tk_static _ _ _ _ Htk x o0 Hx0)
    as (o1 & Ho1 & ? & ? & ? & ? & ?).
  exists o1. split_and!; auto. intros Hfree.
  assert (Hne : x ≠ length (objs e)).
  { apply lookup_lt_Some in Hx. lia. }
  assert (Hsame : objs e1 !! x = objs (submitted e o) !! x).
  { apply (tk_frame _ _ _ _ Htk); [done|]. unfold submitted.
    by rewrite book_set_objs. }
  congruence.
Qed.

(** X5.  The meaning of the two return values.  [RESTING]: the order has
    open quantity left and has been appended to the queue of its price on
    its own side, indexed by its id, and no price of the opposite side
    that its limit accepts is left.  [FILLED]: the order has no open
    quantity left and its own side is as it was. *)
Theorem return_value_meaning e o :
  reachable e →
  ∃ e' r ot,
    process_order e o = Returns (e', r) ∧
    objs e' !! length (objs e) = Some ot ∧
    ((r = "RESTING"%string ∧ 0 < open_qty ot ∧
      book e' (my_is_bid (side o))
        = rested (book e (my_is_bid (side o))) o (length (objs e)) ∧
      ∀ p, is_Some (price_levels (book e' (opposing_is_bid (side o))) !! p) →
           is_match o p = false) ∨
     (r = "FILLED"%string ∧ open_qty ot ≤ 0 ∧
      book e' (my_is_bid (side o)) = book e (my_is_bid (side o)))).
Proof.
  intros Hok%reachable_ok.
  destruct (process_order_result e o Hok)
    as (e1 & ot & Htk & Hok1 & _ & Ht & Hex & Hsd & Hpr & _ & _ & Hown & Hp).
  rewrite Hp. destruct (0 <? open_qty ot) eqn:Hopen.
  - apply Z.ltb_lt in Hopen. eexists _, _, ot. split; [done|].
    rewrite objs_set_book. split; [done|]. left.
    rewrite book_set_book. split_and!; auto.
    intros p Hlv.
    replace (opposing_is_bid (side o)) with (negb (my_is_bid (side o))) in Hlv
      by (by destruct (side o)).
    rewrite book_set_book_neg in Hlv.
    replace (negb (my_is_bid (side o))) with (opposing_is_bid (side ot)) in Hlv
      by (rewrite Hsd; by destruct (side o)).
    pose proof (exit_cond_uncrossed e1 ot p Hok1 Hex Hopen Hlv) as Hlt.
    destruct (is_match o p) eqn:Hm; [|done].
    apply is_match_heap_price in Hm. rewrite Hsd, Hpr in Hlt. lia.
  - apply Z.ltb_ge in Hopen. eexists _, _, ot. split; [done|].
    split; [done|]. right. by split_and!.
Qed.



Lemma open_sum_ext l1 l2 q :
  (∀ r, r ∈ q → l1 !! r = l2 !! r) → open_sum l1 q = open_sum l2 q.
Proof.
  induction q as [|r q IH]; intros H; simpl; [done|].
  rewrite (H r) by (by left). rewrite IH; [done|].
  intros x Hx. apply H. by right.
Qed.

Lemma level_elem (lv : gmap Z (list ref)) p x :
  x ∈ level lv p → ∃ q, lv !! p = Some q ∧ x ∈ q.
Proof.
  unfold level. destruct (lv !! p) as [q0|]; simpl; [eauto|].
  by intros ?%elem_of_nil.
Qed.

Lemma opposing_negb s : opposing_is_bid s = negb (my_is_bid s).
Proof. by destruct s. Qed.

(** X6.  After an order has been answered [RESTING], the queue position
    of its id on its own side is the open quantity that was resting at
    its price before it came, provided no order of that queue has the
    same id. *)
Theorem queue_position_after_resting e o e' :
  reachable e →
  process_order e o = Returns (e', "RESTING"%string) →
  (∀ x o0, x ∈ level (price_levels (book e (my_is_bid (side o)))) (price o) →
           objs e !! x = Some o0 → id o0 ≠ id o) →
  get_queue_position (book e' (my_is_bid (side o))) (objs e') (id o)
  = Returns (open_sum (objs e)
               (level (price_levels (book e (my_is_bid (side o)))) (price o)),
             book e' (my_is_bid (side o))).
Proof.
  intros Hok%reachable_ok Hret Hfresh.
  destruct (process_order_result e o Hok)
    as (e1 & ot & Htk & Hok1 & _ & Ht & _ & Hsd & Hpr & Hid & _ & _ & Hp).
  rewrite Hp in Hret.
  destruct (0 <? open_qty ot); [|discriminate Hret].
  injection Hret as <-. rewrite book_set_book, objs_set_book.
  set (front := level (price_levels (book e (my_is_bid (side o)))) (price o)).
  assert (Hfront : ∀ x, x ∈ front →
            ∃ o0, objs e !! x = Some o0 ∧ objs e1 !! x = Some o0).
  { intros x Hx. destruct (level_elem _ _ _ Hx) as (q & Hq & Hxq).
    destruct (ok_resting _ _ _ (engine_ok_book e _ Hok) _ _ _ Hq Hxq)
      as (o0 & Hx0 & _ & Hs0 & _).
    exists o0. split; [done|].
    rewrite (tk_frame _ _ _ _ Htk).
    - by apply lookup_app_l_Some.
    - apply lookup_lt_Some in Hx0. lia.
    - unfold submitted. rewrite book_set_objs. intros p q' Hq' Hin.
      destruct (ok_resting _ _ _ (engine_ok_book e _ Hok) _ _ _ Hq' Hin)
        as (o0' & Hx0' & _ & Hs0' & _).
      assert (o0' = o0) as -> by congruence.
      rewrite opposing_negb in Hs0'.
      apply (side_of_negb (my_is_bid (side o))). congruence. }
  rewrite (queue_position_resting _ (objs e1) (id o) (length (objs e)) ot
             front []).
  - f_equal. f_equal. apply open_sum_ext. intros x Hx.
    destruct (Hfront x Hx) as (o0 & -> & ->). done.
  - unfold rested. simpl. by rewrite lookup_insert_eq.
  - done.
  - unfold rested. simpl. rewrite Hpr. by rewrite lookup_insert_eq.
  - intros x Hx. destruct (Hfront x Hx) as (o0 & Hx0 & Hx1).
    exists o0. split; [done|]. rewrite Hid. by eapply Hfresh.
Qed.

(** X7.  On every book built by [process_order] calls, [best_price] of a
    side is [None] exactly when the side has no price level, and
    otherwise the price of one of its levels that no other level beats:
    the highest bid, the lowest ask. *)
Theorem best_price_is_best e b :
  reachable e →
  match best_price (book e b) with
  | None => price_levels (book e b) = ∅
  | Some bp =>
      is_Some (price_levels (book e b) !! bp) ∧
      ∀ p, is_Some (price_levels (book e b) !! p) →
           if b then p ≤ bp else bp ≤ p
  end.
Proof.
  intros Hok%reachable_ok.
  pose proof (engine_ok_book e b Hok) as Hs.
  destruct (best_price (book e b)) as [bp|] eqn:Hb.
  - split; [by eapply best_price_level|]. intros p Hp.
    destruct (best_price_Some _ _ _ (ok_flag _ _ _ Hs) Hb) as (h & Hh).
    pose proof (heap_head_least _ _ h (heap_price b p)
                  (ok_sorted _ _ _ Hs) Hh) as Hle.
    specialize (Hle ltac:(by apply (ok_heap _ _ _ Hs))).
    unfold heap_price in Hle. destruct b; lia.
  - apply best_price_None in Hb. apply map_eq. intros p.
    rewrite lookup_empty. apply eq_None_not_Some. intros Hp.
    apply (ok_heap _ _ _ Hs) in Hp. rewrite Hb in Hp.
    by apply elem_of_nil in Hp.
Qed.

(** X8.  A marketable order trades: when the incoming order has open
    quantity and its limit accepts the best price of the opposite side,
    the first trade of the call is made at that price with the order at
    the head of that level's queue, for the smaller of the two open
    quantities. *)
Theorem marketable_order_trades e o bp :
  reachable e → 0 < open_qty o →
  best_price (book e (opposing_is_bid (side o))) = Some bp →
  is_match o bp = true →
  ∃ e' r m rest om more,
    process_order e o = Returns (e', r) ∧
    price_levels (book e (opposing_is_bid (side o))) !! bp
      = Some (m :: rest) ∧
    objs e !! m = Some om ∧
    trades e' = trades e ++
      mkTrade bp (Z.min (open_qty o) (open_qty om)) (id om) (id o) :: more.
Proof.
  intros Hok%reachable_ok Hopen Hbest Hmatch.
  destruct (process_order_shape e o Hok)
    as (e1 & ot & Hs & _ & _ & Ht & Hex & _ & Hp).
  pose proof (loop_inv_submitted e o Hok) as Hli.
  destruct (alloc_ok e o Hok) as (Hok0 & Hfree0 & Ht0).
  fold (submitted e o) in *.
  assert (Hb0 : best_price (book (submitted e o) (opposing_is_bid (side o)))
                = Some bp)
    by (unfold submitted; by rewrite book_set_objs).
  inversion Hs as [e0 He0 He1|e0 ea e1' Hstep Hs' He0 He1]; subst.
  { exfalso. assert (ot = o) as -> by congruence.
    destruct Hex as [?|[Hn|(bp' & Hb' & Hm')]]; [lia|congruence|].
    congruence. }
  destruct (match_step_cases _ _ o Hok0 Ht0 Hfree0)
    as [[_ Hnone]|(bp' & m & rest & om & C & Hsome)]; [congruence|].
  assert (ea = next_state (submitted e o) (length (objs e)) o bp' m rest om)
    as -> by congruence.
  assert (bp' = bp) as ->.
  { pose proof (tc_best _ _ _ _ _ _ _ C). congruence. }
  pose proof (loop_inv_step _ _ _ _ Hli Hstep) as Hli1.
  destruct Hli1 as [Hok1 Hfree1 (oa & Hta & Ha)].
  assert (Hlia : loop_inv (length (objs e)) oa
            (next_state (submitted e o) (length (objs e)) o bp m rest om)).
  { constructor; eauto 10. }
  destruct (tk_trades _ _ _ _
              (taking_steps _ _ oa _ _ Hok1 Hlia
                 (taking_refl _ _ _ Hta) Hs'))
    as (more & _ & Htr & _).
  pose proof (tc_level _ _ _ _ _ _ _ C) as Hlv.
  unfold submitted in Hlv. rewrite book_set_objs in Hlv.
  pose proof (tc_maker _ _ _ _ _ _ _ C) as Hm.
  destruct (ok_resting _ _ _ (engine_ok_book e _ Hok) _ _ _ Hlv
              ltac:(by left)) as (om' & Hm' & _).
  assert (om' = om) as ->.
  { simpl in Hm. rewrite (lookup_app_l_Some _ _ _ _ Hm') in Hm. congruence. }
  eexists _, _, m, rest, om, more.
  split; [rewrite Hp; f_equal; apply surjective_pairing|].
  split; [done|]. split; [done|].
  rewrite (result_trades e1 o ot), Htr, trades_next_state.
  by rewrite <- app_assoc.
Qed.





(** X10.  A hazard of [get_queue_position]: asked about an indexed order
    whose price has no level any more (a filled order stays in the
    index), it answers 0 and creates an empty level at that price without
    pushing the price on the heap.  An order added at that price
    afterwards rests in that level, but the heap, and so [best_price], is
    as it was: matching cannot see the order. *)
Theorem queue_position_hides_level s l i tr target r o :
  orders s !! i = Some tr → l !! tr = Some target →
  price_levels s !! price target = None →
  l !! r = Some o → price o = price target →
  ∃ s1 s2,
    get_queue_position s l i = Returns (0, s1) ∧
    add s1 l r = Returns s2 ∧
    price_levels s2 !! price o = Some [r] ∧
    price_heap s2 = price_heap s ∧ best_price s2 = best_price s.
Proof.
  intros Hi Htr Hlv Hr Hp.
  unfold get_queue_position. rewrite Hi, (deref_Some _ _ _ Htr), bind_Returns.
  cbv zeta. unfold level, touch. rewrite Hlv. simpl.
  eexists _, _. split; [reflexivity|].
  rewrite (add_eq _ _ _ _ Hr). split; [reflexivity|].
  unfold rested, level, best_price. simpl.
  rewrite Hp, !lookup_insert_eq. by simpl.
Qed.

(** X11.  On every book built by [process_order] calls, a price level is
    never empty and never holds an order twice, and every order resting
    in it has open quantity left, the price of the level and the side of
    the book. *)
Theorem resting_orders_are_open e b p q :
  reachable e → price_levels (book e b) !! p = Some q →
  q ≠ [] ∧ NoDup q ∧
  ∀ x, x ∈ q →
    ∃ o, objs e !! x = Some o ∧ price o = p ∧ side o = side_of b ∧
         0 < open_qty o.
Proof.
  intros Hok%reachable_ok Hq.
  pose proof (engine_ok_book e b Hok) as Hs.
  destruct (ok_queue _ _ _ Hs _ _ Hq). split_and!; auto.
  intros x Hx. by apply (ok_resting _ _ _ Hs _ _ _ Hq Hx).
Qed.

(** X12.  A passive order: an order with open quantity whose limit does
    not accept the best price of the opposite side (or that finds the
    opposite side empty) is answered [RESTING] without any trade, and is
    appended to the queue of its price on its own side; nothing else
    changes. *)
Theorem passive_order_rests e o :
  0 < open_qty o →
  (∀ bp, best_price (book e (opposing_is_bid (side o))) = Some bp →
         is_match o bp = false) →
  process_order e o =
    Returns (set_book (submitted e o) (my_is_bid (side o))
               (rested (book e (my_is_bid (side o))) o (length (objs e))),
             "RESTING"%string).
Proof.
  intros Hopen Hbest.
  assert (Ht : objs (submitted e o) !! length (objs e) = Some o).
  { unfold submitted. simpl. by rewrite lookup_app_r, Nat.sub_diag. }
  unfold process_order, process_order_at. fold (submitted e o).
  rewrite (deref_Some _ _ _ Ht), bind_Returns. cbv beta zeta.
  assert (Hstep : match_step (length (objs e)) (submitted e o)
                  = Returns None).
  { apply (match_step_break _ _ o Ht). right.
    unfold submitted. rewrite book_set_objs.
    destruct (best_price (book e (opposing_is_bid (side o)))) as [bp|] eqn:E;
      [right; eauto|by left]. }
  unfold match_loop. rewrite Hstep, !bind_Returns.
  rewrite (deref_Some _ _ _ Ht), bind_Returns.
  apply Z.ltb_lt in Hopen. rewrite Hopen.
  rewrite (add_eq _ _ _ _ Ht), bind_Returns.
  unfold submitted at 2. by rewrite book_set_objs.
Qed.

End EngineCalls.

(** ** Price-time priority *)

Section PriceTimePriority.
Import Engine.

Lemma match_steps_exit t e e' :
  match_steps t e e' → match_step t e = Returns None → e' = e.
Proof. intros Hs Hn. destruct Hs as [|e e1 e2 Hstep _]; [done|congruence]. Qed.

Lemma match_steps_next t e e1 e' ot' :
  match_steps t e e' → match_step t e = Returns (Some e1) →
  objs e' !! t = Some ot' → exit_cond e' ot' →
  match_steps t e1 e'.
Proof.
  intros Hs Hstep Ht Hex. inversion Hs as [|? e2 ? Hstep2 Hs2]; subst.
  - rewrite (match_step_break _ _ _ Ht Hex) in Hstep. discriminate.
  - congruence.
Qed.

(** A pass of the loop at a taker with open quantity, whose limit accepts
    the best opposite price: it trades with the head of that level. *)
Lemma match_step_head e t ot p m rest om :
  engine_ok e → not_resting e t → objs e !! t = Some ot → 0 < open_qty ot →
  best_price (book e (opposing_is_bid (side ot))) = Some p →
  is_match ot p = true →
  price_levels (book e (opposing_is_bid (side ot))) !! p = Some (m :: rest) →
  objs e !! m = Some om →
  trade_ctx e t ot p m rest om ∧
  match_step t e = Returns (Some (next_state e t ot p m rest om)).
Proof.
  intros Hok Hfree Ht Hopen Hbest Hmatch Hlv Hm.
  destruct (match_step_cases e t ot Hok Ht Hfree)
    as [[Hex _]|(bp & m' & rest' & om' & C & Hstep)].
  { exfalso. destruct Hex as [?|[?|(bp & Hb & Hn)]]; [lia|congruence|].
    congruence. }
  pose proof (tc_best _ _ _ _ _ _ _ C) as Hb.
  assert (bp = p) as -> by congruence.
  pose proof (tc_level _ _ _ _ _ _ _ C) as Hl.
  assert (m' = m ∧ rest' = rest) as [-> ->] by (split; congruence).
  pose proof (tc_maker _ _ _ _ _ _ _ C) as Hm'.
  assert (om' = om) as -> by congruence.
  done.
Qed.

Lemma best_price_popleft s bp rest :
  best_price (popleft s bp rest) = best_price s.
Proof. done. Qed.

Lemma two_in_line e o p r1 r2 rest o1 o2 :
  engine_ok e →
  best_price (book e (opposing_is_bid (side o))) = Some p →
  price_levels (book e (opposing_is_bid (side o))) !! p
    = Some (r1 :: r2 :: rest) →
  objs e !! r1 = Some o1 → objs e !! r2 = Some o2 →
  is_match o p = true →
  0 < open_qty o < open_qty o1 + open_qty o2 →
  ∃ e', process_order e o = Returns (e', "FILLED"%string) ∧
    objs e' !! r1 = Some (fill o1 (Z.min (open_qty o) (open_qty o1))) ∧
    if decide (open_qty o ≤ open_qty o1) then
      trades e' = trades e ++ [mkTrade p (open_qty o) (id o1) (id o)] ∧
      objs e' !! r2 = Some o2
    else
      trades e' = trades e ++
        [mkTrade p (open_qty o1) (id o1) (id o);
         mkTrade p (open_qty o - open_qty o1) (id o2) (id o)] ∧
      objs e' !! r2 = Some (fill o2 (open_qty o - open_qty o1)).
Proof.
  intros Hok Hbest Hlv Hr1 Hr2 Hmatch [Hq Hqab].
  set (t := length (objs e)).
  destruct (alloc_ok e o Hok) as (Hok0 & Hfree0 & Ht0).
  fold (submitted e o) in Hok0, Hfree0, Ht0. fold t in Hfree0, Ht0.
  pose proof (engine_ok_book e (opposing_is_bid (side o)) Hok) as Hs.
  destruct (ok_queue _ _ _ Hs _ _ Hlv) as [_ Hnd].
  assert (Hne12 : r1 ≠ r2).
  { intros ->. apply NoDup_cons in Hnd as [Hnin _]. apply Hnin. by left. }
  assert (Hb0 : ∀ b, book (submitted e o) b = book e b)
    by (intros b; apply book_set_objs).
  assert (Hin0 : ∀ r x, objs e !! r = Some x →
                        objs (submitted e o) !! r = Some x).
  { intros r x Hr. simpl. by apply lookup_app_l_Some. }
  assert (Hnet : ∀ r x, objs e !! r = Some x → r ≠ t).
  { intros r x Hr%lookup_lt_Some. unfold t. lia. }
  pose proof (Hnet _ _ Hr1) as Hne1. pose proof (Hnet _ _ Hr2) as Hne2.
  destruct (match_step_head (submitted e o) t o p r1 (r2 :: rest) o1
              Hok0 Hfree0 Ht0 Hq ltac:(by rewrite Hb0) Hmatch
              ltac:(by rewrite Hb0) (Hin0 _ _ Hr1)) as [C1 Hstep1].
  set (e1 := next_state (submitted e o) t o p r1 (r2 :: rest) o1) in *.
  destruct (process_order_shape e o Hok)
    as (ef & otf & Hsteps & _ & _ & Htf & Hex & _ & Hpo).
  fold t in Hsteps, Htf.
  pose proof (match_steps_next _ _ _ _ _ Hsteps Hstep1 Htf Hex) as Hsteps1.
  pose proof (taker_next_state _ _ _ _ _ _ _ C1) as Ht1. fold e1 in Ht1.
  assert (Hlook1 : ∀ r, objs e1 !! r =
            if decide (r = t)
            then Some (fill o (Z.min (open_qty o) (open_qty o1)))
            else if decide (r = r1)
                 then Some (fill o1 (Z.min (open_qty o) (open_qty o1)))
                 else objs (submitted e o) !! r).
  { intros r. unfold e1. rewrite objs_next_state.
    apply traded_lookup; [by apply Hin0|done|done]. }
  assert (Htr1 : trades e1 = trades e ++
            [mkTrade p (Z.min (open_qty o) (open_qty o1)) (id o1) (id o)]).
  { unfold e1. by rewrite trades_next_state. }
  destruct (decide (open_qty o ≤ open_qty o1)) as [Hle|Hgt].
  - (* the first order takes all of the incoming one *)
    assert (Hmin : Z.min (open_qty o) (open_qty o1) = open_qty o) by lia.
    rewrite Hmin in *.
    assert (Hnone : match_step t e1 = Returns None).
    { apply (match_step_break _ _ _ Ht1). left. rewrite fill_open. lia. }
    pose proof (match_steps_exit _ _ _ Hsteps1 Hnone) as ->.
    assert (otf = fill o (open_qty o)) as -> by congruence.
    rewrite fill_open in Hpo.
    replace (0 <? open_qty o - open_qty o) with false in Hpo
      by (symmetry; apply Z.ltb_ge; lia).
    exists e1. split; [done|]. split_and!.
    + rewrite Hlook1. by rewrite decide_False, decide_True.
    + done.
    + rewrite Hlook1, !decide_False by done. by apply Hin0.
  - (* the first order is consumed, the remainder reaches the second *)
    assert (Hmin : Z.min (open_qty o) (open_qty o1) = open_qty o1) by lia.
    rewrite Hmin in *.
    destruct (next_state_ok _ _ _ _ _ _ _ C1) as [Hok1 Hfree1].
    fold e1 in Hok1, Hfree1.
    assert (Hzero : (open_qty o1 - Z.min (open_qty o) (open_qty o1) =? 0) = true)
      by (apply Z.eqb_eq; lia).
    assert (Hbook1 : book e1 (opposing_is_bid (side o))
              = popleft (book e (opposing_is_bid (side o))) p (r2 :: rest)).
    { unfold e1. rewrite book_next_state_opp, Hzero, Hb0.
      by rewrite (pop_level _ _ _ _ _ _ Hs Hbest Hlv). }
    assert (Hside1 : side (fill o (open_qty o1)) = side o) by done.
    destruct (match_step_head e1 t (fill o (open_qty o1)) p r2 rest o2
                Hok1 Hfree1 Ht1) as [C2 Hstep2].
    + rewrite fill_open. lia.
    + by rewrite Hside1, Hbook1.
    + done.
    + rewrite Hside1, Hbook1. simpl. by rewrite lookup_insert_eq.
    + rewrite Hlook1, !decide_False by done. by apply Hin0.
    + set (e2 := next_state e1 t (fill o (open_qty o1)) p r2 rest o2) in *.
      pose proof (match_steps_next _ _ _ _ _ Hsteps1 Hstep2 Htf Hex)
        as Hsteps2.
      pose proof (taker_next_state _ _ _ _ _ _ _ C2) as Ht2. fold e2 in Ht2.
      rewrite fill_open in Ht2.
      assert (Hmin2 : Z.min (open_qty o - open_qty o1) (open_qty o2)
                      = open_qty o - open_qty o1) by lia.
      rewrite Hmin2 in Ht2.
      assert (Hnone : match_step t e2 = Returns None).
      { apply (match_step_break _ _ _ Ht2). left. rewrite !fill_open. lia. }
      pose proof (match_steps_exit _ _ _ Hsteps2 Hnone) as ->.
      assert (otf = fill (fill o (open_qty o1)) (open_qty o - open_qty o1))
        as -> by congruence.
      rewrite !fill_open in Hpo.
      replace (0 <? open_qty o - open_qty o1 - (open_qty o - open_qty o1))
        with false in Hpo by (symmetry; apply Z.ltb_ge; lia).
      assert (Hlook2 : ∀ r, objs e2 !! r =
                if decide (r = t)
                then Some (fill (fill o (open_qty o1))
                             (open_qty o - open_qty o1))
                else if decide (r = r2)
                     then Some (fill o2 (open_qty o - open_qty o1))
                     else objs e1 !! r).
      { intros r. unfold e2. rewrite objs_next_state, fill_open, Hmin2.
        apply traded_lookup; [|done|done].
        rewrite Hlook1, !decide_False by done. by apply Hin0. }
      exists e2. split; [done|]. split_and!.
      * rewrite Hlook2, !decide_False by done.
        rewrite Hlook1. by rewrite decide_False, decide_True.
      * unfold e2. rewrite trades_next_state, fill_open, Hmin2, Htr1.
        by rewrite <- app_assoc.
      * rewrite Hlook2. by rewrite decide_False, decide_True.
Qed.

(** C4.  Price-time priority.  Let [r1] stand before [r2] in the queue of
    a price level on the side opposite to an incoming order.  At every
    point of the matching loop, and when [process_order] has returned,
    either [r2] has not been touched or [r1] is fully filled.  When the
    two are the first of the queue at the best opposite price, the limit
    of the incoming order accepts that price and its quantity [q] is
    positive and below [a + b], the open quantities of the two, the call
    answers FILLED: [r1] receives [Z.min q a]; with [q <= a] this is the
    only trade and [r2] is untouched, and otherwise [r1] is consumed in
    full by a first trade of [a] and a second trade gives [q - a] to
    [r2]. *)
Theorem price_time_priority e o p queue i j r1 r2 o1 o2 :
  reachable e →
  price_levels (book e (opposing_is_bid (side o))) !! p = Some queue →
  queue !! i = Some r1 → queue !! j = Some r2 → (i < j)%nat →
  objs e !! r1 = Some o1 → objs e !! r2 = Some o2 →
  (∀ e1, match_steps (length (objs e)) (submitted e o) e1 →
     objs e1 !! r2 = Some o2 ∨
     ∃ o1', objs e1 !! r1 = Some o1' ∧ open_qty o1' = 0) ∧
  ∃ e' r new,
    process_order e o = Returns (e', r) ∧ trades e' = trades e ++ new ∧
    (objs e' !! r2 = Some o2 ∨
     ∃ o1', objs e' !! r1 = Some o1' ∧ open_qty o1' = 0) ∧
    (i = 0%nat → j = 1%nat →
     best_price (book e (opposing_is_bid (side o))) = Some p →
     is_match o p = true →
     0 < open_qty o < open_qty o1 + open_qty o2 →
     r = "FILLED"%string ∧
     objs e' !! r1 = Some (fill o1 (Z.min (open_qty o) (open_qty o1))) ∧
     if decide (open_qty o ≤ open_qty o1) then
       new = [mkTrade p (open_qty o) (id o1) (id o)] ∧
       objs e' !! r2 = Some o2
     else
       new = [mkTrade p (open_qty o1) (id o1) (id o);
              mkTrade p (open_qty o - open_qty o1) (id o2) (id o)] ∧
       objs e' !! r2 = Some (fill o2 (open_qty o - open_qty o1))).
Proof.
  intros Hr Hq Hi Hj Hij Hr1 Hr2. apply reachable_ok in Hr.
  pose proof (engine_ok_book e (opposing_is_bid (side o)) Hr) as Hs.
  destruct (ok_queue _ _ _ Hs _ _ Hq) as [_ Hnd].
  assert (Htq : length (objs e) ∉ queue).
  { intros Hin.
    destruct (ok_resting _ _ _ Hs _ _ _ Hq Hin) as (o' & Ho' & _).
    apply lookup_lt_Some in Ho'. lia. }
  assert (Hall : ∀ e1, match_steps (length (objs e)) (submitted e o) e1 →
     objs e1 !! r2 = Some o2 ∨
     ∃ o1', objs e1 !! r1 = Some o1' ∧ open_qty o1' = 0).
  { intros e1 Hst. rewrite <- Hr2.
    destruct (fifo_inv_steps e (submitted e o) e1 _ o p queue 0
                (loop_inv_submitted e o Hr) Hnd Htq
                (fifo_inv_submitted e o p queue Hr Hq) Hst) as [k Hf].
    by eapply fifo_priority. }
  split; [exact Hall|].
  destruct (process_order_shape e o Hr)
    as (e1 & ot & Hst & _ & Htk & _ & _ & _ & Hp).
  destruct (tk_trades _ _ _ _ Htk) as (new & _ & Hnew & _).
  simpl in Hnew.
  assert (Hfirst : ∀ e' r, process_order e o = Returns (e', r) →
    objs e' = objs e1 → trades e' = trades e1 →
    i = 0%nat → j = 1%nat →
    best_price (book e (opposing_is_bid (side o))) = Some p →
    is_match o p = true →
    0 < open_qty o < open_qty o1 + open_qty o2 →
    r = "FILLED"%string ∧
    objs e' !! r1 = Some (fill o1 (Z.min (open_qty o) (open_qty o1))) ∧
    if decide (open_qty o ≤ open_qty o1) then
      new = [mkTrade p (open_qty o) (id o1) (id o)] ∧
      objs e' !! r2 = Some o2
    else
      new = [mkTrade p (open_qty o1) (id o1) (id o);
             mkTrade p (open_qty o - open_qty o1) (id o2) (id o)] ∧
      objs e' !! r2 = Some (fill o2 (open_qty o - open_qty o1))).
  { intros e' r Hp' Hobjs Htrades -> -> Hbest Hmatch Hopen.
    destruct queue as [|x [|y rest]]; simpl in Hi, Hj; try discriminate.
    injection Hi as ->. injection Hj as ->.
    destruct (two_in_line e o p r1 r2 rest o1 o2 Hr Hbest Hq Hr1 Hr2
                Hmatch Hopen) as (e2 & Hp2 & Ho1 & Hcase).
    rewrite Hp' in Hp2. injection Hp2 as -> ->.
    split; [done|]. split; [done|].
    rewrite Htrades, Hnew in Hcase.
    destruct (decide (open_qty o ≤ open_qty o1));
      destruct Hcase as [Htr Ho2]; (split; [|done]);
      by apply app_inv_head in Htr. }
  destruct (0 <? open_qty ot); eexists _, _, new;
    (split; [exact Hp|]); split_and!.
  - by rewrite trades_set_book.
  - rewrite objs_set_book. by apply Hall.
  - apply (Hfirst _ _ Hp); [apply objs_set_book|apply trades_set_book].
  - done.
  - by apply Hall.
  - by apply (Hfirst _ _ Hp).
Qed.

End PriceTimePriority.

(** ** Status, accounts and the liquidity taken *)

Section EngineAccounts.
Import Engine.

(** A property of the engine that every trading pass keeps holds when
    the loop of [process_order] is left. *)
Lemma steps_invariant (P : MatchingEngine → Prop) t o e e' :
  (∀ e ot bp m rest om,
     trade_ctx e t ot bp m rest om → P e →
     P (next_state e t ot bp m rest om)) →
  loop_inv t o e → P e → match_steps t e e' → P e'.
Proof.
  intros Hstep Hli HP Hs. induction Hs as [|e e1 e2 Hm Hs IH]; [done|].
  apply IH; [by eapply loop_inv_step|].
  destruct Hli as [Hok Hfree (ot & Ht & _)].
  destruct (match_step_inv t e e1 Hok Hfree ltac:(eauto) Hm)
    as (ot' & bp & m & rest & om & C & ->).
  by apply Hstep.
Qed.

Lemma reachable_fresh_reachable e : reachable_fresh e → reachable e.
Proof. induction 1; [apply reach_init|by eapply reach_step]. Qed.

Lemma fill_status_ok o q :
  status_ok o → 0 < q → q ≤ open_qty o → status_ok (fill o q).
Proof.
  unfold status_ok, fill, restatus, open_qty. simpl.
  intros Ho Hq Hle.
  assert (0 ≤ filled_qty o) by (destruct (status o); lia).
  destruct (Z.eqb_spec (qty o - (filled_qty o + q)) 0); simpl; lia.
Qed.

Lemma next_state_status e t ot bp m rest om :
  trade_ctx e t ot bp m rest om →
  (∀ r o, objs e !! r = Some o → status_ok o) →
  ∀ r o, objs (next_state e t ot bp m rest om) !! r = Some o → status_ok o.
Proof.
  intros C Hall r o. rewrite objs_next_state.
  rewrite (traded_lookup _ m t om ot _ r (tc_maker _ _ _ _ _ _ _ C)
             (tc_taker _ _ _ _ _ _ _ C) (tc_ne _ _ _ _ _ _ _ C)).
  pose proof (tc_open _ _ _ _ _ _ _ C).
  pose proof (tc_maker_open _ _ _ _ _ _ _ C).
  destruct (decide (r = t)) as [->|Hrt].
  { intros [= <-]. apply fill_status_ok; [|lia..].
    apply (Hall t). apply (tc_taker _ _ _ _ _ _ _ C). }
  destruct (decide (r = m)) as [->|Hrm].
  { intros [= <-]. apply fill_status_ok; [|lia..].
    apply (Hall m). apply (tc_maker _ _ _ _ _ _ _ C). }
  apply Hall.
Qed.

(** X13.  The [status] of every order agrees with its quantities, on
    every book built by [process_order] calls on fresh orders: [OPEN]
    orders have nothing filled, [PARTIAL] orders have something filled
    and something open, [FILLED] orders have something filled and
    nothing open. *)
Theorem status_consistent e r o :
  reachable_fresh e → objs e !! r = Some o → status_ok o.
Proof.
  intros He. revert r o.
  induction He as [|e i s p q t e' r' He IH Hp]; intros r o.
  { simpl. by rewrite lookup_nil. }
  pose proof (reachable_ok _ (reachable_fresh_reachable _ He)) as Hok.
  destruct (process_order_final e (new_order i s p q t) Hok)
    as (e1 & e2 & r2 & Hp2 & Hs & Hobjs & _).
  assert (e2 = e') as -> by congruence. rewrite Hobjs.
  revert r o.
  apply (steps_invariant
           (fun e => ∀ r o, objs e !! r = Some o → status_ok o)
           (length (objs e)) (new_order i s p q t)
           (submitted e (new_order i s p q t)) e1);
    [|by apply loop_inv_submitted| |done].
  - intros e0 ot bp m rest om C Hall. by apply next_state_status.
  - intros r o. unfold submitted. simpl.
    intros [Hr|[_ Hr]]%lookup_app_Some; [by eapply IH|].
    apply list_lookup_singleton_Some in Hr as [_ <-]. reflexivity.
Qed.

Lemma filled_total_app l1 l2 :
  filled_total (l1 ++ l2) = filled_total l1 + filled_total l2.
Proof. induction l1 as [|a l1 IH]; simpl; lia. Qed.

Lemma filled_total_insert l i x y :
  l !! i = Some x →
  filled_total (<[i := y]> l) = filled_total l - filled_qty x + filled_qty y.
Proof.
  revert i. induction l as [|a l IH]; intros [|i] Hi; simplify_eq/=.
  - lia.
  - rewrite (IH i Hi). lia.
Qed.

Lemma next_state_total e t ot bp m rest om :
  trade_ctx e t ot bp m rest om →
  filled_total (objs e) = 2 * trade_sum (trades e) →
  filled_total (objs (next_state e t ot bp m rest om))
  = 2 * trade_sum (trades (next_state e t ot bp m rest om)).
Proof.
  intros C Htot. rewrite objs_next_state, trades_next_state, trade_sum_app.
  pose proof (tc_maker _ _ _ _ _ _ _ C) as Hm.
  pose proof (tc_taker _ _ _ _ _ _ _ C) as Ht.
  pose proof (tc_ne _ _ _ _ _ _ _ C) as Hne.
  rewrite (filled_total_insert _ t ot);
    [|by rewrite list_lookup_insert_ne].
  rewrite (filled_total_insert _ m om) by done.
  unfold fill, restatus. simpl. lia.
Qed.

(** X14.  Double entry: on every book built by [process_order] calls on
    fresh orders, the filled quantities of all the orders add up to
    twice the quantities of all the trades of the log: every unit traded
    is filled once on the maker and once on the taker, and in no other
    way. *)
Theorem filled_is_twice_traded e :
  reachable_fresh e → filled_total (objs e) = 2 * trade_sum (trades e).
Proof.
  induction 1 as [|e i s p q t e' r' He IH Hp]; [done|].
  pose proof (reachable_ok _ (reachable_fresh_reachable _ He)) as Hok.
  destruct (process_order_final e (new_order i s p q t) Hok)
    as (e1 & e2 & r2 & Hp2 & Hs & Hobjs & Htr & _).
  assert (e2 = e') as -> by congruence. rewrite Hobjs, Htr.
  apply (steps_invariant
           (fun e => filled_total (objs e) = 2 * trade_sum (trades e))
           (length (objs e)) (new_order i s p q t)
           (submitted e (new_order i s p q t)) e1);
    [|by apply loop_inv_submitted| |done].
  - intros e0 ot bp m rest om C Hall. by apply next_state_total.
  - unfold submitted. simpl. rewrite filled_total_app, IH. simpl. lia.
Qed.




Lemma level_sum_delete f (lv : gmap Z (list ref)) p q :
  lv !! p = Some q → level_sum f lv = f p q + level_sum f (delete p lv).
Proof.
  intros Hp. unfold level_sum.
  apply (map_fold_delete_L (fun p (q : list ref) acc => f p q + acc));
    [intros; lia|done].
Qed.

Lemma level_sum_ext f g (lv : gmap Z (list ref)) :
  (∀ p q, lv !! p = Some q → f p q = g p q) →
  level_sum f lv = level_sum g lv.
Proof.
  induction lv as [|p q lv Hp _ IH] using map_first_key_ind.
  - done.
  - intros Hext.
    rewrite (level_sum_delete f _ p q), (level_sum_delete g _ p q)
      by apply lookup_insert_eq.
    rewrite delete_insert_eq, !delete_id by done.
    rewrite (Hext p q) by apply lookup_insert_eq.
    rewrite IH; [done|]. intros p' q' Hp'. apply Hext.
    rewrite lookup_insert_ne; [done|]. intros <-. congruence.
Qed.

Lemma level_sum_nonneg f (lv : gmap Z (list ref)) :
  (∀ p q, lv !! p = Some q → 0 ≤ f p q) → 0 ≤ level_sum f lv.
Proof.
  induction lv as [|p q lv Hp _ IH] using map_first_key_ind.
  - done.
  - intros Hpos.
    rewrite (level_sum_delete f _ p q) by apply lookup_insert_eq.
    rewrite delete_insert_eq, delete_id by done.
    pose proof (Hpos p q ltac:(apply lookup_insert_eq)).
    assert (0 ≤ level_sum f lv); [|lia].
    apply IH. intros p' q' Hp'. apply Hpos.
    rewrite lookup_insert_ne; [done|]. intros <-. congruence.
Qed.

Lemma level_sum_zero f (lv : gmap Z (list ref)) :
  (∀ p q, lv !! p = Some q → f p q = 0) → level_sum f lv = 0.
Proof.
  intros Hz. rewrite (level_sum_ext f (fun _ _ => 0)) by done.
  clear. induction lv as [|p q lv Hp _ IH] using map_first_key_ind; [done|].
  rewrite (level_sum_delete _ _ p q) by apply lookup_insert_eq.
  rewrite delete_insert_eq, delete_id by done. lia.
Qed.

Lemma open_sum_cons l r q :
  open_sum l (r :: q) = from_option open_qty 0 (l !! r) + open_sum l q.
Proof. done. Qed.

Lemma side_ok_open_sum l b s p q :
  side_ok l b s → price_levels s !! p = Some q → 0 ≤ open_sum l q.
Proof.
  intros Hs Hq. apply (open_sum_nonneg l b s p q []); [done|].
  by rewrite app_nil_r.
Qed.

Lemma is_match_taker o ot p :
  side ot = side o → price ot = price o → is_match ot p = is_match o p.
Proof. unfold is_match. by intros -> ->. Qed.

(** A trading pass takes the quantity of its trade off the liquidity
    that the book offers to the taker. *)
Lemma avail_next_state e t ot bp m rest om o :
  trade_ctx e t ot bp m rest om →
  side ot = side o → price ot = price o →
  avail (next_state e t ot bp m rest om) o
  = avail e o - Z.min (open_qty ot) (open_qty om).
Proof.
  intros C Hsd Hpr. pose proof C as [Hok Ht Hfree Hopen Hbest Hmatch Hlv Hm
                                       Hne Hmo Hmp Hms].
  set (q := Z.min (open_qty ot) (open_qty om)).
  set (e' := next_state e t ot bp m rest om).
  unfold avail. rewrite <- Hsd.
  set (ob := opposing_is_bid (side ot)) in *.
  set (lv := price_levels (book e ob)) in *.
  set (lv' := price_levels (book e' ob)).
  pose proof (engine_ok_book e ob Hok) as Hs.
  assert (Hlv' : ∀ p, lv' !! p =
            if decide (p = bp) then
              if open_qty om - q =? 0 then
                match rest with [] => None | _ => Some rest end
              else Some (m :: rest)
            else lv !! p).
  { intros p. by apply next_state_level. }
  assert (Hdel : delete bp lv' = delete bp lv).
  { apply map_eq. intros p. destruct (decide (p = bp)) as [->|Hp].
    - by rewrite !lookup_delete_eq.
    - rewrite !lookup_delete_ne by done. by rewrite Hlv', decide_False. }
  assert (Hobjs : ∀ r, objs e' !! r =
            if decide (r = t) then Some (fill ot q)
            else if decide (r = m) then Some (fill om q) else objs e !! r).
  { intros r. unfold e'. rewrite objs_next_state. by apply traded_lookup. }
  assert (Hsame : ∀ p qu r, lv !! p = Some qu → r ∈ qu → r ≠ m →
            objs e' !! r = objs e !! r).
  { intros p qu r Hq Hr Hrm. rewrite Hobjs.
    rewrite decide_False; [by rewrite decide_False|].
    intros ->. by apply (Hfree _ _ _ Hq). }
  assert (Hother : level_sum
            (fun p qu => if is_match o p then open_sum (objs e') qu else 0)
            (delete bp lv)
          = level_sum
            (fun p qu => if is_match o p then open_sum (objs e) qu else 0)
            (delete bp lv)).
  { apply level_sum_ext. intros p qu [Hp Hqu]%lookup_delete_Some.
    destruct (is_match o p); [|done]. apply open_sum_ext.
    intros r Hr. apply (Hsame p qu r Hqu Hr). intros ->.
    destruct (ok_resting _ _ _ Hs _ _ _ Hqu Hr) as (o1 & Ho1 & Hp1 & _).
    congruence. }
  assert (Hrest : open_sum (objs e') rest = open_sum (objs e) rest).
  { apply open_sum_ext. intros r Hr.
    apply (Hsame bp (m :: rest) r Hlv); [by right|].
    intros ->. destruct (ok_queue _ _ _ Hs _ _ Hlv) as [_ Hnd].
    by apply NoDup_cons in Hnd as [? _]. }
  assert (Hmatch' : is_match o bp = true).
  { by rewrite <- (is_match_taker o ot bp Hsd Hpr). }
  rewrite (level_sum_delete _ lv bp (m :: rest) Hlv), Hmatch'.
  rewrite open_sum_cons, Hm. simpl from_option.
  destruct (lv' !! bp) as [qu|] eqn:Hbp.
  - rewrite (level_sum_delete _ lv' bp qu Hbp), Hmatch', Hdel, Hother.
    rewrite Hlv', decide_True in Hbp by done.
    destruct (Z.eqb_spec (open_qty om - q) 0) as [E|E].
    + destruct rest as [|r0 rest]; [done|]. injection Hbp as <-.
      rewrite Hrest. lia.
    + injection Hbp as <-. rewrite open_sum_cons, Hrest, Hobjs.
      rewrite decide_False, decide_True by done. simpl.
      rewrite fill_open. fold q. lia.
  - assert (lv' = delete bp lv) as ->.
    { rewrite <- Hdel. symmetry. by apply delete_id. }
    rewrite Hother.
    rewrite Hlv', decide_True in Hbp by done.
    destruct (Z.eqb_spec (open_qty om - q) 0) as [E|E]; [|done].
    destruct rest as [|r0 rest]; [|done]. simpl. lia.
Qed.

Lemma avail_submitted e o : engine_ok e → avail (submitted e o) o = avail e o.
Proof.
  intros Hok. unfold avail, submitted. rewrite book_set_objs.
  apply level_sum_ext. intros p q Hq. destruct (is_match o p); [|done].
  apply open_sum_ext. intros r Hr. simpl.
  destruct (ok_resting _ _ _ (engine_ok_book e _ Hok) _ _ _ Hq Hr)
    as (o1 & Ho1 & _).
  by rewrite (lookup_app_l_Some _ _ _ _ Ho1).
Qed.

Lemma avail_nonneg e o : engine_ok e → 0 ≤ avail e o.
Proof.
  intros Hok. apply level_sum_nonneg. intros p q Hq.
  destruct (is_match o p); [|done].
  by eapply side_ok_open_sum, Hq; apply engine_ok_book.
Qed.

(** X15.  Matching is maximal: an incoming order trades exactly the
    smaller of its open quantity and the liquidity the book offers it,
    the open quantity resting on the opposite side at prices its limit
    accepts; it is answered [FILLED] exactly when that liquidity covers
    its open quantity, and [RESTING] exactly when it does not. *)
Theorem matching_is_maximal e o :
  reachable e → 0 ≤ open_qty o →
  ∃ e' r new,
    process_order e o = Returns (e', r) ∧
    trades e' = trades e ++ new ∧
    trade_sum new = Z.min (open_qty o) (avail e o) ∧
    (r = "FILLED"%string ↔ open_qty o ≤ avail e o) ∧
    (r = "RESTING"%string ↔ avail e o < open_qty o).
Proof.
  intros Hok%reachable_ok Hopen.
  destruct (process_order_shape e o Hok)
    as (e1 & ot & Hs & Hli & Htk & Ht & Hex & _ & Hp).
  destruct (tk_trades _ _ _ _ Htk) as (new & ot' & Htr & _ & Ht' & Hsum & _).
  assert (ot' = ot) as -> by congruence.
  pose proof (li_ok _ _ _ Hli) as Hok1.
  assert (HP : ∃ ot, objs e1 !! length (objs e) = Some ot ∧
            side ot = side o ∧ price ot = price o ∧ 0 ≤ open_qty ot ∧
            filled_qty ot + avail e1 o
            = filled_qty o + avail (submitted e o) o).
  { apply (steps_invariant
             (fun e1 => ∃ ot, objs e1 !! length (objs e) = Some ot ∧
                side ot = side o ∧ price ot = price o ∧ 0 ≤ open_qty ot ∧
                filled_qty ot + avail e1 o
                = filled_qty o + avail (submitted e o) o)
             (length (objs e)) o (submitted e o) e1);
      [|by apply loop_inv_submitted| |done].
    - intros e0 ot0 bp m rest om C (ot1 & Ht1 & Hsd & Hpr & Hpos & Hav).
      assert (ot1 = ot0) as ->.
      { pose proof (tc_taker _ _ _ _ _ _ _ C). congruence. }
      exists (fill ot0 (Z.min (open_qty ot0) (open_qty om))).
      split; [by apply taker_next_state|].
      rewrite (avail_next_state _ _ _ _ _ _ _ o C Hsd Hpr), fill_open.
      change (filled_qty (fill ot0 (Z.min (open_qty ot0) (open_qty om))))
        with (filled_qty ot0 + Z.min (open_qty ot0) (open_qty om)).
      split_and!; [done|done|lia|lia].
    - exists o. split_and!; try done.
      destruct (alloc_ok e o Hok) as (_ & _ & Ht0). exact Ht0. }
  destruct HP as (ot1 & Ht1 & Hsd & Hpr & Hpos & Hav).
  assert (ot1 = ot) as -> by congruence.
  rewrite (avail_submitted e o Hok) in Hav.
  pose proof (avail_nonneg e1 o Hok1) as Hnn.
  assert (Hq : qty ot = qty o).
  { destruct Hli as [_ _ (ot2 & Ht2 & _ & _ & _ & Hq)]. congruence. }
  unfold open_qty in *.
  eexists _, _, new. split; [rewrite Hp; f_equal; apply surjective_pairing|].
  rewrite (result_trades e1 o ot). split; [done|].
  destruct (Z.ltb_spec 0 (qty ot - filled_qty ot)) as [Hlt|Hge].
  - assert (Hzero : avail e1 o = 0).
    { apply level_sum_zero. intros p q Hlv.
      destruct (is_match o p) eqn:Hm; [|done]. exfalso.
      rewrite <- Hsd in Hlv.
      pose proof (exit_cond_uncrossed e1 ot p Hok1 Hex Hlt
                    ltac:(eauto)) as Hun.
      rewrite <- (is_match_taker o ot p Hsd Hpr) in Hm.
      apply is_match_heap_price in Hm. lia. }
    simpl. split; [lia|]. split; split.
    + discriminate.
    + intros ?. exfalso. lia.
    + intros _. lia.
    + done.
  - simpl. split; [lia|]. split; split.
    + intros _. lia.
    + done.
    + discriminate.
    + intros ?. exfalso. lia.
Qed.

End EngineAccounts.

(** ** The book under market events *)

(** A cancel can take all the open quantity of a resting order, which
    [side_ok] excludes.  The lemmas of the matching loop are proved here
    again for [side_wf] and [engine_wf], which every market event that
    returns keeps. *)

Section ReplayFacts.
Import Engine.

Lemma engine_wf_book e b : engine_wf e → side_wf (objs e) b (book e b).
Proof. intros [? ? ?]. by destruct b. Qed.

Lemma engine_wf_uncrossed e ob po pm :
  engine_wf e →
  is_Some (price_levels (book e ob) !! po) →
  is_Some (price_levels (book e (negb ob)) !! pm) →
  heap_price ob pm < heap_price ob po.
Proof.
  intros [_ _ H] Ho Hm. destruct ob; simpl in *.
  - specialize (H _ _ Ho Hm). lia.
  - by apply H.
Qed.

Lemma engine_wf_of ob e :
  side_wf (objs e) ob (book e ob) →
  side_wf (objs e) (negb ob) (book e (negb ob)) →
  (∀ po pm, is_Some (price_levels (book e ob) !! po) →
            is_Some (price_levels (book e (negb ob)) !! pm) →
            heap_price ob pm < heap_price ob po) →
  engine_wf e.
Proof.
  intros Ho Hm Hx. destruct ob; simpl in *; constructor; try done.
  - intros pb pa Hb Ha. specialize (Hx _ _ Hb Ha). lia.
  - intros pb pa Hb Ha. by apply Hx.
Qed.

Lemma side_wf_store l l' b s :
  side_wf l b s →
  (∀ r o, l !! r = Some o →
     ∃ o', l' !! r = Some o' ∧ id o' = id o ∧ side o' = side o ∧
           price o' = price o) →
  (∀ p q r o', price_levels s !! p = Some q → r ∈ q →
     l' !! r = Some o' → 0 ≤ open_qty o') →
  side_wf l' b s.
Proof.
  intros [F S H Q R O] Hst Hpos. constructor; try done.
  - intros p q r Hq Hr. destruct (R p q r Hq Hr) as (o & Ho & Hp & Hs & _).
    destruct (Hst r o Ho) as (o' & Ho' & _ & Hs' & Hp').
    exists o'. split; [done|]. split; [congruence|]. split; [congruence|].
    by eapply Hpos.
  - intros i r Hi. destruct (O i r Hi) as (o & Ho & Hid).
    destruct (Hst r o Ho) as (o' & Ho' & Hid' & _).
    exists o'. split; [done|congruence].
Qed.

Lemma pop_level_wf l b s bp m rest :
  side_wf l b s → best_price s = Some bp →
  price_levels s !! bp = Some (m :: rest) →
  remove_filled_levels (popleft s bp rest) =
    match rest with
    | [] => mkSide (is_bid s) (tail (price_heap s))
              (delete bp (price_levels s)) (orders s)
    | _ => popleft s bp rest
    end.
Proof.
  intros [F S H Q R O] Hb Hlv.
  destruct (best_price_Some _ _ _ F Hb) as [h Hh].
  unfold remove_filled_levels, popleft. simpl. rewrite Hh. simpl.
  assert (E : (if is_bid s then - heap_price b bp else heap_price b bp) = bp).
  { rewrite F. apply (heap_price_involutive b bp). }
  rewrite E, lookup_insert_eq.
  destruct rest as [|r rest]; [|done].
  rewrite delete_insert_eq.
  destruct h as [|y h]; [done|]. simpl.
  assert (Hy : is_Some (price_levels s !! heap_price b y)).
  { apply H. rewrite heap_price_involutive, Hh, !elem_of_cons. tauto. }
  assert (Hne : heap_price b y ≠ bp).
  { intros <-. rewrite heap_price_involutive in Hh. rewrite Hh in S.
    apply StronglySorted_cons in S as [S _].
    apply Forall_cons in S as [S _]. lia. }
  rewrite F. fold (heap_price b y).
  rewrite lookup_delete_ne by done.
  destruct Hy as [q Hq]. rewrite Hq.
  destruct (Q _ _ Hq) as [Hq' _]. by destruct q.
Qed.

Lemma popleft_side_wf l l' b s bp m rest :
  side_wf l b s → best_price s = Some bp →
  price_levels s !! bp = Some (m :: rest) →
  (∀ r o, l !! r = Some o →
     ∃ o', l' !! r = Some o' ∧ id o' = id o ∧ side o' = side o ∧
           price o' = price o) →
  (∀ p q r, price_levels s !! p = Some q → r ∈ q → r ≠ m →
     l' !! r = l !! r) →
  side_wf l' b (remove_filled_levels (popleft s bp rest)).
Proof.
  intros Hs Hb Hlv Hst Hsame.
  rewrite (pop_level_wf l b s bp m rest Hs Hb Hlv).
  destruct Hs as [F S H Q R O].
  destruct (best_price_Some _ _ _ F Hb) as [h Hh].
  destruct (Q _ _ Hlv) as [_ Hnd]. apply NoDup_cons in Hnd as [Hm Hnd].
  assert (Hkeep : ∀ p q r, price_levels s !! p = Some q → r ∈ q → r ≠ m →
            ∃ o, l' !! r = Some o ∧ price o = p ∧ side o = side_of b ∧
                 0 ≤ open_qty o).
  { intros p q r Hq Hr Hne. rewrite (Hsame p q r Hq Hr Hne). eauto. }
  assert (Hord : ∀ i r, orders s !! i = Some r →
            ∃ o, l' !! r = Some o ∧ id o = i).
  { intros i r Hi. destruct (O i r Hi) as (o & Ho & Hid).
    destruct (Hst r o Ho) as (o' & Ho' & Hid' & _).
    exists o'. split; [done|congruence]. }
  destruct rest as [|r0 rest].
  - constructor; simpl; try done.
    + rewrite Hh in S |- *. simpl.
      apply StronglySorted_cons in S as [_ S]. exact S.
    + intros p. rewrite Hh. simpl.
      rewrite Hh in S. apply StronglySorted_cons in S as [S _].
      rewrite Forall_forall in S.
      destruct (decide (p = bp)) as [->|Hne].
      * rewrite lookup_delete_eq. split.
        -- intros Hin. specialize (S _ Hin). lia.
        -- by intros [? ?].
      * rewrite lookup_delete_ne by done. rewrite <- H, Hh.
        rewrite elem_of_cons. split; [tauto|].
        intros [E|?]; [|done]. by apply heap_price_inj in E.
    + intros p q. rewrite lookup_delete_Some. intros [_ Hq]. eauto.
    + intros p q r. rewrite lookup_delete_Some. intros [Hne Hq] Hr.
      apply (Hkeep p q r Hq Hr). intros ->.
      destruct (R _ _ _ Hq Hr) as (o & Ho & Hp & _).
      destruct (R _ _ m Hlv ltac:(by left)) as (o2 & Ho2 & Hp2 & _).
      congruence.
  - constructor; simpl; try done.
    + intros p. rewrite H. destruct (decide (p = bp)) as [->|Hne].
      * rewrite lookup_insert_eq, Hlv. split; eauto.
      * by rewrite lookup_insert_ne.
    + intros p q. destruct (decide (p = bp)) as [->|Hne].
      * rewrite lookup_insert_eq. by intros [= <-].
      * rewrite lookup_insert_ne by done. eauto.
    + intros p q r. destruct (decide (p = bp)) as [->|Hne].
      * rewrite lookup_insert_eq. intros [= <-] Hr.
        apply (Hkeep bp (m :: r0 :: rest) r Hlv); [by right|].
        intros ->. done.
      * rewrite lookup_insert_ne by done. intros Hq Hr.
        apply (Hkeep p q r Hq Hr). intros ->.
        destruct (R _ _ _ Hq Hr) as (o & Ho & Hp & _).
        destruct (R _ _ m Hlv ltac:(by left)) as (o2 & Ho2 & Hp2 & _).
        congruence.
Qed.

Lemma popleft_levels_wf l b s bp m rest p :
  side_wf l b s → best_price s = Some bp →
  price_levels s !! bp = Some (m :: rest) →
  is_Some (price_levels (remove_filled_levels (popleft s bp rest)) !! p) →
  is_Some (price_levels s !! p).
Proof.
  intros Hs Hb Hlv. rewrite (pop_level_wf l b s bp m rest Hs Hb Hlv).
  destruct rest; simpl.
  - rewrite lookup_delete_is_Some. by intros [_ ?].
  - destruct (decide (p = bp)) as [->|Hne]; [by rewrite Hlv|].
    by rewrite lookup_insert_ne.
Qed.

Lemma popleft_queue_wf l b s bp m rest p q :
  side_wf l b s → best_price s = Some bp →
  price_levels s !! bp = Some (m :: rest) →
  price_levels (remove_filled_levels (popleft s bp rest)) !! p = Some q →
  (p = bp ∧ q = rest) ∨ (p ≠ bp ∧ price_levels s !! p = Some q).
Proof.
  intros Hs Hb Hlv. rewrite (pop_level_wf l b s bp m rest Hs Hb Hlv).
  destruct rest; simpl.
  - rewrite lookup_delete_Some. intros [? ?]. right. split; [congruence|done].
  - destruct (decide (p = bp)) as [->|Hne].
    + rewrite lookup_insert_eq. intros [= <-]. by left.
    + rewrite lookup_insert_ne by done. by right.
Qed.

Lemma popleft_count_wf l b s bp m rest :
  side_wf l b s → best_price s = Some bp →
  price_levels s !! bp = Some (m :: rest) →
  S (resting_count
       (price_levels (remove_filled_levels (popleft s bp rest))))
  = resting_count (price_levels s).
Proof.
  intros Hs Hb Hlv. rewrite (pop_level_wf l b s bp m rest Hs Hb Hlv).
  destruct rest as [|r rest]; simpl.
  - rewrite (resting_count_delete _ _ _ Hlv). done.
  - pose proof (resting_count_insert _ _ _ (r :: rest) Hlv) as E.
    simpl in E. lia.
Qed.

Lemma match_step_cases_wf e t ot :
  engine_wf e → objs e !! t = Some ot → not_resting e t →
  (exit_cond e ot ∧ match_step t e = Returns None) ∨
  (∃ bp m rest om, trade_wf e t ot bp m rest om ∧
     match_step t e = Returns (Some (next_state e t ot bp m rest om))).
Proof.
  intros Hok Ht Hfree.
  destruct (Z.le_gt_cases (open_qty ot) 0) as [Hle|Hgt].
  { left. split; [by left|]. apply (match_step_break e t ot Ht). by left. }
  destruct (best_price (book e (opposing_is_bid (side ot)))) as [bp|] eqn:Hb.
  2:{ left. split; [right; by left|].
      apply (match_step_break e t ot Ht). right. by left. }
  destruct (is_match ot bp) eqn:Hm.
  2:{ left. split; [right; right; eauto|].
      apply (match_step_break e t ot Ht). right. right. eauto. }
  right.
  pose proof (engine_wf_book e (opposing_is_bid (side ot)) Hok) as Hs.
  destruct (best_price_Some _ _ _ (wf_flag _ _ _ Hs) Hb) as [h Hh].
  assert (Hl : is_Some (price_levels (book e (opposing_is_bid (side ot)))
                          !! bp)).
  { apply (wf_heap _ _ _ Hs). rewrite Hh. by left. }
  destruct Hl as [q Hq].
  destruct (wf_queue _ _ _ Hs _ _ Hq) as [Hne _].
  destruct q as [|m rest]; [done|].
  destruct (wf_resting _ _ _ Hs _ _ m Hq ltac:(by left))
    as (om & Hom & Hp & Hsd & Hpos).
  assert (m ≠ t).
  { intros ->. apply (Hfree _ _ _ Hq). by left. }
  exists bp, m, rest, om. split; [by constructor; try lia|].
  apply match_step_eq; auto; lia.
Qed.

Lemma next_state_queue_wf e t ot bp m rest om b p q :
  trade_wf e t ot bp m rest om →
  price_levels (book (next_state e t ot bp m rest om) b) !! p = Some q →
  price_levels (book e b) !! p = Some q ∨
  (b = opposing_is_bid (side ot) ∧ p = bp ∧ q = rest ∧
   open_qty om ≤ open_qty ot).
Proof.
  intros C.
  destruct (decide (b = opposing_is_bid (side ot))) as [->|Hb].
  - rewrite book_next_state_opp.
    destruct (Z.eqb_spec (open_qty om - Z.min (open_qty ot) (open_qty om)) 0)
      as [E|E]; [|by left].
    intros Hq.
    destruct (popleft_queue_wf _ _ _ _ _ _ _ _
      (engine_wf_book e _ (tw_ok _ _ _ _ _ _ _ C))
      (tw_best _ _ _ _ _ _ _ C) (tw_level _ _ _ _ _ _ _ C) Hq)
      as [[-> ->]|[_ ?]]; [|by left].
    right. repeat split; lia.
  - assert (b = negb (opposing_is_bid (side ot))) as ->
      by (destruct b, (opposing_is_bid (side ot)); done).
    rewrite book_next_state_own. by left.
Qed.

Lemma next_state_wf e t ot bp m rest om :
  trade_wf e t ot bp m rest om →
  engine_wf (next_state e t ot bp m rest om) ∧
  not_resting (next_state e t ot bp m rest om) t.
Proof.
  intros C. pose proof C as [Hok Ht Hfree Hopen Hbest Hmatch Hlv Hm Hne
                               Hmo Hmp Hms].
  set (ob := opposing_is_bid (side ot)) in *.
  set (q := Z.min (open_qty ot) (open_qty om)).
  pose proof (engine_wf_book e ob Hok) as Hso.
  pose proof (engine_wf_book e (negb ob) Hok) as Hsm.
  assert (Hst : ∀ r o, objs e !! r = Some o →
    ∃ o', objs (next_state e t ot bp m rest om) !! r = Some o' ∧
          id o' = id o ∧ side o' = side o ∧ price o' = price o).
  { intros r o Hr. rewrite objs_next_state.
    by apply traded_stable. }
  assert (Hsame : ∀ b p qu r, price_levels (book e b) !! p = Some qu →
    r ∈ qu → r ≠ m →
    objs (next_state e t ot bp m rest om) !! r = objs e !! r).
  { intros b p qu r Hq Hr Hrm. rewrite objs_next_state.
    rewrite (traded_lookup _ m t om ot _ r Hm Ht Hne).
    rewrite decide_False; [by rewrite decide_False|].
    intros ->. by apply (Hfree _ _ _ Hq). }
  split.
  - apply (engine_wf_of ob).
    + rewrite book_next_state_opp. fold ob q.
      destruct (Z.eqb_spec (open_qty om - q) 0) as [E|E].
      * eapply popleft_side_wf; eauto.
      * eapply side_wf_store; eauto.
        intros p qu r o' Hq Hr Ho'.
        destruct (decide (r = m)) as [->|Hrm].
        -- rewrite objs_next_state in Ho'.
           rewrite (traded_lookup _ m t om ot _ m Hm Ht Hne) in Ho'.
           rewrite decide_False, decide_True in Ho' by done.
           injection Ho' as <-. rewrite fill_open. fold q. lia.
        -- rewrite (Hsame _ _ _ _ Hq Hr Hrm) in Ho'.
           destruct (wf_resting _ _ _ Hso _ _ _ Hq Hr) as (o & Ho & _ & _ & ?).
           congruence.
    + unfold ob. rewrite book_next_state_own. fold ob.
      eapply side_wf_store; eauto.
      intros p qu r o' Hq Hr Ho'.
      destruct (wf_resting _ _ _ Hsm _ _ _ Hq Hr) as (o & Ho & _ & Hsd & ?).
      rewrite (Hsame _ _ _ _ Hq Hr) in Ho'; [congruence|].
      intros ->. rewrite Hm in Ho. injection Ho as <-.
      rewrite Hms in Hsd. by apply (side_of_negb ob).
    + intros po pm Ho Hpm. unfold ob in Hpm.
      rewrite book_next_state_own in Hpm. fold ob in Hpm.
      apply (engine_wf_uncrossed e ob po pm Hok); [|done].
      rewrite book_next_state_opp in Ho. fold ob q in Ho.
      destruct (_ =? 0); [|done].
      by eapply popleft_levels_wf.
  - intros b p qu Hq Hin.
    destruct (next_state_queue_wf _ _ _ _ _ _ _ _ _ _ C Hq)
      as [Hq'|(_ & _ & -> & _)].
    + by apply (Hfree _ _ _ Hq').
    + apply (Hfree _ _ _ Hlv). by right.
Qed.

Lemma next_state_progress_wf e t ot bp m rest om :
  trade_wf e t ot bp m rest om →
  (S (resting_count (price_levels
        (book (next_state e t ot bp m rest om) (opposing_is_bid (side ot)))))
   = resting_count (price_levels (book e (opposing_is_bid (side ot)))))
  ∨
  (book (next_state e t ot bp m rest om) (opposing_is_bid (side ot))
   = book e (opposing_is_bid (side ot)) ∧
   (0 < resting_count (price_levels (book e (opposing_is_bid (side ot)))))%nat
   ∧ open_qty (fill ot (Z.min (open_qty ot) (open_qty om))) = 0).
Proof.
  intros C. pose proof C as [Hok Ht Hfree Hopen Hbest Hmatch Hlv Hm Hne
                               Hmo Hmp Hms].
  rewrite book_next_state_opp.
  destruct (Z.eqb_spec (open_qty om - Z.min (open_qty ot) (open_qty om)) 0)
    as [E|E].
  - left. eapply popleft_count_wf; eauto using engine_wf_book.
  - right. split; [done|]. split.
    + rewrite (resting_count_delete _ _ _ Hlv). simpl. lia.
    + rewrite fill_open. lia.
Qed.

Lemma taker_next_state_wf e t ot bp m rest om :
  trade_wf e t ot bp m rest om →
  objs (next_state e t ot bp m rest om) !! t
  = Some (fill ot (Z.min (open_qty ot) (open_qty om))).
Proof.
  intros C. rewrite objs_next_state.
  rewrite (traded_lookup _ m t om ot _ t (tw_maker _ _ _ _ _ _ _ C)
             (tw_taker _ _ _ _ _ _ _ C) (tw_ne _ _ _ _ _ _ _ C)).
  by rewrite decide_True.
Qed.

Lemma match_loop_returns_wf fuel e t ot :
  engine_wf e → objs e !! t = Some ot → not_resting e t →
  ((resting_count
      (price_levels (book e (opposing_is_bid (side ot)))) < fuel)%nat
   ∨ (open_qty ot ≤ 0 ∧ (0 < fuel)%nat)) →
  ∃ e' ot',
    match_loop fuel t e = Returns e' ∧ match_steps t e e' ∧
    engine_wf e' ∧ not_resting e' t ∧ objs e' !! t = Some ot' ∧
    side ot' = side ot ∧ price ot' = price ot ∧ id ot' = id ot ∧
    exit_cond e' ot' ∧
    book e' (negb (opposing_is_bid (side ot)))
      = book e (negb (opposing_is_bid (side ot))) ∧
    length (objs e') = length (objs e).
Proof.
  revert e ot. induction fuel as [|n IH]; intros e ot Hok Ht Hfree Hfuel.
  { exfalso. destruct Hfuel as [?|[_ ?]]; lia. }
  destruct (match_step_cases_wf e t ot Hok Ht Hfree)
    as [[Hex Hstep]|(bp & m & rest & om & C & Hstep)].
  - exists e, ot. simpl. rewrite Hstep. simpl.
    split_and!; try done; apply steps_refl.
  - simpl. rewrite Hstep. simpl.
    destruct (next_state_wf _ _ _ _ _ _ _ C) as [Hok' Hfree'].
    pose proof (taker_next_state_wf _ _ _ _ _ _ _ C) as Ht'.
    set (q := Z.min (open_qty ot) (open_qty om)) in *.
    set (e1 := next_state e t ot bp m rest om) in *.
    destruct (IH e1 (fill ot q) Hok' Ht' Hfree') as
      (e' & ot' & Hl & Hs & Hok'' & Hfree'' & Ht'' & Hsd & Hp & Hid & Hex
       & Hbk & Hlen).
    { subst e1 q.
      destruct (fill_static ot (Z.min (open_qty ot) (open_qty om)))
        as (_ & -> & _).
      destruct (next_state_progress_wf _ _ _ _ _ _ _ C) as [Hc|(Hb & Hc & Ho)].
      - left. destruct Hfuel as [?|[? _]]; [lia|].
        pose proof (tw_open _ _ _ _ _ _ _ C). lia.
      - right. split; [lia|]. destruct Hfuel as [?|[? _]].
        + lia.
        + pose proof (tw_open _ _ _ _ _ _ _ C). lia. }
    destruct (fill_static ot q) as (Ei & Es & Ep & _).
    exists e', ot'. rewrite Es in Hbk.
    split_and!; try congruence; auto.
    + eapply steps_step; eauto.
    + rewrite Hbk. apply book_next_state_own.
    + rewrite Hlen. apply length_next_state.
Qed.

Lemma add_side_wf l b s t ot :
  side_wf l b s → l !! t = Some ot → side ot = side_of b →
  0 < open_qty ot →
  (∀ p q, price_levels s !! p = Some q → t ∉ q) →
  ∃ s', add s l t = Returns s' ∧ side_wf l b s' ∧
    ∀ p, is_Some (price_levels s' !! p) ↔
         p = price ot ∨ is_Some (price_levels s !! p).
Proof.
  intros [F S H Q R O] Ht Hsd Hpos Hfree. unfold add.
  rewrite (deref_Some _ _ _ Ht). simpl. eexists. split; [done|].
  split; [constructor; simpl|].
  - done.
  - destruct (price_levels s !! price ot) eqn:E; [done|].
    apply heappush_sorted; [done|]. rewrite F, H, E. by intros [? ?].
  - intros p. rewrite F.
    destruct (decide (p = price ot)) as [->|Hne].
    + rewrite lookup_insert_eq.
      destruct (price_levels s !! price ot) eqn:E.
      * rewrite H, E. split; eauto.
      * rewrite elem_of_heappush. split; eauto.
    + rewrite lookup_insert_ne by done.
      destruct (price_levels s !! price ot) eqn:E; [apply H|].
      rewrite elem_of_heappush, H. split; [|tauto].
      intros [E'|?]; [|done]. by apply heap_price_inj in E'.
  - intros p q. destruct (decide (p = price ot)) as [->|Hne].
    + rewrite lookup_insert_eq. intros [= <-]. split.
      * by destruct (level _ _).
      * unfold level. destruct (price_levels s !! price ot) as [q|] eqn:E;
          simpl; [|apply NoDup_singleton].
        apply NoDup_app. split; [by apply (Q _ _ E)|].
        split; [|apply NoDup_singleton].
        intros x Hx. rewrite list_elem_of_singleton. intros ->.
        by apply (Hfree _ _ E).
    + rewrite lookup_insert_ne by done. apply Q.
  - intros p q r. destruct (decide (p = price ot)) as [->|Hne].
    + rewrite lookup_insert_eq. intros [= <-].
      unfold level. rewrite elem_of_app, list_elem_of_singleton.
      intros [Hr| ->]; [|exists ot; split_and!; auto; lia].
      destruct (price_levels s !! price ot) as [q|] eqn:E; simpl in Hr.
      * eauto.
      * by apply elem_of_nil in Hr.
    + rewrite lookup_insert_ne by done. apply R.
  - intros i r. destruct (decide (i = id ot)) as [->|Hne].
    + rewrite lookup_insert_eq. intros [= <-]. eauto.
    + rewrite lookup_insert_ne by done. apply O.
  - intros p. destruct (decide (p = price ot)) as [->|Hne]; simpl.
    + rewrite lookup_insert_eq. split; eauto.
    + rewrite lookup_insert_ne by done. split; [tauto|].
      intros [?|?]; done.
Qed.

Lemma alloc_ok_wf e o :
  engine_wf e →
  engine_wf (set_objs e (objs e ++ [o])) ∧
  not_resting (set_objs e (objs e ++ [o])) (length (objs e)) ∧
  objs (set_objs e (objs e ++ [o])) !! length (objs e) = Some o.
Proof.
  intros Hok.
  assert (Hst : ∀ r o', objs e !! r = Some o' →
            (objs e ++ [o]) !! r = Some o').
  { intros r o' Hr. by apply lookup_app_l_Some. }
  assert (Hside : ∀ b, side_wf (objs e ++ [o]) b (book e b)).
  { intros b. pose proof (engine_wf_book e b Hok) as Hs.
    eapply side_wf_store; [exact Hs| |].
    - intros r o' Hr. exists o'. eauto.
    - intros p q r o' Hq Hr Ho'.
      destruct (wf_resting _ _ _ Hs _ _ _ Hq Hr) as (o2 & Ho2 & _ & _ & ?).
      rewrite (Hst _ _ Ho2) in Ho'. congruence. }
  split; [|split].
  - constructor; simpl.
    + apply (Hside true).
    + apply (Hside false).
    + apply (wf_uncrossed _ Hok).
  - intros b p q. rewrite book_set_objs. intros Hq Hin.
    destruct (wf_resting _ _ _ (engine_wf_book e b Hok) _ _ _ Hq Hin)
      as (o2 & Ho2 & _).
    apply lookup_lt_Some in Ho2. lia.
  - simpl. by rewrite lookup_app_r, Nat.sub_diag.
Qed.

Lemma exit_cond_uncrossed_wf e ot po :
  engine_wf e → exit_cond e ot → 0 < open_qty ot →
  is_Some (price_levels (book e (opposing_is_bid (side ot))) !! po) →
  heap_price (opposing_is_bid (side ot)) (price ot)
  < heap_price (opposing_is_bid (side ot)) po.
Proof.
  intros Hok Hex Hpos Hpo. unfold exit_cond in Hex.
  set (ob := opposing_is_bid (side ot)) in *.
  pose proof (engine_wf_book e ob Hok) as Hs.
  apply (wf_heap _ _ _ Hs) in Hpo.
  destruct Hex as [?|[Hn|(bp & Hb & Hm)]]; [lia| |].
  - apply best_price_None in Hn. rewrite Hn in Hpo.
    by apply elem_of_nil in Hpo.
  - destruct (best_price_Some _ _ _ (wf_flag _ _ _ Hs) Hb) as [h Hh].
    pose proof (heap_head_least _ _ _ _ (wf_sorted _ _ _ Hs) Hh Hpo).
    assert (¬ heap_price ob bp ≤ heap_price ob (price ot)).
    { intros Hle. apply (is_match_heap_price ot bp) in Hle. congruence. }
    lia.
Qed.

Lemma process_order_returns_wf e o :
  engine_wf e →
  ∃ e' r, process_order e o = Returns (e', r) ∧ engine_wf e'.
Proof.
  intros Hok. destruct (alloc_ok_wf e o Hok) as (Hok0 & Hfree0 & Ht0).
  unfold process_order, process_order_at.
  set (e0 := set_objs e (objs e ++ [o])) in *.
  set (t := length (objs e)) in *.
  rewrite (deref_Some _ _ _ Ht0), bind_Returns. cbv beta zeta.
  destruct (match_loop_returns_wf
              (S (resting_count
                    (price_levels (book e0 (opposing_is_bid (side o))))))
              e0 t o Hok0 Ht0 Hfree0 ltac:(left; lia))
    as (e1 & ot & Hl & _ & Hok1 & Hfree1 & Ht1 & Hsd & Hp & Hid & Hex
        & Hbk & Hlen).
  rewrite Hl, bind_Returns, (deref_Some _ _ _ Ht1), bind_Returns.
  destruct (Z.ltb_spec 0 (open_qty ot)) as [Hpos|Hnpos].
  2:{ eauto. }
  rewrite my_is_bid_negb.
  set (ob := opposing_is_bid (side o)) in *.
  destruct (add_side_wf (objs e1) (negb ob) (book e1 (negb ob)) t ot)
    as (s' & Hadd & Hs' & Hdom); auto using engine_wf_book.
  { rewrite Hsd. subst ob. rewrite <- my_is_bid_negb.
    by rewrite side_of_my_is_bid. }
  { intros p q. apply Hfree1. }
  rewrite Hadd, bind_Returns. eexists _, _. split; [done|].
  apply (engine_wf_of ob).
  - rewrite objs_set_book.
    replace (book (set_book e1 (negb ob) s') ob) with (book e1 ob)
      by (by destruct ob).
    by apply engine_wf_book.
  - by rewrite objs_set_book, book_set_book.
  - intros po pm. rewrite book_set_book.
    replace (book (set_book e1 (negb ob) s') ob) with (book e1 ob)
      by (by destruct ob).
    intros Hpo Hpm. apply Hdom in Hpm as [->|Hpm].
    + subst ob. rewrite <- Hsd in Hpo |- *.
      by apply (exit_cond_uncrossed_wf e1).
    + by apply (engine_wf_uncrossed e1 ob).
Qed.

Lemma engine_wf_init : engine_wf MatchingEngine_init.
Proof.
  assert (∀ b, side_wf [] b (OrderBookSide_init b)).
  { intros b. constructor; simpl; try done.
    - constructor.
    - intros p. rewrite lookup_empty, elem_of_nil. split; [done|].
      by intros [? ?]. }
  constructor; simpl; auto.
  intros pb pa. rewrite lookup_empty. by intros [? ?].
Qed.

Lemma best_price_level_wf l b s bp :
  side_wf l b s → best_price s = Some bp →
  is_Some (price_levels s !! bp).
Proof.
  intros Hs Hb. destruct (best_price_Some _ _ _ (wf_flag _ _ _ Hs) Hb)
    as [h Hh].
  apply (wf_heap _ _ _ Hs). rewrite Hh. by left.
Qed.




Lemma cancel_cases e ev :
  engine_wf e → Replayer.event_type ev = Replayer.CANCEL →
  Replayer.apply_market_event e ev = Returns e ∨
  ∃ p q tr target,
    price_levels (book e (my_is_bid (Replayer.side ev))) !! p = Some q ∧
    tr ∈ q ∧ objs e !! tr = Some target ∧
    Replayer.qty ev ≤ open_qty target ∧
    Replayer.apply_market_event e ev =
      Returns (set_objs e
                 (<[tr := set_qty target (qty target - Replayer.qty ev)]>
                    (objs e))).
Proof.
  intros Hok Hty. unfold Replayer.apply_market_event. rewrite Hty.
  replace (match Replayer.side ev with buy => bids e | sell => asks e end)
    with (book e (my_is_bid (Replayer.side ev)))
    by (by destruct (Replayer.side ev)).
  destruct (price_levels _ !! Replayer.price ev) as [q|] eqn:Hq; [|by left].
  destruct (last q) as [tr|] eqn:Hl; [|by left].
  assert (Hin : tr ∈ q).
  { apply last_Some in Hl as [q' ->]. apply elem_of_app. right. by left. }
  destruct (wf_resting _ _ _ (engine_wf_book e _ Hok) _ _ _ Hq Hin)
    as (target & Htr & _).
  rewrite (deref_Some _ _ _ Htr), bind_Returns.
  destruct (Z.leb_spec (Replayer.qty ev) (open_qty target)); [|by left].
  right. exists (Replayer.price ev), q, tr, target. by split_and!.
Qed.

Lemma set_qty_wf e tr target v :
  engine_wf e → objs e !! tr = Some target → 0 ≤ v - filled_qty target →
  engine_wf (set_objs e (<[tr := set_qty target v]> (objs e))).
Proof.
  intros Hok Htr Hv.
  assert (Hlook : ∀ r, <[tr := set_qty target v]> (objs e) !! r =
            if decide (r = tr) then Some (set_qty target v)
            else objs e !! r).
  { intros r. case_decide as E.
    - subst r. apply list_lookup_insert_eq. by eapply lookup_lt_Some.
    - by rewrite list_lookup_insert_ne. }
  assert (Hside : ∀ b, side_wf (<[tr := set_qty target v]> (objs e)) b
                         (book e b)).
  { intros b. eapply side_wf_store; [by apply engine_wf_book| |].
    - intros r o Hr. rewrite Hlook. case_decide as E.
      + subst r. assert (o = target) as -> by congruence.
        exists (set_qty target v). by split_and!.
      + exists o. by split_and!.
    - intros p q r o' Hq Hin. rewrite Hlook. case_decide as E.
      + intros [= <-]. unfold open_qty. simpl. lia.
      + intros Ho'.
        destruct (wf_resting _ _ _ (engine_wf_book e b Hok) _ _ _ Hq Hin)
          as (o & Ho & _ & _ & ?). congruence. }
  constructor; simpl.
  - apply (Hside true).
  - apply (Hside false).
  - apply (wf_uncrossed _ Hok).
Qed.

Lemma apply_market_event_add e ev :
  Replayer.event_type ev = Replayer.ADD →
  Replayer.apply_market_event e ev = Raises NameError.
Proof. unfold Replayer.apply_market_event. by intros ->. Qed.

Lemma apply_market_event_Returns e ev e' :
  Replayer.apply_market_event e ev = Returns e' →
  Replayer.event_type ev ≠ Replayer.ADD.
Proof. intros Hp Hty. by rewrite (apply_market_event_add e ev Hty) in Hp. Qed.

(** What an event that is no ['ADD'] does to a well-formed book. *)
Lemma apply_market_event_frame e ev :
  engine_wf e → Replayer.event_type ev ≠ Replayer.ADD →
  ∃ e', Replayer.apply_market_event e ev = Returns e' ∧ engine_wf e' ∧
    bids e' = bids e ∧ asks e' = asks e ∧ trades e' = trades e ∧
    length (objs e') = length (objs e) ∧
    ∀ r o, objs e !! r = Some o →
      ∃ o', objs e' !! r = Some o' ∧ id o' = id o ∧ side o' = side o ∧
            price o' = price o ∧ filled_qty o' = filled_qty o ∧
            (0 ≤ open_qty o → 0 ≤ open_qty o').
Proof.
  intros Hok Hty.
  destruct (Replayer.event_type ev) eqn:E; [done| |].
  - destruct (cancel_cases e ev Hok E)
      as [->|(p & q & tr & target & _ & _ & Htr & Hle & ->)].
    + exists e. split_and!; auto. intros r o Hr. exists o. by split_and!.
    + eexists. split; [done|]. simpl. split_and!; auto.
      * apply set_qty_wf; [done..|]. unfold open_qty in Hle. lia.
      * by rewrite length_insert.
      * intros r o Hr. destruct (decide (r = tr)) as [->|Hne].
        -- assert (o = target) as -> by congruence.
           exists (set_qty target (qty target - Replayer.qty ev)).
           split; [apply list_lookup_insert_eq; by eapply lookup_lt_Some|].
           split_and!; auto. unfold open_qty in *. simpl. lia.
        -- exists o. rewrite list_lookup_insert_ne by done. by split_and!.
  - unfold Replayer.apply_market_event. rewrite E.
    exists e. split_and!; auto. intros r o Hr. exists o. by split_and!.
Qed.

Lemma maintained_wf e : Replayer.maintained e → engine_wf e.
Proof.
  induction 1 as [|e o e' r _ IH Hp|e ev e' _ IH Hp]; [apply engine_wf_init| |].
  - destruct (process_order_returns_wf e o IH) as (e2 & r2 & Hp2 & Hok).
    congruence.
  - destruct (apply_market_event_frame e ev IH
                (apply_market_event_Returns _ _ _ Hp)) as (e2 & Hp2 & Hok & _).
    congruence.
Qed.

Lemma engine_wf_uncrossed_best e best_bid best_ask :
  engine_wf e →
  best_price (bids e) = Some best_bid → best_price (asks e) = Some best_ask →
  best_bid < best_ask.
Proof.
  intros Hok Hb Ha. apply (wf_uncrossed _ Hok).
  - eapply best_price_level_wf; [apply (wf_bids _ Hok)|done].
  - eapply best_price_level_wf; [apply (wf_asks _ Hok)|done].
Qed.

Lemma replay_outcome e evs :
  engine_wf e →
  (Exists (fun ev => Replayer.event_type ev = Replayer.ADD) evs →
   Replayer.replay e evs = Raises NameError) ∧
  (Forall (fun ev => Replayer.event_type ev ≠ Replayer.ADD) evs →
   ∃ e', Replayer.replay e evs = Returns e' ∧ engine_wf e' ∧
     bids e' = bids e ∧ asks e' = asks e ∧ trades e' = trades e).
Proof.
  revert e. induction evs as [|ev evs IH]; intros e Hok.
  - split; [by intros ?%Exists_nil|]. intros _. exists e. by split_and!.
  - assert (Replayer.event_type ev = Replayer.ADD ∨
            Replayer.event_type ev ≠ Replayer.ADD) as [Hty|Hty]
      by (destruct (Replayer.event_type ev); auto).
    + split.
      * intros _. simpl. by rewrite (apply_market_event_add e ev Hty).
      * intros [? _]%Forall_cons. done.
    + destruct (apply_market_event_frame e ev Hok Hty)
        as (e1 & Hp & Hok1 & Hb & Ha & Ht & _).
      destruct (IH e1 Hok1) as [IHx IHf]. simpl. rewrite Hp, bind_Returns.
      split.
      * intros [?|?]%Exists_cons; [done|by apply IHx].
      * intros [_ Hf]%Forall_cons.
        destruct (IHf Hf) as (e' & -> & ? & ? & ? & ?).
        exists e'. split_and!; auto; congruence.
Qed.

(** X16.  Market events in turn: on a book built by [process_order] calls
    and cancels, applying the events of a list one after the other raises
    [NameError] at its first ['ADD'] event, whatever comes before it; a
    list without ['ADD'] is applied to its end, and then both sides and
    the trade log are as they were and the book is not crossed. *)
Theorem replay_stops_at_add e evs :
  Replayer.maintained e →
  (Exists (fun ev => Replayer.event_type ev = Replayer.ADD) evs →
   Replayer.replay e evs = Raises NameError) ∧
  (Forall (fun ev => Replayer.event_type ev ≠ Replayer.ADD) evs →
   ∃ e', Replayer.replay e evs = Returns e' ∧
     bids e' = bids e ∧ asks e' = asks e ∧ trades e' = trades e ∧
     ∀ best_bid best_ask,
       best_price (bids e') = Some best_bid →
       best_price (asks e') = Some best_ask →
       best_bid < best_ask).
Proof.
  intros Hok%maintained_wf.
  destruct (replay_outcome e evs Hok) as [Hx Hf]. split; [done|].
  intros Hall. destruct (Hf Hall) as (e' & Hp & Hok' & ? & ? & ?).
  exists e'. split_and!; auto.
  intros bb ba. by apply engine_wf_uncrossed_best.
Qed.

(** X17.  A [CANCEL] event, or one whose type is neither ['ADD'] nor
    ['CANCEL'], never changes the structure of a book built by
    [process_order] calls and cancels: both sides (heaps, queues, index)
    and the trade log are as they were and the store keeps its length;
    every order keeps its id, side, price and filled quantity, and its
    open quantity does not become negative.  So an order cancelled in
    full stays in its queue, with nothing open. *)
Theorem cancel_keeps_the_book e ev :
  Replayer.maintained e → Replayer.event_type ev ≠ Replayer.ADD →
  ∃ e', Replayer.apply_market_event e ev = Returns e' ∧
    bids e' = bids e ∧ asks e' = asks e ∧ trades e' = trades e ∧
    length (objs e') = length (objs e) ∧
    ∀ r o, objs e !! r = Some o →
      ∃ o', objs e' !! r = Some o' ∧ id o' = id o ∧ side o' = side o ∧
            price o' = price o ∧ filled_qty o' = filled_qty o ∧
            (0 ≤ open_qty o → 0 ≤ open_qty o').
Proof.
  intros Hok%maintained_wf Hty.
  destruct (apply_market_event_frame e ev Hok Hty) as (e' & Hp & _ & H).
  by exists e'.
Qed.

Lemma maintained_run_orders e os e' :
  Replayer.maintained e → run_orders e os = Returns e' →
  Replayer.maintained e'.
Proof.
  revert e. induction os as [|o os IH]; intros e He; simpl.
  - by intros [= <-].
  - destruct (process_order e o) as [[e1 r]| |] eqn:Hp; try done.
    rewrite bind_Returns. apply IH. by eapply Replayer.maintained_order.
Qed.

Lemma orders_then_event_maintained os ev e :
  Replayer.orders_then_event os ev = Returns e → Replayer.maintained e.
Proof.
  unfold Replayer.orders_then_event.
  destruct (run_orders _ os) as [e1| |] eqn:Hr; try done.
  rewrite bind_Returns. intros Hp.
  eapply Replayer.maintained_event; [|exact Hp].
  eapply maintained_run_orders; [apply Replayer.maintained_init|exact Hr].
Qed.

Lemma mock_book_maintained : Replayer.maintained Replayer.mock_book.
Proof.
  apply (orders_then_event_maintained Replayer.mock_orders
           Replayer.mock_cancel).
  vm_compute. reflexivity.
Qed.

Lemma cancelled_book_maintained : Replayer.maintained Replayer.cancelled_book.
Proof.
  apply (orders_then_event_maintained (drop 2 Replayer.mock_orders)
           Replayer.mock_cancel).
  vm_compute. reflexivity.
Qed.

End ReplayFacts.

(** ** Trades after cancels *)

Section ReplayTrades.
Import Engine.

Lemma execute_trade_trades e m t q p e' :
  _execute_trade e m t q p = Returns e' →
  ∃ tr, trades e' = trades e ++ [tr].
Proof.
  unfold _execute_trade, update.
  repeat (match goal with
          | |- (?x ≫= _) = Returns _ → _ =>
              destruct x; simpl; try discriminate
          end).
  intros [= <-]. simpl. eauto.
Qed.

Lemma match_step_trades t e e' :
  match_step t e = Returns (Some e') → ∃ tr, trades e' = trades e ++ [tr].
Proof.
  unfold match_step.
  destruct (deref (objs e) t) as [order| |]; simpl; try discriminate.
  destruct (0 <? open_qty order); [|discriminate].
  destruct (best_price _) as [bp|]; [|discriminate].
  destruct (is_match order bp); [|discriminate].
  destruct (level _ bp) as [|maker rest]; [discriminate|].
  destruct (deref (objs e) maker) as [maker_order| |]; simpl;
    try discriminate.
  destruct (_execute_trade e maker t _ bp) as [e1| |] eqn:E; simpl;
    try discriminate.
  destruct (execute_trade_trades _ _ _ _ _ _ E) as [tr Htr].
  destruct (deref (objs e1) maker) as [maker_order'| |]; simpl;
    try discriminate.
  destruct (open_qty maker_order' =? 0); intros [= <-].
  - rewrite trades_set_book. eauto.
  - eauto.
Qed.

Lemma match_loop_trades fuel t e e' :
  match_loop fuel t e = Returns e' → ∃ more, trades e' = trades e ++ more.
Proof.
  revert e. induction fuel as [|fuel IH]; intros e; [discriminate|].
  simpl. destruct (match_step t e) as [[e1|]| |] eqn:E; simpl;
    try discriminate.
  - intros (more & Hm)%IH. destruct (match_step_trades _ _ _ E) as [tr Htr].
    exists (tr :: more). rewrite Hm, Htr. by rewrite <- app_assoc.
  - intros [= <-]. exists []. by rewrite app_nil_r.
Qed.

Lemma process_order_at_trades e t e' r fuel0 e0 :
  match_loop fuel0 t e = Returns e0 →
  process_order_at e t = Returns (e', r) →
  ∀ ot, objs e !! t = Some ot →
    fuel0 = S (resting_count
                 (price_levels (book e (opposing_is_bid (side ot))))) →
    trades e' = trades e0.
Proof.
  intros Hl Hp ot Ht ->. unfold process_order_at in Hp.
  rewrite (deref_Some _ _ _ Ht), bind_Returns in Hp. cbv beta zeta in Hp.
  rewrite Hl, bind_Returns in Hp.
  destruct (deref (objs e0) t) as [order| |]; simpl in Hp; try discriminate.
  destruct (0 <? open_qty order).
  - destruct (add _ _ _) as [s| |]; simpl in Hp; try discriminate.
    injection Hp as <- _. apply trades_set_book.
  - by injection Hp as <- _.
Qed.

(** X18.  On a book built by [process_order] calls and cancels, a
    marketable order still trades first with the order at the head of the
    best opposite level, for the smaller of the two open quantities; that
    order may have been cancelled in full, and then a trade of quantity 0
    is recorded against it. *)
Theorem first_trade_after_cancels e o bp :
  Replayer.maintained e → 0 < open_qty o →
  best_price (book e (opposing_is_bid (side o))) = Some bp →
  is_match o bp = true →
  ∃ e' r m rest om more,
    process_order e o = Returns (e', r) ∧
    price_levels (book e (opposing_is_bid (side o))) !! bp
      = Some (m :: rest) ∧
    objs e !! m = Some om ∧ 0 ≤ open_qty om ∧
    trades e' = trades e ++
      mkTrade bp (Z.min (open_qty o) (open_qty om)) (id om) (id o) :: more.
Proof.
  intros Hok%maintained_wf Hopen Hbest Hmatch.
  destruct (process_order_returns_wf e o Hok) as (e' & r & Hp & _).
  destruct (alloc_ok_wf e o Hok) as (Hok0 & Hfree0 & Ht0).
  fold (submitted e o) in *.
  assert (Hb0 : best_price (book (submitted e o) (opposing_is_bid (side o)))
                = Some bp)
    by (unfold submitted; by rewrite book_set_objs).
  destruct (match_step_cases_wf _ _ o Hok0 Ht0 Hfree0)
    as [[Hex _]|(bp' & m & rest & om & C & Hsome)].
  { exfalso. destruct Hex as [?|[Hn|(bp' & Hb' & Hm')]]; [lia|congruence|].
    congruence. }
  assert (bp' = bp) as ->.
  { pose proof (tw_best _ _ _ _ _ _ _ C). congruence. }
  unfold process_order in Hp. fold (submitted e o) in Hp.
  pose proof Hp as Hp0. unfold process_order_at in Hp0.
  rewrite (deref_Some _ _ _ Ht0), bind_Returns in Hp0. cbv beta zeta in Hp0.
  destruct (match_loop _ (length (objs e)) (submitted e o))
    as [e1| |] eqn:Hl; try discriminate Hp0. clear Hp0.
  pose proof (process_order_at_trades _ _ _ _ _ _ Hl Hp o Ht0 eq_refl) as Htr.
  simpl in Hl. rewrite Hsome, bind_Returns in Hl.
  destruct (match_loop_trades _ _ _ _ Hl) as (more & Hmore).
  pose proof (tw_level _ _ _ _ _ _ _ C) as Hlv.
  unfold submitted in Hlv. rewrite book_set_objs in Hlv.
  pose proof (tw_maker _ _ _ _ _ _ _ C) as Hm.
  destruct (wf_resting _ _ _ (engine_wf_book e _ Hok) _ _ _ Hlv
              ltac:(by left)) as (om' & Hm' & _ & _ & Hpos).
  assert (om' = om) as ->.
  { simpl in Hm. rewrite (lookup_app_l_Some _ _ _ _ Hm') in Hm. congruence. }
  exists e', r, m, rest, om, more. split_and!; auto.
  rewrite Htr, Hmore, trades_next_state. by rewrite <- app_assoc.
Qed.

End ReplayTrades.

(** ** The order of the event heap *)


Section HeapOrder.
Import Heapq.

Context {A : Type} (key : A → Z).
Implicit Types (heap : list A) (x y : A).

Local Abbreviation lt := (fun a b : A => key a <? key b).

Lemma parent_spec (i p : nat) :
  (0 < i)%nat →
  Nat.div2 (i - 1) = p ↔ (i = 2 * p + 1 ∨ i = 2 * p + 2)%nat.
Proof.
  intros Hi. pose proof (Nat.div2_odd (i - 1)) as E.
  destruct (Nat.odd (i - 1)); simpl in E; lia.
Qed.

Lemma parent_lt (i : nat) : (0 < i)%nat → (Nat.div2 (i - 1) < i)%nat.
Proof.
  intros Hi. pose proof (Nat.div2_odd (i - 1)) as E.
  destruct (Nat.odd (i - 1)); simpl in E; lia.
Qed.

Lemma lookup_insert_case heap (i j : nat) x :
  (i < length heap)%nat →
  <[i := x]> heap !! j = if decide (j = i) then Some x else heap !! j.
Proof.
  intros Hi. case_decide as E.
  - subst j. by apply list_lookup_insert_eq.
  - by apply list_lookup_insert_ne.
Qed.

Lemma siftdown_loop_heap fuel heap pos x :
  (pos < length heap)%nat → (pos ≤ fuel)%nat →
  heap_but key (<[pos := x]> heap) pos →
  is_heap key
    (<[snd (Heapq.siftdown_loop lt fuel heap 0 pos x) := x]>
       (fst (Heapq.siftdown_loop lt fuel heap 0 pos x))).
Proof.
  revert heap pos. induction fuel as [|fuel IH]; intros heap pos Hpos Hf Hb.
  { simpl. assert (pos = 0)%nat as -> by lia. destruct Hb as [Hb _].
    intros i a p Hi. apply Hb; [done|lia]. }
  simpl. destruct (Nat.ltb_spec 0 pos) as [Hlt|Hge].
  2:{ simpl. assert (pos = 0)%nat as -> by lia. destruct Hb as [Hb _].
      intros i a p Hi. apply Hb; [done|lia]. }
  pose proof (parent_lt pos Hlt) as Hpar.
  destruct (heap !! Nat.div2 (pos - 1)) as [parent|] eqn:Hp.
  2:{ apply lookup_ge_None in Hp. lia. }
  destruct (Z.ltb_spec (key x) (key parent)) as [Hxp|Hxp].
  2:{ simpl. destruct Hb as [Hb1 _]. intros i a p Hi Ha Hpa.
      destruct (decide (i = pos)) as [->|Hne]; [|by eapply Hb1].
      rewrite list_lookup_insert_eq in Ha by done. injection Ha as <-.
      rewrite list_lookup_insert_ne in Hpa by lia.
      assert (p = parent) as -> by congruence. lia. }
  apply IH; [rewrite length_insert; lia|lia|].
  set (pp := Nat.div2 (pos - 1)) in *.
  assert (Hlook : ∀ j, <[pp := x]> (<[pos := parent]> heap) !! j =
            if decide (j = pp) then Some x
            else if decide (j = pos) then Some parent else heap !! j).
  { intros j. rewrite lookup_insert_case by (rewrite length_insert; lia).
    case_decide; [done|]. by rewrite lookup_insert_case. }
  assert (Hlook0 : ∀ j, <[pos := x]> heap !! j =
            if decide (j = pos) then Some x else heap !! j).
  { intros j. by apply lookup_insert_case. }
  destruct Hb as [Hb1 Hb2].
  assert (Hparent : ∀ i a, (0 < i)%nat → i ≠ pos → heap !! i = Some a →
            Nat.div2 (i - 1) = pp → key parent ≤ key a).
  { intros i a Hi Hne Ha Hpi. apply (Hb1 i a parent Hi Hne).
    - by rewrite Hlook0, decide_False.
    - rewrite Hpi, Hlook0, decide_False by lia. done. }
  split.
  - intros i a b Hi Hne. rewrite !Hlook. rewrite decide_False by done.
    destruct (decide (i = pos)) as [->|Hip].
    + fold pp. rewrite decide_True by done. intros [= <-] [= <-]. lia.
    + intros Ha. destruct (decide (Nat.div2 (i - 1) = pp)) as [Epp|Epp].
      { intros [= <-]. pose proof (Hparent i a Hi Hip Ha Epp). lia. }
      destruct (decide (Nat.div2 (i - 1) = pos)) as [Eps|Eps].
      { intros [= <-]. apply (Hb2 i a parent Hlt Hi Eps).
        - by rewrite Hlook0, decide_False.
        - fold pp. rewrite Hlook0, decide_False by lia. done. }
      intros Hb. apply (Hb1 i a b Hi Hip).
      * by rewrite Hlook0, decide_False.
      * by rewrite Hlook0, decide_False.
  - intros c a g Hpp Hc Hcp. rewrite !Hlook.
    pose proof (parent_lt pp Hpp) as Hgp.
    pose proof (parent_lt c Hc) as Hcc.
    rewrite (decide_False (P := c = pp)) by lia.
    rewrite (decide_False (P := Nat.div2 (pp - 1) = pp)) by lia.
    rewrite (decide_False (P := Nat.div2 (pp - 1) = pos)) by lia.
    intros Ha Hg.
    assert (Hgpar : key g ≤ key parent).
    { apply (Hb1 pp parent g Hpp); [lia| |].
      - rewrite Hlook0, decide_False by lia. done.
      - rewrite Hlook0, decide_False by lia. done. }
    destruct (decide (c = pos)) as [->|Hcpos].
    + injection Ha as <-. done.
    + pose proof (Hparent c a Hc Hcpos Ha Hcp). lia.
Qed.

Lemma siftdown_heap heap pos :
  (pos < length heap)%nat → heap_but key heap pos →
  is_heap key (Heapq._siftdown lt heap 0 pos).
Proof.
  intros Hpos Hb. unfold Heapq._siftdown.
  destruct (heap !! pos) as [x|] eqn:Hx.
  2:{ apply lookup_ge_None in Hx. lia. }
  pose proof (siftdown_loop_heap pos heap pos x Hpos ltac:(lia)) as H.
  rewrite list_insert_id in H by done. specialize (H Hb).
  by destruct (Heapq.siftdown_loop lt pos heap 0 pos x).
Qed.

Lemma heappush_heap heap x :
  is_heap key heap → is_heap key (Heapq.heappush lt heap x).
Proof.
  intros Hh. unfold Heapq.heappush. apply siftdown_heap.
  { rewrite length_app. simpl. lia. }
  split.
  - intros i a p Hi Hne Ha Hp.
    assert (Hlt : (i < length heap)%nat).
    { apply lookup_lt_Some in Ha. rewrite length_app in Ha. simpl in Ha.
      lia. }
    pose proof (parent_lt i Hi).
    rewrite lookup_app_l in Ha, Hp by lia. by eapply Hh.
  - intros c a g Hpos Hc Hcp Ha.
    apply lookup_lt_Some in Ha. rewrite length_app in Ha. simpl in Ha.
    apply parent_spec in Hcp; [|done]. lia.
Qed.

Lemma siftup_loop_heap fuel heap pos :
  (pos < length heap)%nat → (length heap ≤ pos + fuel)%nat →
  heap_hole key heap pos →
  let r := Heapq.siftup_loop lt fuel heap (length heap) pos in
  (snd r < length (fst r))%nat ∧
  (∀ x, heap_but key (<[snd r := x]> (fst r)) (snd r)).
Proof.
  revert heap pos. induction fuel as [|fuel IH]; intros heap pos Hpos Hf Hh.
  { lia. }
  unfold Heapq.siftup_loop; fold (Heapq.siftup_loop lt). cbv beta.
  destruct (Nat.ltb_spec (2 * pos + 1) (length heap)) as [Hlt|Hleaf].
  2:{ cbv zeta. simpl. split; [done|]. intros x. destruct Hh as [Hh1 Hh2].
      assert (Hnochild : ∀ (c : nat) a, (0 < c)%nat →
                Nat.div2 (c - 1) = pos →
                <[pos := x]> heap !! c = Some a → False).
      { intros c a Hc Hcp Ha. apply lookup_lt_Some in Ha.
        rewrite length_insert in Ha. apply parent_spec in Hcp; [|done].
        lia. }
      split.
      - intros i a p Hi Hne Ha Hp.
        destruct (decide (Nat.div2 (i - 1) = pos)) as [E|E];
          [by destruct (Hnochild i a Hi E Ha)|].
        rewrite list_lookup_insert_ne in Ha, Hp by done.
        by eapply Hh1.
      - intros c a g _ Hc Hcp Ha. by destruct (Hnochild c a Hc Hcp Ha). }
  set (childpos :=
    if (2 * pos + 1 + 1 <? length heap)%nat then
      match heap !! (2 * pos + 1)%nat, heap !! (2 * pos + 1 + 1)%nat with
      | Some c, Some r =>
          if key c <? key r then (2 * pos + 1)%nat else (2 * pos + 1 + 1)%nat
      | _, _ => (2 * pos + 1)%nat
      end
    else (2 * pos + 1)%nat).
  assert (Hchoice : (childpos < length heap)%nat ∧
            (childpos = 2 * pos + 1 ∨ childpos = 2 * pos + 2)%nat ∧
            ∀ (s : nat) cv sv, (0 < s)%nat → Nat.div2 (s - 1) = pos →
              heap !! childpos = Some cv → heap !! s = Some sv →
              key cv ≤ key sv).
  { subst childpos.
    destruct (lookup_lt_is_Some_2 heap (2 * pos + 1) Hlt) as [cl Hcl].
    destruct (Nat.ltb_spec (2 * pos + 1 + 1) (length heap)) as [Hr|Hr].
    - destruct (lookup_lt_is_Some_2 heap (2 * pos + 1 + 1) Hr) as [cr Hcr].
      rewrite Hcl, Hcr.
      destruct (Z.ltb_spec (key cl) (key cr)) as [Hc|Hc].
      + split; [lia|]. split; [lia|]. intros s cv sv Hs Hsp Hcv Hsv.
        apply (parent_spec s pos Hs) in Hsp as [->| ->].
        * assert (cv = sv) as -> by congruence. lia.
        * replace (2 * pos + 2)%nat with (2 * pos + 1 + 1)%nat in Hsv by lia.
          assert (cv = cl) as -> by congruence.
          assert (sv = cr) as -> by congruence. lia.
      + split; [lia|]. split; [lia|]. intros s cv sv Hs Hsp Hcv Hsv.
        apply (parent_spec s pos Hs) in Hsp as [->| ->].
        * assert (cv = cr) as -> by congruence.
          assert (sv = cl) as -> by congruence. lia.
        * replace (2 * pos + 2)%nat with (2 * pos + 1 + 1)%nat in Hsv by lia.
          assert (cv = sv) as -> by congruence. lia.
    - split; [lia|]. split; [lia|]. intros s cv sv Hs Hsp Hcv Hsv.
      apply (parent_spec s pos Hs) in Hsp as [->| ->].
      * assert (cv = sv) as -> by congruence. lia.
      * apply lookup_lt_Some in Hsv. lia. }
  destruct Hchoice as (Hcl & Hcc & Hmin).
  destruct (heap !! childpos) as [cv|] eqn:Hcv.
  2:{ apply lookup_ge_None in Hcv. lia. }
  cbv zeta.
  assert (Hcpar : Nat.div2 (childpos - 1) = pos).
  { apply parent_spec; lia. }
  specialize (IH (<[pos := cv]> heap) childpos).
  rewrite length_insert in IH. apply IH; [done|lia|].
  assert (Hlook : ∀ j, <[pos := cv]> heap !! j =
            if decide (j = pos) then Some cv else heap !! j).
  { intros j. by apply lookup_insert_case. }
  destruct Hh as [Hh1 Hh2]. split.
  - intros i a b Hi Hne Hpne. rewrite !Hlook.
    destruct (decide (i = pos)) as [->|Hip].
    + intros [= <-]. pose proof (parent_lt pos Hi).
      rewrite decide_False by lia. intros Hb.
      apply (Hh2 childpos cv b Hi ltac:(lia) Hcpar Hcv Hb).
    + intros Ha. destruct (decide (Nat.div2 (i - 1) = pos)) as [E|E].
      * intros [= <-]. by apply (Hmin i cv a Hi E).
      * intros Hb. by apply (Hh1 i a b).
  - intros d a g Hc0 Hd Hdp. rewrite !Hlook.
    pose proof (parent_lt d Hd).
    rewrite (decide_False (P := d = pos)) by lia.
    rewrite Hcpar, decide_True by done. intros Ha [= <-].
    apply (Hh1 d a cv Hd); [lia|lia|done|].
    by rewrite Hdp.
Qed.

Lemma siftup_heap heap :
  (0 < length heap)%nat → heap_hole key heap 0 →
  is_heap key (Heapq._siftup lt heap 0).
Proof.
  intros Hlen Hh. unfold Heapq._siftup.
  destruct (heap !! 0%nat) as [x|] eqn:Hx.
  2:{ apply lookup_ge_None in Hx. lia. }
  pose proof (siftup_loop_heap (length heap) heap 0 Hlen ltac:(lia) Hh)
    as H. cbv zeta in H.
  destruct (Heapq.siftup_loop lt (length heap) heap (length heap) 0)
    as [heap' pos']. simpl in H. destruct H as [Hpos Hb].
  apply siftdown_heap; [by rewrite length_insert|apply Hb].
Qed.

Lemma heap_root_min heap r :
  is_heap key heap → heap !! 0%nat = Some r →
  ∀ (i : nat) x, heap !! i = Some x → key r ≤ key x.
Proof.
  intros Hh Hr i. induction (lt_wf i) as [i _ IH]. intros x Hx.
  destruct (decide (i = 0)%nat) as [->|Hne].
  { assert (x = r) as -> by congruence. lia. }
  pose proof (parent_lt i ltac:(lia)) as Hp.
  destruct (lookup_lt_is_Some_2 heap (Nat.div2 (i - 1))) as [p Hpp].
  { apply lookup_lt_Some in Hx. lia. }
  pose proof (IH _ Hp p Hpp).
  pose proof (Hh i x p ltac:(lia) Hx Hpp). lia.
Qed.

Lemma heappop_heap heap x heap' :
  is_heap key heap → Heapq.heappop lt heap = Some (x, heap') →
  is_heap key heap' ∧ ∀ y, y ∈ heap' → key x ≤ key y.
Proof.
  intros Hh Hp.
  assert (Hmin : ∀ y, y ∈ heap' → key x ≤ key y).
  { intros y Hy.
    pose proof (heappop_perm lt heap x heap' Hp) as Hperm.
    assert (Hx0 : heap !! 0%nat = Some x).
    { revert Hp. unfold Heapq.heappop.
      destruct heap as [|a heap _] using rev_ind; [done|].
      rewrite last_snoc, removelast_last.
      destruct heap as [|r heap]; intros [= <- <-]; done. }
    assert (Hin : y ∈ heap) by (rewrite Hperm; by right).
    apply list_elem_of_lookup in Hin as [i Hi].
    by eapply heap_root_min. }
  split; [|done]. revert Hp. unfold Heapq.heappop.
  destruct heap as [|lastelt heap _] using rev_ind; [done|].
  rewrite last_snoc, removelast_last.
  destruct heap as [|returnitem heap]; intros [= <- <-].
  { intros i a p Hi Ha. by rewrite lookup_nil in Ha. }
  apply siftup_heap; [simpl; lia|]. split.
  - intros i a p Hi _ Hpne Ha Hpa.
    destruct i as [|i]; [lia|].
    destruct (Nat.div2 (S i - 1)) as [|j] eqn:Ej; [done|].
    simpl in Ha, Hpa.
    apply (Hh (S i) a p Hi).
    + simpl. by apply lookup_app_l_Some.
    + rewrite Ej. simpl. by apply lookup_app_l_Some.
  - intros c a g Hpos. lia.
Qed.

(** X19.  The event queue of the scheduler is a correct priority queue:
    on a list in heap order by a key, [heapq.heappush] adds the item and
    keeps the heap order, and [heapq.heappop] fails on the empty list
    only, and otherwise takes out an element of least key, keeps the
    others and the heap order. *)
Theorem heapq_keeps_order heap x :
  is_heap key heap →
  (is_heap key (Heapq.heappush lt heap x) ∧
   Heapq.heappush lt heap x ≡ₚ x :: heap) ∧
  match Heapq.heappop lt heap with
  | None => heap = []
  | Some (y, heap') =>
      heap ≡ₚ y :: heap' ∧ is_heap key heap' ∧
      ∀ z, z ∈ heap → key y ≤ key z
  end.
Proof.
  intros Hh. split; [split; [by apply heappush_heap|apply heappush_perm]|].
  destruct (Heapq.heappop lt heap) as [[y heap']|] eqn:Hp.
  - pose proof (heappop_perm _ _ _ _ Hp) as Hperm.
    destruct (heappop_heap _ _ _ Hh Hp) as [Hh' Hmin].
    split_and!; [done..|]. intros z. rewrite Hperm.
    intros [->|Hz]%elem_of_cons; [lia|by apply Hmin].
  - by apply (heappop_None lt).
Qed.

End HeapOrder.

(** ** The scheduler and the book sides of [simulation.py] *)

Section BookSideFacts.
Import Simulation.

Lemma BidBook_best_price_spec (levels : gmap Z Z) :
  match BidBook_best_price levels with
  | None => levels = ∅
  | Some bp => is_Some (levels !! bp) ∧
               ∀ p, is_Some (levels !! p) → p ≤ bp
  end.
Proof.
  unfold BidBook_best_price.
  apply (map_fold_weak_ind
    (fun (acc : option Z) (m : gmap Z Z) =>
       match acc with
       | None => m = ∅
       | Some bp => is_Some (m !! bp) ∧ ∀ p, is_Some (m !! p) → p ≤ bp
       end)); [done|].
  intros k q m acc Hk IH. destruct acc as [a|].
  - destruct IH as [Ha Hmax]. split.
    + destruct (Z.max_spec a k) as [[_ ->]|[_ ->]].
      * rewrite lookup_insert_eq. eauto.
      * rewrite lookup_insert_ne; [done|]. intros <-.
        rewrite Hk in Ha. by destruct Ha.
    + intros p. destruct (decide (p = k)) as [->|Hne].
      * lia.
      * rewrite lookup_insert_ne by done. intros Hp%Hmax. lia.
  - subst m. split; [rewrite lookup_insert_eq; eauto|].
    intros p. destruct (decide (p = k)) as [->|Hne]; [lia|].
    rewrite lookup_insert_ne, lookup_empty by done. by intros [? ?].
Qed.

Lemma AskBook_best_price_spec (levels : gmap Z Z) :
  match AskBook_best_price levels with
  | None => levels = ∅
  | Some bp => is_Some (levels !! bp) ∧
               ∀ p, is_Some (levels !! p) → bp ≤ p
  end.
Proof.
  unfold AskBook_best_price.
  apply (map_fold_weak_ind
    (fun (acc : option Z) (m : gmap Z Z) =>
       match acc with
       | None => m = ∅
       | Some bp => is_Some (m !! bp) ∧ ∀ p, is_Some (m !! p) → bp ≤ p
       end)); [done|].
  intros k q m acc Hk IH. destruct acc as [a|].
  - destruct IH as [Ha Hmin]. split.
    + destruct (Z.min_spec a k) as [[_ ->]|[_ ->]].
      * rewrite lookup_insert_ne; [done|]. intros <-.
        rewrite Hk in Ha. by destruct Ha.
      * rewrite lookup_insert_eq. eauto.
    + intros p. destruct (decide (p = k)) as [->|Hne].
      * lia.
      * rewrite lookup_insert_ne by done. intros Hp%Hmin. lia.
  - subst m. split; [rewrite lookup_insert_eq; eauto|].
    intros p. destruct (decide (p = k)) as [->|Hne]; [lia|].
    rewrite lookup_insert_ne, lookup_empty by done. by intros [? ?].
Qed.

(** X20.  [BidBook.best_price] and [AskBook.best_price] of
    [simulation.py]: [None] exactly on a side without levels, otherwise
    the price of a level, the highest of the bids and the lowest of the
    asks. *)
Theorem best_price_extremal (levels : gmap Z Z) :
  match BidBook_best_price levels with
  | None => levels = ∅
  | Some bp => is_Some (levels !! bp) ∧
               ∀ p, is_Some (levels !! p) → p ≤ bp
  end ∧
  match AskBook_best_price levels with
  | None => levels = ∅
  | Some bp => is_Some (levels !! bp) ∧
               ∀ p, is_Some (levels !! p) → bp ≤ p
  end.
Proof.
  split; [apply BidBook_best_price_spec|apply AskBook_best_price_spec].
Qed.

(** X21.  [BookSide.remove_order] undoes [BookSide.add_order]: removing
    the quantity just added at a price gives the levels back, when the
    quantity that stood at that price, if any, was positive. *)
Theorem remove_order_add_order (levels : gmap Z Z) price qty :
  (∀ q, levels !! price = Some q → 0 < q) →
  remove_order (add_order levels price qty) price qty = levels.
Proof.
  intros Hpos. unfold remove_order, add_order. rewrite lookup_insert_eq.
  destruct (levels !! price) as [q|] eqn:E; simpl.
  - specialize (Hpos q eq_refl).
    replace (q + qty - qty) with q by lia.
    destruct (q <=? 0) eqn:Hq; [apply Z.leb_le in Hq; lia|].
    rewrite insert_insert_eq. by apply insert_id.
  - replace (0 + qty - qty) with 0 by lia. simpl.
    rewrite delete_insert_eq. by apply delete_id.
Qed.

End BookSideFacts.


Section SchedulerRuns.
Import Simulation.

Context {L T : Type} `{LatencyModel L} `{Strategy T}.
Implicit Types (r : SimulationRunner L T).

Lemma run_step_Some r r' :
  run_step r = Returns (Some r') →
  ∃ ev events1,
    events r ≡ₚ ev :: events1 ∧
    match body ev with
    | MARKET m =>
        ∃ r2, _handle_market_event
                (mkRunner (engine r) (latency r) (strategy r) events1
                   (sim_timestamp ev) (market_stream r) (log r)) m
              = Returns r2 ∧
              r' = _schedule_next_market_event r2
    | ORDER_ARRIVAL o =>
        r' = _handle_order_arrival
               (mkRunner (engine r) (latency r) (strategy r) events1
                  (sim_timestamp ev) (market_stream r) (log r)) o
    end.
Proof.
  unfold run_step.
  destruct (Heapq.heappop SimEvent_lt (events r)) as [[ev events1]|] eqn:Hp;
    [|discriminate].
  intros Hs. exists ev, events1.
  split; [by eapply heappop_perm|].
  destruct (body ev) as [m|o].
  - destruct (_handle_market_event _ m) as [r2| |]; simplify_eq/=.
    injection Hs as <-. eauto.
  - injection Hs as <-. done.
Qed.

Lemma run_step_None r : run_step r = Returns None → events r = [].
Proof.
  unfold run_step.
  destruct (Heapq.heappop SimEvent_lt (events r)) as [[ev events1]|] eqn:Hp.
  - destruct (body ev) as [m|o]; [|discriminate].
    by destruct (_handle_market_event _ m).
  - intros _. by eapply heappop_None.
Qed.

Lemma handle_market_event_Returns r m r2 :
  _handle_market_event r m = Returns r2 →
  engine r2 = apply_market_event (engine r) m ∧
  strategy r2 = snd (on_market_update (strategy r)
                       (apply_market_event (engine r) m)) ∧
  current_time r2 = current_time r ∧
  market_stream r2 = market_stream r ∧
  match fst (on_market_update (strategy r)
               (apply_market_event (engine r) m)) with
  | Some order =>
      ∃ us, int_of_float (fst (next_latency_ms (latency r)) * 1000)%float
            = Returns us ∧
        events r2 ≡ₚ
          mkSimEvent (current_time r + us) (ORDER_ARRIVAL order) :: events r ∧
        log r2 = log r ++
          [LogMarket (current_time r) m;
           LogNetwork (fst (next_latency_ms (latency r)))
             (current_time r + us)]
  | None => events r2 = events r ∧
            log r2 = log r ++ [LogMarket (current_time r) m]
  end.
Proof.
  unfold _handle_market_event.
  destruct (on_market_update _ _) as [[order|] strategy1]; simpl.
  - destruct (next_latency_ms (latency r)) as [latency_ms latency1]. simpl.
    destruct (int_of_float _) as [us| |]; simpl; [|discriminate..].
    intros [= <-]. simpl. split_and!; auto. exists us. split_and!; auto.
    + apply heappush_perm.
    + by rewrite <- app_assoc.
  - intros [= <-]. simpl. by split_and!.
Qed.

Lemma schedule_next_cases r :
  (market_stream r = [] ∧ _schedule_next_market_event r = r) ∨
  ∃ evt stream,
    market_stream r = evt :: stream ∧
    engine (_schedule_next_market_event r) = engine r ∧
    latency (_schedule_next_market_event r) = latency r ∧
    strategy (_schedule_next_market_event r) = strategy r ∧
    events (_schedule_next_market_event r)
      ≡ₚ mkSimEvent (ev_timestamp evt) (MARKET evt) :: events r ∧
    current_time (_schedule_next_market_event r) = current_time r ∧
    market_stream (_schedule_next_market_event r) = stream ∧
    log (_schedule_next_market_event r) = log r.
Proof.
  unfold _schedule_next_market_event.
  destruct (market_stream r) as [|evt stream] eqn:E; [by left|].
  right. exists evt, stream. simpl. split_and!; auto. apply heappush_perm.
Qed.

(** A property that every pass of the loop of [run] keeps holds when the
    loop has ended, and the event queue is empty then. *)
Lemma run_loop_invariant (P : SimulationRunner L T → Prop) :
  (∀ r r', P r → run_step r = Returns (Some r') → P r') →
  ∀ fuel r r', P r → run_loop fuel r = Returns r' → P r' ∧ events r' = [].
Proof.
  intros Hstep fuel. induction fuel as [|fuel IH]; intros r r' Hr; [done|].
  simpl. destruct (run_step r) as [[r1|]| |] eqn:E; simpl; try done.
  - apply IH. by eapply Hstep.
  - intros [= <-]. split; [done|]. by apply run_step_None.
Qed.

Lemma run_invariant (P : SimulationRunner L T → Prop) r r' :
  (∀ r r', P r → run_step r = Returns (Some r') → P r') →
  P (mkRunner (engine r) (latency r) (strategy r) (events r)
       (current_time r) (market_stream r) (log r ++ [LogStart])) →
  run r = Returns r' → P r' ∧ events r' = [].
Proof. intros Hstep Hr. unfold run. by apply run_loop_invariant. Qed.




End SchedulerRuns.

Section SchedulerRuns2.
Import Simulation.

Context {L T : Type} `{LatencyModel L} `{Strategy T}.
Implicit Types (r : SimulationRunner L T).







End SchedulerRuns2.

Section SchedulerExtras.
Import Simulation.

Context {L T : Type} `{LatencyModel L} `{Strategy T}.



End SchedulerExtras.

Section MarketMakerRuns.
Import Simulation.

Context {L : Type} `{LatencyModel L}.
Implicit Types (r : SimulationRunner L SimpleMarketMaker).

Lemma pending_orders_cons ev (h : list SimEvent) :
  pending_orders (ev :: h) =
    match body ev with
    | MARKET _ => pending_orders h
    | ORDER_ARRIVAL o => o :: pending_orders h
    end.
Proof. unfold pending_orders. simpl. by destruct (body ev). Qed.

Lemma pending_orders_perm (h h' : list SimEvent) :
  h ≡ₚ h' → pending_orders h ≡ₚ pending_orders h'.
Proof. intros Hp. unfold pending_orders. by rewrite Hp. Qed.

Lemma maker_update (self : SimpleMarketMaker) engine0 :
  (fst (on_market_update self engine0) = None ∧
   snd (on_market_update self engine0) = self) ∨
  (fst (on_market_update self engine0) = Some maker_order ∧
   sent_order self = false ∧
   sent_order (snd (on_market_update self engine0)) = true).
Proof.
  simpl. destruct (BidBook_best_price (bids engine0)) as [bb|]; [|by left].
  destruct (sent_order self) eqn:E; simpl; [by left|].
  destruct (negb (bb =? 0) && (10000 <=? bb)); [by right|by left].
Qed.

Lemma maker_inv_step r r' :
  maker_inv r → run_step r = Returns (Some r') → maker_inv r'.
Proof.
  unfold maker_inv.
  intros Hinv (ev & events1 & Hperm & Hb)%run_step_Some.
  pose proof (pending_orders_perm _ _ Hperm) as Hpo.
  rewrite pending_orders_cons in Hpo.
  destruct (body ev) as [m|o] eqn:Hbody.
  - destruct Hb as (r2 & Hh & ->).
    pose proof (handle_market_event_Returns _ _ _ Hh)
      as (_ & Hst & _ & _ & Hcase).
    cbn [engine strategy latency events current_time market_stream log]
      in *.
    assert (H2 : maker_inv r2).
    { unfold maker_inv. rewrite Hst.
      destruct (maker_update (strategy r)
                  (apply_market_event (engine r) m))
        as [[Hn ->]|(Hs & Hf & ->)].
      - rewrite Hn in Hcase. destruct Hcase as (-> & ->).
        unfold processed_orders. rewrite omap_app. simpl.
        rewrite app_nil_r. fold (processed_orders (log r)).
        by rewrite <- Hinv, Hpo.
      - rewrite Hs in Hcase. destruct Hcase as (us & _ & Hp2 & ->).
        rewrite (pending_orders_perm _ _ Hp2), pending_orders_cons. simpl.
        unfold processed_orders. rewrite omap_app. simpl.
        rewrite app_nil_r. fold (processed_orders (log r)).
        rewrite Hf, Hpo in Hinv.
        apply Permutation_nil_r in Hinv.
        apply app_eq_nil in Hinv as [-> ->]. done. }
    destruct (schedule_next_cases r2)
      as [[_ ->]|(evt & stream' & _ & _ & _ & Hs' & Hev & _ & _ & Hlog)];
      [done|].
    unfold maker_inv in H2. rewrite Hlog, Hs'.
    by rewrite (pending_orders_perm _ _ Hev), pending_orders_cons.
  - subst r'. unfold _handle_order_arrival. simpl.
    destruct (process_order (engine r) o) as [engine1 status]. simpl.
    unfold processed_orders. rewrite omap_app. simpl.
    fold (processed_orders (log r)).
    rewrite <- Hinv, Hpo, <- app_assoc. done.
Qed.

Lemma maker_inv_init replayer engine0 (lat : L) :
  let r0 := SimulationRunner_init replayer engine0 lat
              SimpleMarketMaker_init in
  maker_inv
    (mkRunner (engine r0) (latency r0) (strategy r0) (events r0)
       (current_time r0) (market_stream r0) (log r0 ++ [LogStart])).
Proof.
  unfold maker_inv, SimulationRunner_init, _schedule_next_market_event.
  simpl. by destruct (stream_events replayer) as [|evt stream].
Qed.

(** X24.  With [SimpleMarketMaker] at most one order reaches the engine
    in a run: the orders processed are [Order(999, 'buy', 100.05, 10, 0)]
    alone when the strategy has set [sent_order], and none otherwise. *)
Theorem market_maker_sends_once replayer engine0 (lat : L) self :
  run (SimulationRunner_init replayer engine0 lat SimpleMarketMaker_init)
    = Returns self →
  processed_orders (log self)
  = if sent_order (strategy self) then [maker_order] else [].
Proof.
  intros Hrun.
  destruct (run_invariant maker_inv _ _ maker_inv_step
              (maker_inv_init _ _ _) Hrun) as [Hinv Hev].
  unfold maker_inv in Hinv. rewrite Hev in Hinv. simpl in Hinv.
  rewrite app_nil_r in Hinv.
  destruct (sent_order (strategy self)).
  - by apply Permutation_singleton_r in Hinv.
  - by apply Permutation_nil_r in Hinv.
Qed.

End MarketMakerRuns.

(** ** The clock of the scheduler *)

Section FloatSign.
Import Simulation.

Lemma round_sign sx mx ex lx :
  match binary_round_aux prec emax sx mx ex lx with
  | S754_zero s | S754_finite s _ _ | S754_infinity s => s = sx
  | S754_nan => True
  end.
Proof.
  unfold binary_round_aux.
  destruct (shr_fexp prec emax mx ex lx) as [mrs' e'].
  destruct (shr_fexp prec emax _ e' loc_Exact) as [mrs'' e''].
  destruct (shr_m mrs''); try done.
  by destruct (_ <=? _).
Qed.

(** A latency that is not below 0.1 ms is not negative in microseconds. *)
Lemma latency_us_nonneg (x : float) us :
  PrimFloat.leb 0x1.999999999999ap-4 x = true →
  int_of_float (x * 1000)%float = Returns us → 0 ≤ us.
Proof.
  rewrite leb_spec. unfold int_of_float. rewrite mul_spec.
  change (Prim2SF 1000) with (S754_finite false 8796093022208000 (-43)).
  change (Prim2SF 0x1.999999999999ap-4)
    with (S754_finite false 7205759403792794 (-56)).
  destruct (Prim2SF x) as [s|s| |s m e]; simpl; try done.
  destruct s; [done|]. intros _. simpl xorb.
  pose proof (round_sign false
                (Z.pos (m * 8796093022208000)) (e + -43) loc_Exact) as Hs.
  destruct (binary_round_aux _ _ _ _ _ _) as [s'|s'| |s' m' e'];
    try done.
  - intros [= <-]. lia.
  - subst s'. intros [= <-]. apply Z.shiftl_nonneg. lia.
Qed.

End FloatSign.

Section LatencyFloor.
Import Simulation.

Context {R : Type} `{PyRandom R}.

Lemma ltb_leb (x y : float) :
  PrimFloat.ltb x y = true → PrimFloat.leb x y = true.
Proof.
  rewrite ltb_spec, leb_spec. unfold SFltb, SFleb.
  by destruct (SFcompare (Prim2SF x) (Prim2SF y)) as [[]|].
Qed.

(** X25.  The latency model of [simulation.py] never gives less than
    0.1 ms, whatever the Gaussian draw (a NaN draw gives 0.1 as well): no
    sample is negative or a drop signal, and [packet_loss_rate] is never
    read.  One draw is taken and the configuration is kept. *)
Theorem latency_floor (self : LatencySimulator R) :
  PrimFloat.leb 0x1.999999999999ap-4 (fst (next_latency_ms self)) = true ∧
  snd (next_latency_ms self) =
    mkLatencySimulator (config self)
      (snd (gauss (mean_latency_ms (config self))
              (std_dev_latency_ms (config self)) (random self))).
Proof.
  simpl. destruct (gauss _ _ (random self)) as [x r]. simpl.
  split; [|done].
  destruct (PrimFloat.ltb 0x1.999999999999ap-4 x) eqn:E.
  - by apply ltb_leb.
  - reflexivity.
Qed.

End LatencyFloor.


Section SchedulerClock.
Import Simulation Heapq.

Context {L T : Type} `{LatencyModel L} `{Strategy T}.
Implicit Types (r : SimulationRunner L T).

Hypothesis latency_nonneg : ∀ (l : L) us,
  int_of_float (fst (next_latency_ms l) * 1000)%float = Returns us → 0 ≤ us.

Lemma events_push_heap (h : list SimEvent) x :
  is_heap sim_timestamp h →
  is_heap sim_timestamp (Heapq.heappush SimEvent_lt h x).
Proof. exact (heappush_heap sim_timestamp h x). Qed.

Lemma events_pop_heap (h : list SimEvent) x h' :
  is_heap sim_timestamp h → Heapq.heappop SimEvent_lt h = Some (x, h') →
  is_heap sim_timestamp h' ∧
  ∀ y, y ∈ h' → sim_timestamp x ≤ sim_timestamp y.
Proof. exact (heappop_heap sim_timestamp h x h'). Qed.

Lemma elem_of_events_push (h : list SimEvent) x y :
  y ∈ Heapq.heappush SimEvent_lt h x ↔ y = x ∨ y ∈ h.
Proof. by rewrite heappush_perm, elem_of_cons. Qed.

Lemma log_times_app l1 l2 : log_times (l1 ++ l2) = log_times l1 ++ log_times l2.
Proof. unfold log_times. apply omap_app. Qed.

Lemma sorted_snoc (l : list Z) c :
  StronglySorted Z.le l → (∀ t, t ∈ l → t ≤ c) →
  StronglySorted Z.le (l ++ [c]).
Proof.
  intros Hs Hc. apply StronglySorted_snoc; [done|]. by apply Forall_forall.
Qed.

(** The state after an event has been taken off the queue and the clock
    set, when the log has recorded the time [c] of the event. *)
Lemma clock_inv_handled r ev events1 evs lg (strat : T) (lat : L) eng :
  clock_inv r →
  Heapq.heappop SimEvent_lt (events r) = Some (ev, events1) →
  log_times lg = log_times (log r) ++ [sim_timestamp ev] →
  (∀ y, y ∈ evs → y ∈ events1 ∨
        (sim_timestamp ev ≤ sim_timestamp y ∧ ∃ o, body y = ORDER_ARRIVAL o)) →
  is_heap sim_timestamp evs →
  clock_inv (mkRunner eng lat strat evs (sim_timestamp ev)
               (market_stream r) lg).
Proof.
  intros [Hh Hb Hs Hm Hst Hn] Hp Hlg Hevs Hheap.
  destruct (events_pop_heap _ _ _ Hh Hp) as [Hh1 Hmin].
  pose proof (heappop_perm _ _ _ _ Hp) as Hperm.
  assert (Hin1 : ∀ y, y ∈ events1 → y ∈ events r).
  { intros y Hy. rewrite Hperm. by right. }
  assert (Hev : ev ∈ events r) by (rewrite Hperm; by left).
  constructor; simpl; try done.
  - intros t y. rewrite Hlg, elem_of_app, list_elem_of_singleton.
    intros Ht Hy.
    assert (sim_timestamp ev ≤ sim_timestamp y).
    { destruct (Hevs y Hy) as [?|[? _]]; [by apply Hmin|done]. }
    destruct Ht as [Ht| ->]; [|done].
    pose proof (Hb t ev Ht Hev). lia.
  - rewrite Hlg. apply sorted_snoc; [done|]. intros t Ht. by apply Hb.
  - intros y m Hy Hbody. destruct (Hevs y Hy) as [?|[_ [o Ho]]];
      [by apply Hm; auto|congruence].
  - intros y m evt Hy Hbody. destruct (Hevs y Hy) as [?|[_ [o Ho]]];
      [by apply (Hn y); auto|congruence].
Qed.

Lemma clock_inv_schedule r m :
  clock_inv r →
  (∀ t, t ∈ log_times (log r) → t ≤ ev_timestamp m) →
  (∀ evt, evt ∈ market_stream r → ev_timestamp m ≤ ev_timestamp evt) →
  clock_inv (_schedule_next_market_event r).
Proof.
  intros [Hh Hb Hs Hm Hst Hn] Hlog Hnext.
  unfold _schedule_next_market_event.
  destruct (market_stream r) as [|evt stream] eqn:E;
    [by constructor; rewrite ?E|].
  apply StronglySorted_cons in Hst as [Hfirst Hst].
  rewrite Forall_forall in Hfirst.
  constructor; simpl.
  - by apply events_push_heap.
  - intros t y Ht [->|Hy]%elem_of_events_push; [|by apply Hb].
    simpl. specialize (Hlog t Ht). specialize (Hnext evt ltac:(by left)).
    lia.
  - done.
  - intros y m' [->|Hy]%elem_of_events_push; [|by apply Hm].
    simpl. by intros [= <-].
  - done.
  - intros y m' evt' [->|Hy]%elem_of_events_push Hbody Hevt'.
    + simpl in Hbody. injection Hbody as <-. by apply Hfirst.
    + apply (Hn y m' evt' Hy Hbody). by right.
Qed.

Lemma clock_inv_step r r' :
  clock_inv r → run_step r = Returns (Some r') → clock_inv r'.
Proof.
  intros Hinv. unfold run_step.
  destruct (Heapq.heappop SimEvent_lt (events r)) as [[ev events1]|] eqn:Hp;
    [|discriminate].
  pose proof (heappop_perm _ _ _ _ Hp) as Hperm.
  assert (Hev : ev ∈ events r) by (rewrite Hperm; by left).
  destruct (events_pop_heap _ _ _ (ci_heap _ Hinv) Hp) as [Hh1 Hmin].
  destruct (body ev) as [m|o] eqn:Hbody.
  - pose proof (ci_market _ Hinv ev m Hev Hbody) as Hts.
    unfold _handle_market_event. simpl.
    destruct (on_market_update _ _) as [[order|] strategy1].
    + destruct (next_latency_ms (latency r)) as [latency_ms latency1] eqn:El.
      destruct (int_of_float _) as [us| |] eqn:Ei; simpl; [|discriminate..].
      intros [= <-].
      assert (Hus : 0 ≤ us).
      { apply (latency_nonneg (latency r)). by rewrite El. }
      apply (clock_inv_schedule _ m).
      * eapply clock_inv_handled; [done..| | |].
        -- rewrite !log_times_app. simpl. by rewrite app_nil_r.
        -- intros y [->|Hy]%elem_of_events_push; [|by left].
           right. simpl. split; [lia|eauto].
        -- by apply events_push_heap.
      * simpl. rewrite !log_times_app. simpl. rewrite app_nil_r.
        intros t [Ht| ->%list_elem_of_singleton]%elem_of_app; [|lia].
        pose proof (ci_before _ Hinv t ev Ht Hev). lia.
      * simpl. intros evt Hevt. by apply (ci_next _ Hinv ev m evt).
    + simpl. intros [= <-]. apply (clock_inv_schedule _ m).
      * eapply clock_inv_handled; [done..| | |].
        -- rewrite !log_times_app. done.
        -- intros y Hy. by left.
        -- done.
      * simpl. rewrite !log_times_app. simpl.
        intros t [Ht| ->%list_elem_of_singleton]%elem_of_app; [|lia].
        pose proof (ci_before _ Hinv t ev Ht Hev). lia.
      * simpl. intros evt Hevt. by apply (ci_next _ Hinv ev m evt).
  - simpl. intros [= <-]. unfold _handle_order_arrival. simpl.
    destruct (process_order (engine r) o) as [engine1 status].
    eapply clock_inv_handled; [done..| | |].
    + rewrite !log_times_app. done.
    + intros y Hy. by left.
    + done.
Qed.

Lemma clock_inv_init replayer engine0 (lat : L) (strat : T) :
  StronglySorted (fun a b => ev_timestamp a ≤ ev_timestamp b)
    (stream_events replayer) →
  let r0 := SimulationRunner_init replayer engine0 lat strat in
  clock_inv
    (mkRunner (engine r0) (latency r0) (strategy r0) (events r0)
       (current_time r0) (market_stream r0) (log r0 ++ [LogStart])).
Proof.
  intros Hst. unfold SimulationRunner_init, _schedule_next_market_event.
  simpl. destruct (stream_events replayer) as [|evt stream]; simpl.
  - constructor; simpl.
    + intros i x p _ Hx. by destruct i.
    + intros t ev Ht. by apply elem_of_nil in Ht.
    + constructor.
    + intros ev m Hev. by apply elem_of_nil in Hev.
    + done.
    + intros ev m evt Hev. by apply elem_of_nil in Hev.
  - apply StronglySorted_cons in Hst as [Hfirst Hst].
    rewrite Forall_forall in Hfirst.
    constructor; simpl.
    + intros [|i] x p Hi Hx; [lia|]. by destruct i.
    + intros t ev Ht. by apply elem_of_nil in Ht.
    + constructor.
    + by intros ev m ->%list_elem_of_singleton [= <-].
    + done.
    + intros ev m evt' ->%list_elem_of_singleton [= <-]. apply Hfirst.
Qed.

(** X26.  The clock never goes back: when the replay stream is in time
    order and no latency is negative in microseconds, a run that ends
    has handled its events, market events and order arrivals alike, in
    the order of their timestamps. *)
Theorem clock_never_goes_back replayer engine0 (lat : L) (strat : T) self :
  StronglySorted (fun a b => ev_timestamp a ≤ ev_timestamp b)
    (stream_events replayer) →
  run (SimulationRunner_init replayer engine0 lat strat) = Returns self →
  StronglySorted Z.le (log_times (log self)).
Proof.
  intros Hst Hrun.
  destruct (run_invariant clock_inv _ _ clock_inv_step
              (clock_inv_init _ _ _ _ Hst) Hrun) as [Hinv _].
  apply (ci_sorted _ Hinv).
Qed.

End SchedulerClock.

Section BuiltinLatency.
Import Simulation.

Context {R T : Type} `{PyRandom R} `{Strategy T}.

Lemma next_latency_floor (self : LatencySimulator R) :
  PrimFloat.leb 0x1.999999999999ap-4 (fst (next_latency_ms self)) = true.
Proof.
  simpl. destruct (gauss _ _ (random self)) as [x r]. simpl.
  destruct (PrimFloat.ltb 0x1.999999999999ap-4 x) eqn:E.
  - revert E. rewrite ltb_spec, leb_spec. unfold SFltb, SFleb.
    by destruct (SFcompare _ (Prim2SF x)) as [[]|].
  - reflexivity.
Qed.

Lemma builtin_latency_nonneg (l : LatencySimulator R) us :
  int_of_float (fst (next_latency_ms l) * 1000)%float = Returns us → 0 ≤ us.
Proof. apply latency_us_nonneg, next_latency_floor. Qed.

(** X27.  With the latency model of [simulation.py] itself the clock
    never goes back, whatever the Gaussian draws: on a replay stream in
    time order, a run that ends has handled its events in the order of
    their timestamps. *)
Theorem builtin_clock_never_goes_back replayer engine0
  (lat : LatencySimulator R) (strat : T) self :
  StronglySorted (fun a b => ev_timestamp a ≤ ev_timestamp b)
    (stream_events replayer) →
  run (SimulationRunner_init replayer engine0 lat strat) = Returns self →
  StronglySorted Z.le (log_times (log self)).
Proof.
  intros Hst Hrun.
  destruct (run_invariant clock_inv _ _
              (clock_inv_step builtin_latency_nonneg)
              (clock_inv_init _ _ _ _ Hst) Hrun) as [Hinv _].
  apply (ci_sorted _ Hinv).
Qed.

End BuiltinLatency.


(** ** The replay stream, the mock simulation, the drop decision *)

Section ReplayerStream.
Import Replayer.

(** X28.  [stream_events] numbers the events it yields with consecutive
    ids that start one above [id_counter], whatever the rows, keeps the
    rows' fields and their order, and leaves the counter advanced by the
    number of rows: a second stream from the same replayer continues the
    numbering. *)
Theorem stream_ids self rows :
  id_counter (snd (stream_rows self rows))
    = id_counter self + Z.of_nat (length rows) ∧
  map order_id (fst (stream_rows self rows))
    = map (fun i => id_counter self + 1 + Z.of_nat i) (seq 0 (length rows)) ∧
  map (fun ev => (timestamp ev, event_type ev, side ev, price ev, qty ev))
    (fst (stream_rows self rows)) = rows.
Proof.
  revert self. induction rows as [|[[[[ts ty] sd] p] q] rows IH];
    intros self; simpl.
  - split_and!; auto. lia.
  - specialize (IH (mkReplayer (id_counter self + 1))).
    destruct (stream_rows (mkReplayer (id_counter self + 1)) rows)
      as [evs self2]. simpl in *. destruct IH as (Hc & Hids & Hrows).
    split_and!.
    + lia.
    + f_equal; [lia|]. rewrite Hids, <- fmap_S_seq, <- list_fmap_compose.
      apply list_fmap_ext. intros i x _. simpl. lia.
    + by rewrite Hrows.
Qed.

End ReplayerStream.

Section MockSimulationFacts.
Import DeterminismTest.

Context {G : Type} `{Network.Generator G}.

Lemma run_loop_log n (self : MockSimulation G) t :
  ∃ new, execution_log (run_loop n self t) = execution_log self ++ new ∧
         length new = n.
Proof.
  revert self t. induction n as [|n IH]; intros self t; simpl.
  - exists []. by rewrite app_nil_r.
  - destruct (next_latency (latency_sim self)) as [delay sim].
    destruct (IH (mkMockSimulation sim
                    (execution_log self ++ [(t + delay)%float]))
                 (t + delay)%float) as (new & -> & Hlen).
    exists ((t + delay)%float :: new). simpl. rewrite <- app_assoc.
    split; [done|]. by rewrite Hlen.
Qed.

Lemma run_loop_add n m (self : MockSimulation G) t :
  ∃ t', run_loop (n + m) self t = run_loop m (run_loop n self t) t'.
Proof.
  revert self t. induction n as [|n IH]; intros self t; simpl.
  - by exists t.
  - destruct (next_latency (latency_sim self)) as [delay sim]. apply IH.
Qed.

(** X29.  [MockSimulation.run] appends one entry per iteration to
    [execution_log], which it never resets, and returns that log: the
    result holds the entries of earlier calls on the same object first,
    and a longer run from the same state starts with the entries of a
    shorter one. *)
Theorem run_appends (self : MockSimulation G) n m :
  (∃ new, fst (run self n) = execution_log self ++ new ∧ length new = n) ∧
  execution_log (snd (run self n)) = fst (run self n) ∧
  fst (run self n) `prefix_of` fst (run self (n + m)).
Proof.
  unfold run. simpl. split_and!; [apply run_loop_log|done|].
  destruct (run_loop_add n m self 0%float) as [t' ->].
  destruct (run_loop_log m (run_loop n self 0%float) t') as (new & -> & _).
  by exists new.
Qed.

End MockSimulationFacts.

Section NetworkExtremes.
Import Network.

Context {G : Type} `{Generator G}.

Lemma ltb_zero_false (u : float) :
  PrimFloat.leb 0 u = true → PrimFloat.ltb u 0 = false.
Proof.
  rewrite leb_spec, ltb_spec.
  change (Prim2SF 0) with (S754_zero false).
  destruct (Prim2SF u) as [s|s| |s m e]; try destruct s; try done.
Qed.

(** X30.  A profile with drop probability 0.0 never drops a packet: on a
    generator whose uniform draws are not negative, every sample is the
    base latency plus the gamma jitter, and takes the uniform draw and
    the gamma draw from the generator. *)
Theorem zero_drop_probability_never_drops (self : LatencySimulator G) :
  drop_probability (config self) = 0%float →
  (∀ g, PrimFloat.leb 0 (fst (random g)) = true) →
  next_latency_ms self =
    (let g1 := snd (random (rng self)) in
     let jg := gamma 2.0%float (jitter_scale (config self)) g1 in
     ((base_latency_ms (config self) + fst jg)%float,
      mkLatencySimulator (config self) (snd jg))).
Proof.
  intros Hp Hu. unfold next_latency_ms. specialize (Hu (rng self)).
  destruct (random (rng self)) as [u g1]. simpl in *.
  rewrite Hp, (ltb_zero_false u Hu).
  by destruct (gamma _ _ g1).
Qed.

End NetworkExtremes.


(** * Worked instances *)

Section Instances.
Import Engine.

Lemma demo_book_reachable : reachable demo_book.
Proof.
  apply (reachable_run_orders MatchingEngine_init demo_makers);
    [apply reach_init | vm_compute; reflexivity].
Qed.




(** C4 on the scenario: #1 (reference 0, 100 open) stands before #2
    (reference 1, 50 open) at 101.00, the best ask; the buy of 120 takes
    100 from #1, then 20 from #2. *)
Lemma price_time_priority_witness :
  (reachable demo_book ∧
   price_levels (book demo_book (opposing_is_bid (side demo_taker))) !! 10100
     = Some [0%nat; 1%nat] ∧
   objs demo_book !! 0%nat = Some (new_order 1 sell 10100 100 1000) ∧
   objs demo_book !! 1%nat = Some (new_order 2 sell 10100 50 1001) ∧
   best_price (book demo_book (opposing_is_bid (side demo_taker)))
     = Some 10100 ∧
   is_match demo_taker 10100 = true ∧
   0 < open_qty demo_taker < 100 + 50) ∧
  ∃ e',
    process_order demo_book demo_taker = Returns (e', "FILLED"%string) ∧
    trades e' = trades demo_book ++
      [mkTrade 10100 100 1 99; mkTrade 10100 20 2 99] ∧
    objs e' !! 0%nat = Some (fill (new_order 1 sell 10100 100 1000) 100) ∧
    objs e' !! 1%nat = Some (fill (new_order 2 sell 10100 50 1001) 20).
Proof.
  assert (Hq : price_levels (book demo_book (opposing_is_bid (side demo_taker)))
                 !! 10100 = Some [0%nat; 1%nat]) by (vm_compute; reflexivity).
  assert (H1 : objs demo_book !! 0%nat
               = Some (new_order 1 sell 10100 100 1000))
    by (vm_compute; reflexivity).
  assert (H2 : objs demo_book !! 1%nat
               = Some (new_order 2 sell 10100 50 1001))
    by (vm_compute; reflexivity).
  assert (Hb : best_price (book demo_book (opposing_is_bid (side demo_taker)))
               = Some 10100) by (vm_compute; reflexivity).
  assert (Hm : is_match demo_taker 10100 = true) by reflexivity.
  assert (Ho : 0 < open_qty demo_taker < 100 + 50) by (vm_compute; auto).
  split; [split_and!; [exact demo_book_reachable|done..]|].
  destruct (price_time_priority demo_book demo_taker 10100
              [0%nat; 1%nat] 0%nat 1%nat 0%nat 1%nat _ _
              demo_book_reachable Hq eq_refl eq_refl (le_n 1) H1 H2)
    as (_ & e' & r & new & Hp & Htr & _ & Hfirst).
  destruct (Hfirst eq_refl eq_refl Hb Hm Ho) as (-> & Ho1 & Hcase).
  destruct (decide (open_qty demo_taker ≤
                    open_qty (new_order 1 sell 10100 100 1000)))
    as [Hle|_]; [vm_compute in Hle; by destruct Hle|].
  destruct Hcase as [-> Ho2]. exists e'. by split_and!.
Defined.


(** C7 as amended, on the empty book and an order of quantity 0. *)
Lemma process_order_never_rejects_witness :
  reachable MatchingEngine_init ∧
  ∃ e', process_order MatchingEngine_init (new_order 7 buy 10100 0 1000)
          = Returns (e', "FILLED"%string) ∧
    bids e' = bids MatchingEngine_init ∧
    asks e' = asks MatchingEngine_init ∧
    trades e' = trades MatchingEngine_init ∧
    objs e' = objs MatchingEngine_init ++ [new_order 7 buy 10100 0 1000].
Proof.
  split; [apply reach_init|].
  apply (proj2 (process_order_never_rejects MatchingEngine_init
                  (new_order 7 buy 10100 0 1000) reach_init));
    simpl; lia.
Defined.

(** C10 on the scenario: a cancel of 30 at 101.00 that names order #1
    is taken off order #2, the last of the queue. *)
Lemma cancel_hits_last_order_witness :
  ∃ e', Replayer.apply_market_event demo_book
          (Replayer.mkMarketEvent 3000 Replayer.CANCEL sell 10100 30 1)
        = Returns e' ∧
    objs e' !! 1%nat = Some (mkOrder 2 sell 10100 20 1001 0 OPEN) ∧
    (∀ r, r ≠ 1%nat → objs e' !! r = objs demo_book !! r) ∧
    bids e' = bids demo_book ∧ asks e' = asks demo_book ∧
    trades e' = trades demo_book.
Proof.
  apply (cancel_hits_last_order demo_book
           (Replayer.mkMarketEvent 3000 Replayer.CANCEL sell 10100 30 1)
           [0%nat; 1%nat] 1%nat (new_order 2 sell 10100 50 1001)).
  - reflexivity.
  - vm_compute; reflexivity.
  - reflexivity.
  - vm_compute; reflexivity.
  - simpl. unfold open_qty. simpl. lia.
Defined.

End Instances.

Section SchedulerInstances.
Import Simulation.

(** C8 on the counting generator, whose uniform draws are 0.5. *)
Lemma dropped_order_reaches_engine_witness :
  (∀ g : nat, PrimFloat.ltb (fst (Network.random g)) 1 = true) ∧
  ∃ self,
    lossy_run (G := nat) 42 = Returns self ∧
    take 6 (log self)
      = [ LogStart;
          LogMarket 1000 (mkMarketEvent 1000 ADD 1 9995 100 buy);
          LogNetwork (-1.0)%float 0;
          LogArrival 0;
          LogEngine (mkOrder 999 buy 10005 10 0);
          LogStatus "ACCEPTED" ] ∧
    orders (engine self) !! 999 = Some (mkOrder 999 buy 10005 10 0).
Proof.
  split; [intros g; reflexivity|].
  exact (dropped_order_reaches_engine (G := nat) 42
           (fun g => eq_refl)).
Defined.

(** C1 at seed 42 on the mock replay with [SimpleMarketMaker]: the first
    run draws from the counting generator, the second from a generator
    that records its draws around it. *)
Lemma determinism_witness :
  let colo := Network.config Network.reliable_simulator in
  let run_a :=
    run (SimulationRunner_init MarketDataReplayer_init MatchingEngine_init
           (Network.LatencySimulator_init (G := nat) colo 42)
           SimpleMarketMaker_init) in
  let run_b :=
    run (SimulationRunner_init MarketDataReplayer_init MatchingEngine_init
           (Network.LatencySimulator_init (G := Network.Traced nat) colo 42)
           SimpleMarketMaker_init) in
  let run_c :=
    run (SimulationRunner_init MarketDataReplayer_init MatchingEngine_init
           (LatencySimulator_init (R := nat) colo_config 42)
           SimpleMarketMaker_init) in
  (Network.same_draws (Network.recorded (G := nat)) ∧
   same_gauss (@eq nat) ∧ same_orders (@eq SimpleMarketMaker) ∧
   SimpleMarketMaker_init = SimpleMarketMaker_init) ∧
  (run_a ≠ OutOfFuel ∧
   outcome_rel
     (alike (network_alike (Network.recorded (G := nat)))
        (@eq SimpleMarketMaker)) run_a run_b ∧
   latency_samples (run_log run_a) = latency_samples (run_log run_b) ∧
   arrival_timestamps (run_log run_a) = arrival_timestamps (run_log run_b) ∧
   processed_orders (run_log run_a) = processed_orders (run_log run_b)) ∧
  (run_c ≠ OutOfFuel ∧
   outcome_rel (alike (simulator_alike (@eq nat)) (@eq SimpleMarketMaker))
     run_c run_c ∧
   latency_samples (run_log run_c) = latency_samples (run_log run_c) ∧
   arrival_timestamps (run_log run_c) = arrival_timestamps (run_log run_c) ∧
   processed_orders (run_log run_c) = processed_orders (run_log run_c)) ∧
  fst (DeterminismTest.run
         (DeterminismTest.MockSimulation_init (G := nat) 42) 100)
  = fst (DeterminismTest.run
           (DeterminismTest.MockSimulation_init (G := Network.Traced nat) 42)
           100).
Proof.
  intros colo run_a run_b run_c.
  split; [split_and!;
          [exact recorded_same_draws|exact eq_same_gauss
          |exact eq_same_orders|reflexivity]|].
  exact (determinism (Network.recorded (G := nat)) (@eq nat)
           (@eq SimpleMarketMaker) colo colo_config 42
           MarketDataReplayer_init SimpleMarketMaker_init
           SimpleMarketMaker_init 100
           recorded_same_draws eq_same_gauss eq_same_orders eq_refl).
Defined.

End SchedulerInstances.

(** ** Instances of the properties of one call, of replays and of runs *)

Section EngineCallInstances.
Import Engine.

(** X1 on the scenario of [engine.py]: the buy #99 against the three
    asks. *)
Lemma trades_are_fair_witness :
  reachable demo_book ∧
  ∃ e' r new,
    process_order demo_book demo_taker = Returns (e', r) ∧
    trades e' = trades demo_book ++ new ∧
    Forall (fair_trade demo_book demo_taker) new.
Proof.
  split; [exact demo_book_reachable|].
  exact (trades_are_fair demo_book demo_taker demo_book_reachable).
Defined.

(** X2 on the scenario, with the buy of 200 that sweeps 101.00. *)
Lemma price_priority_witness :
  reachable demo_book ∧
  ∃ e' r new,
    process_order demo_book demo_sweep = Returns (e', r) ∧
    trades e' = trades demo_book ++ new ∧
    StronglySorted (no_worse (opposing_is_bid (side demo_sweep))) new ∧
    ∀ tr p, tr ∈ new →
      is_Some (price_levels (book e' (opposing_is_bid (side demo_sweep)))
                 !! p) →
      heap_price (opposing_is_bid (side demo_sweep)) (trade_price tr)
      ≤ heap_price (opposing_is_bid (side demo_sweep)) p.
Proof.
  split; [exact demo_book_reachable|].
  exact (price_priority demo_book demo_sweep demo_book_reachable).
Defined.

(** X3 on the scenario. *)
Lemma taker_filled_by_trades_witness :
  reachable demo_book ∧
  ∃ e' r new ot,
    process_order demo_book demo_taker = Returns (e', r) ∧
    trades e' = trades demo_book ++ new ∧
    objs e' !! length (objs demo_book) = Some ot ∧
    filled_qty ot = filled_qty demo_taker + trade_sum new ∧
    id ot = id demo_taker ∧ side ot = side demo_taker ∧
    price ot = price demo_taker ∧ qty ot = qty demo_taker.
Proof.
  split; [exact demo_book_reachable|].
  exact (taker_filled_by_trades demo_book demo_taker demo_book_reachable).
Defined.

(** X4 on the scenario. *)
Lemma process_order_frame_witness :
  reachable demo_book ∧
  ∃ e' r,
    process_order demo_book demo_taker = Returns (e', r) ∧
    length (objs e') = S (length (objs demo_book)) ∧
    ∀ x o0, objs demo_book !! x = Some o0 →
      ∃ o1, objs e' !! x = Some o1 ∧
        id o1 = id o0 ∧ side o1 = side o0 ∧ price o1 = price o0 ∧
        qty o1 = qty o0 ∧ timestamp o1 = timestamp o0 ∧
        ((∀ p q, price_levels
                   (book demo_book (opposing_is_bid (side demo_taker))) !! p
                 = Some q → x ∉ q) → o1 = o0).
Proof.
  split; [exact demo_book_reachable|].
  exact (process_order_frame demo_book demo_taker demo_book_reachable).
Defined.

(** X5 on the scenario, with the buy of 200 that rests its remainder. *)
Lemma return_value_meaning_witness :
  reachable demo_book ∧
  ∃ e' r ot,
    process_order demo_book demo_sweep = Returns (e', r) ∧
    objs e' !! length (objs demo_book) = Some ot ∧
    ((r = "RESTING"%string ∧ 0 < open_qty ot ∧
      book e' (my_is_bid (side demo_sweep))
        = rested (book demo_book (my_is_bid (side demo_sweep))) demo_sweep
            (length (objs demo_book)) ∧
      ∀ p, is_Some (price_levels
                      (book e' (opposing_is_bid (side demo_sweep))) !! p) →
           is_match demo_sweep p = false) ∨
     (r = "FILLED"%string ∧ open_qty ot ≤ 0 ∧
      book e' (my_is_bid (side demo_sweep))
        = book demo_book (my_is_bid (side demo_sweep)))).
Proof.
  split; [exact demo_book_reachable|].
  exact (return_value_meaning demo_book demo_sweep demo_book_reachable).
Defined.

(** X6 on the scenario: the sell #4 at 101.00 rests behind the 100 of #1
    and the 50 of #2. *)
Lemma queue_position_after_resting_witness :
  (reachable demo_book ∧
   process_order demo_book demo_late
     = Returns (demo_late_book, "RESTING"%string) ∧
   ∀ x o0,
     x ∈ level (price_levels (book demo_book (my_is_bid (side demo_late))))
           (price demo_late) →
     objs demo_book !! x = Some o0 → id o0 ≠ id demo_late) ∧
  get_queue_position (book demo_late_book (my_is_bid (side demo_late)))
    (objs demo_late_book) (id demo_late)
  = Returns (150, book demo_late_book (my_is_bid (side demo_late))).
Proof.
  assert (Hp : process_order demo_book demo_late
               = Returns (demo_late_book, "RESTING"%string))
    by (vm_compute; reflexivity).
  assert (Hfresh : ∀ x o0,
    x ∈ level (price_levels (book demo_book (my_is_bid (side demo_late))))
          (price demo_late) →
    objs demo_book !! x = Some o0 → id o0 ≠ id demo_late).
  { intros x o0 Hx Ho0. vm_compute in Hx.
    apply elem_of_cons in Hx as [->|Hx];
      [|apply list_elem_of_singleton in Hx as ->];
      vm_compute in Ho0; injection Ho0 as <-; simpl; lia. }
  split; [split_and!; [exact demo_book_reachable|exact Hp|exact Hfresh]|].
  exact (queue_position_after_resting demo_book demo_late demo_late_book
           demo_book_reachable Hp Hfresh).
Defined.

(** X7 on the scenario: the best ask is 101.00, there is no bid. *)
Lemma best_price_is_best_witness :
  reachable demo_book ∧
  match best_price (book demo_book false) with
  | None => price_levels (book demo_book false) = ∅
  | Some bp =>
      is_Some (price_levels (book demo_book false) !! bp) ∧
      ∀ p, is_Some (price_levels (book demo_book false) !! p) → bp ≤ p
  end.
Proof.
  split; [exact demo_book_reachable|].
  exact (best_price_is_best demo_book false demo_book_reachable).
Defined.

(** X8 on the scenario: the first trade of the buy #99 is 100 at 101.00
    with #1. *)
Lemma marketable_order_trades_witness :
  (reachable demo_book ∧ 0 < open_qty demo_taker ∧
   best_price (book demo_book (opposing_is_bid (side demo_taker)))
     = Some 10100 ∧
   is_match demo_taker 10100 = true) ∧
  ∃ e' r m rest om more,
    process_order demo_book demo_taker = Returns (e', r) ∧
    price_levels (book demo_book (opposing_is_bid (side demo_taker)))
      !! 10100 = Some (m :: rest) ∧
    objs demo_book !! m = Some om ∧
    trades e' = trades demo_book ++
      mkTrade 10100 (Z.min (open_qty demo_taker) (open_qty om)) (id om)
        (id demo_taker) :: more.
Proof.
  assert (Hopen : 0 < open_qty demo_taker) by (vm_compute; reflexivity).
  assert (Hbest : best_price
                    (book demo_book (opposing_is_bid (side demo_taker)))
                  = Some 10100) by (vm_compute; reflexivity).
  assert (Hm : is_match demo_taker 10100 = true) by reflexivity.
  split; [by split_and!; [exact demo_book_reachable|..]|].
  exact (marketable_order_trades demo_book demo_taker 10100
           demo_book_reachable Hopen Hbest Hm).
Defined.

(** X10 after the sell #1 of 100 at 101.00 has been filled by a buy:
    the ask side has no level, #1 is still indexed; a sell #6 at 101.00
    added after the query is in no heap. *)
Lemma queue_position_hides_level_witness :
  ∃ s1 s2,
    get_queue_position stale_side stale_store 1 = Returns (0, s1) ∧
    add s1 stale_store 1%nat = Returns s2 ∧
    price_levels s2 !! 10100 = Some [1%nat] ∧
    price_heap s2 = price_heap stale_side ∧
    best_price s2 = best_price stale_side.
Proof.
  exact (queue_position_hides_level stale_side stale_store
           1 0%nat (mkOrder 1 sell 10100 100 1000 100 FILLED)
           1%nat (new_order 6 sell 10100 10 3000)
           eq_refl eq_refl eq_refl eq_refl eq_refl).
Defined.

(** X11 on the scenario: the level at 101.00 holds #1 and #2. *)
Lemma resting_orders_are_open_witness :
  (reachable demo_book ∧
   price_levels (book demo_book false) !! 10100 = Some [0%nat; 1%nat]) ∧
  [0%nat; 1%nat] ≠ [] ∧ NoDup [0%nat; 1%nat] ∧
  ∀ x, x ∈ [0%nat; 1%nat] →
    ∃ o, objs demo_book !! x = Some o ∧ price o = 10100 ∧
         side o = side_of false ∧ 0 < open_qty o.
Proof.
  assert (Hq : price_levels (book demo_book false) !! 10100
               = Some [0%nat; 1%nat]) by (vm_compute; reflexivity).
  split; [split; [exact demo_book_reachable|exact Hq]|].
  exact (resting_orders_are_open demo_book false 10100 [0%nat; 1%nat]
           demo_book_reachable Hq).
Defined.

(** X12 on the scenario: a buy of 40 at 100.00 is below the asks. *)
Lemma passive_order_rests_witness :
  (0 < open_qty demo_passive ∧
   ∀ bp, best_price (book demo_book (opposing_is_bid (side demo_passive)))
         = Some bp →
         is_match demo_passive bp = false) ∧
  process_order demo_book demo_passive =
    Returns (set_book (submitted demo_book demo_passive)
               (my_is_bid (side demo_passive))
               (rested (book demo_book (my_is_bid (side demo_passive)))
                  demo_passive (length (objs demo_book))),
             "RESTING"%string).
Proof.
  assert (Hopen : 0 < open_qty demo_passive) by (vm_compute; reflexivity).
  assert (Hbest : ∀ bp,
    best_price (book demo_book (opposing_is_bid (side demo_passive)))
      = Some bp →
    is_match demo_passive bp = false).
  { intros bp Hb. vm_compute in Hb. injection Hb as <-. reflexivity. }
  split; [split; [exact Hopen|exact Hbest]|].
  exact (passive_order_rests demo_book demo_passive Hopen Hbest).
Defined.

(** X16 on the book of the mock rows: the stream of the module opens
    with an ['ADD'] and raises at once; the cancel and the trade of its
    last two rows alone are applied to the end. *)
Lemma replay_stops_at_add_witness :
  Replayer.maintained Replayer.mock_book ∧
  Replayer.replay Replayer.mock_book
    (fst (Replayer.stream_events Replayer.MarketDataReplayer_init))
  = Raises NameError ∧
  ∃ e', Replayer.replay Replayer.mock_book
          (drop 3 (fst (Replayer.stream_events
                          Replayer.MarketDataReplayer_init)))
        = Returns e' ∧
    bids e' = bids Replayer.mock_book ∧ asks e' = asks Replayer.mock_book ∧
    trades e' = trades Replayer.mock_book ∧
    ∀ best_bid best_ask,
      best_price (bids e') = Some best_bid →
      best_price (asks e') = Some best_ask →
      best_bid < best_ask.
Proof.
  split; [exact mock_book_maintained|]. split.
  - apply (proj1 (replay_stops_at_add Replayer.mock_book _
                    mock_book_maintained)).
    apply Exists_cons_hd. reflexivity.
  - apply (proj2 (replay_stops_at_add Replayer.mock_book _
                    mock_book_maintained)).
    repeat (apply List.Forall_cons; [discriminate|]). apply Forall_nil_2.
Defined.

(** X17 on the book of the mock rows: the cancel of 200 at 100.50 takes
    all of the ask that rests there. *)
Lemma cancel_keeps_the_book_witness :
  (Replayer.maintained Replayer.mock_book ∧
   Replayer.CANCEL ≠ Replayer.ADD) ∧
  ∃ e', Replayer.apply_market_event Replayer.mock_book
          (Replayer.mkMarketEvent 1020000 Replayer.CANCEL sell 10050 200
             10006)
        = Returns e' ∧
    bids e' = bids Replayer.mock_book ∧ asks e' = asks Replayer.mock_book ∧
    trades e' = trades Replayer.mock_book ∧
    length (objs e') = length (objs Replayer.mock_book) ∧
    ∀ r o, objs Replayer.mock_book !! r = Some o →
      ∃ o', objs e' !! r = Some o' ∧ id o' = id o ∧ side o' = side o ∧
            price o' = price o ∧ filled_qty o' = filled_qty o ∧
            (0 ≤ open_qty o → 0 ≤ open_qty o').
Proof.
  assert (Hne : Replayer.CANCEL ≠ Replayer.ADD) by discriminate.
  split; [split; [exact mock_book_maintained|exact Hne]|].
  exact (cancel_keeps_the_book Replayer.mock_book
           (Replayer.mkMarketEvent 1020000 Replayer.CANCEL sell 10050 200
              10006) mock_book_maintained Hne).
Defined.

End EngineCallInstances.

Section SchedulerRunInstances.
Import Simulation.

(** X21 on a side with 20 at 100.00: 5 more added and removed. *)
Lemma remove_order_add_order_witness :
  (∀ q, ({[ 10000 := 20 ]} : gmap Z Z) !! 10000 = Some q → 0 < q) ∧
  remove_order (add_order {[ 10000 := 20 ]} 10000 5) 10000 5
  = {[ 10000 := 20 ]}.
Proof.
  assert (Hpos : ∀ q, ({[ 10000 := 20 ]} : gmap Z Z) !! 10000 = Some q →
                      0 < q).
  { intros q. rewrite lookup_singleton_eq. intros [= <-]. lia. }
  split; [exact Hpos|].
  exact (remove_order_add_order {[ 10000 := 20 ]} 10000 5 Hpos).
Defined.

Lemma colo_run_returns : ∃ self, run colo_runner = Returns self.
Proof.
  destruct (run colo_runner) as [self|e|] eqn:E; [by exists self|..];
    exfalso; vm_compute in E; discriminate E.
Qed.



(** X24 on the scheduler of [__main__]. *)
Lemma market_maker_sends_once_witness :
  ∃ self, run colo_runner = Returns self ∧
    processed_orders (log self)
    = if sent_order (strategy self) then [maker_order] else [].
Proof.
  destruct colo_run_returns as [self Hrun]. exists self.
  split; [exact Hrun|].
  exact (market_maker_sends_once MarketDataReplayer_init MatchingEngine_init
           (LatencySimulator_init (R := nat) colo_config 42) self Hrun).
Defined.

(** X30 on the counting generator, whose uniform draws are 0.5, and a
    profile that never drops. *)
Lemma zero_drop_probability_never_drops_witness :
  (Network.drop_probability (Network.config Network.reliable_simulator)
   = 0%float ∧
   ∀ g : nat, PrimFloat.leb 0 (fst (Network.random g)) = true) ∧
  Network.next_latency_ms Network.reliable_simulator =
    (let g1 := snd (Network.random
                      (Network.rng Network.reliable_simulator)) in
     let jg := Network.gamma 2.0%float
                 (Network.jitter_scale
                    (Network.config Network.reliable_simulator)) g1 in
     ((Network.base_latency_ms (Network.config Network.reliable_simulator)
       + fst jg)%float,
      Network.mkLatencySimulator
        (Network.config Network.reliable_simulator) (snd jg))).
Proof.
  assert (Hp : Network.drop_probability
                 (Network.config Network.reliable_simulator) = 0%float)
    by reflexivity.
  assert (Hu : ∀ g : nat, PrimFloat.leb 0 (fst (Network.random g)) = true)
    by (intros g; reflexivity).
  split; [split; [exact Hp|exact Hu]|].
  exact (zero_drop_probability_never_drops (G := nat)
           Network.reliable_simulator Hp Hu).
Defined.

End SchedulerRunInstances.

Section AccountInstances.
Import Engine.

Lemma fresh_run_orders e os e' :
  reachable_fresh e →
  Forall (fun o => o = new_order (id o) (side o) (price o) (qty o)
                         (timestamp o)) os →
  run_orders e os = Returns e' → reachable_fresh e'.
Proof.
  revert e. induction os as [|o os IH]; intros e He Hos; simpl.
  - by intros [= <-].
  - apply Forall_cons in Hos as [Ho Hos].
    destruct (process_order e o) as [[e1 r]| |] eqn:E; [|discriminate..].
    rewrite bind_Returns. simpl. apply IH; [|done].
    rewrite Ho in E. by eapply fresh_step.
Qed.

Lemma demo_final_fresh : reachable_fresh demo_final.
Proof.
  apply (fresh_run_orders MatchingEngine_init (demo_makers ++ [demo_taker]));
    [apply fresh_init| |vm_compute; reflexivity].
  by repeat constructor.
Qed.

(** X18 on the ask of 300 at 100.55 that a cancel has taken in full: a
    buy of 250 at 100.60 trades [Z.min 250 0], nothing, against it. *)
Lemma first_trade_after_cancels_witness :
  (Replayer.maintained Replayer.cancelled_book ∧
   0 < open_qty (new_order 10006 buy 10060 250 1020000) ∧
   best_price (book Replayer.cancelled_book false) = Some 10055 ∧
   is_match (new_order 10006 buy 10060 250 1020000) 10055 = true) ∧
  ∃ e' r m rest om more,
    process_order Replayer.cancelled_book
      (new_order 10006 buy 10060 250 1020000) = Returns (e', r) ∧
    price_levels (book Replayer.cancelled_book false) !! 10055
      = Some (m :: rest) ∧
    objs Replayer.cancelled_book !! m = Some om ∧ 0 ≤ open_qty om ∧
    trades e' = trades Replayer.cancelled_book ++
      mkTrade 10055
        (Z.min (open_qty (new_order 10006 buy 10060 250 1020000))
           (open_qty om))
        (id om) (id (new_order 10006 buy 10060 250 1020000)) :: more.
Proof.
  pose proof cancelled_book_maintained as Hr.
  assert (Hopen : 0 < open_qty (new_order 10006 buy 10060 250 1020000))
    by (vm_compute; reflexivity).
  assert (Hbest : best_price (book Replayer.cancelled_book false)
                  = Some 10055) by (vm_compute; reflexivity).
  assert (Hm : is_match (new_order 10006 buy 10060 250 1020000) 10055
               = true) by reflexivity.
  split; [by split_and!|].
  exact (first_trade_after_cancels Replayer.cancelled_book
           (new_order 10006 buy 10060 250 1020000) 10055 Hr Hopen Hbest Hm).
Defined.

(** X13 on the scenario: after the buy #99, the order #2 is [PARTIAL]
    with 20 filled and 30 open. *)
Lemma status_consistent_witness :
  (reachable_fresh demo_final ∧
   objs demo_final !! 1%nat = Some (mkOrder 2 sell 10100 50 1001 20 PARTIAL)) ∧
  status_ok (mkOrder 2 sell 10100 50 1001 20 PARTIAL).
Proof.
  assert (Ho : objs demo_final !! 1%nat
               = Some (mkOrder 2 sell 10100 50 1001 20 PARTIAL))
    by (vm_compute; reflexivity).
  split; [split; [exact demo_final_fresh|exact Ho]|].
  exact (status_consistent demo_final 1%nat _ demo_final_fresh Ho).
Defined.

(** X14 on the scenario: 240 filled for the 120 traded. *)
Lemma filled_is_twice_traded_witness :
  reachable_fresh demo_final ∧
  filled_total (objs demo_final) = 2 * trade_sum (trades demo_final).
Proof.
  split; [exact demo_final_fresh|].
  exact (filled_is_twice_traded demo_final demo_final_fresh).
Defined.

(** X15 on the scenario: the buy of 200 at 101.50 finds 150 at 101.00. *)
Lemma matching_is_maximal_witness :
  (reachable demo_book ∧ 0 ≤ open_qty demo_sweep) ∧
  ∃ e' r new,
    process_order demo_book demo_sweep = Returns (e', r) ∧
    trades e' = trades demo_book ++ new ∧
    trade_sum new = Z.min (open_qty demo_sweep) (avail demo_book demo_sweep) ∧
    (r = "FILLED"%string ↔ open_qty demo_sweep ≤ avail demo_book demo_sweep) ∧
    (r = "RESTING"%string ↔ avail demo_book demo_sweep < open_qty demo_sweep).
Proof.
  assert (Hopen : 0 ≤ open_qty demo_sweep) by (vm_compute; discriminate).
  split; [split; [exact demo_book_reachable|exact Hopen]|].
  exact (matching_is_maximal demo_book demo_sweep demo_book_reachable Hopen).
Defined.

End AccountInstances.

Section ClockInstances.
Import Simulation.

Lemma mock_stream_sorted :
  StronglySorted (fun a b => ev_timestamp a ≤ ev_timestamp b)
    (stream_events MarketDataReplayer_init).
Proof.
  unfold stream_events, MarketDataReplayer_init. simpl.
  repeat (apply SSorted_cons || apply SSorted_nil
          || apply List.Forall_cons || apply List.Forall_nil); simpl; lia.
Qed.

(** X26 on the scheduler of [__main__]. *)
Lemma clock_never_goes_back_witness :
  ((∀ (l : LatencySimulator nat) us,
      int_of_float (fst (next_latency_ms l) * 1000)%float = Returns us →
      0 ≤ us) ∧
   StronglySorted (fun a b => ev_timestamp a ≤ ev_timestamp b)
     (stream_events MarketDataReplayer_init)) ∧
  ∃ self, run colo_runner = Returns self ∧
    StronglySorted Z.le (log_times (log self)).
Proof.
  split; [split; [exact builtin_latency_nonneg|exact mock_stream_sorted]|].
  destruct colo_run_returns as [self Hrun]. exists self.
  split; [exact Hrun|].
  exact (clock_never_goes_back builtin_latency_nonneg
           MarketDataReplayer_init MatchingEngine_init
           (LatencySimulator_init (R := nat) colo_config 42)
           SimpleMarketMaker_init self mock_stream_sorted Hrun).
Defined.

(** X27 on the scheduler of [__main__]. *)
Lemma builtin_clock_never_goes_back_witness :
  StronglySorted (fun a b => ev_timestamp a ≤ ev_timestamp b)
    (stream_events MarketDataReplayer_init) ∧
  ∃ self, run colo_runner = Returns self ∧
    StronglySorted Z.le (log_times (log self)).
Proof.
  split; [exact mock_stream_sorted|].
  destruct colo_run_returns as [self Hrun]. exists self.
  split; [exact Hrun|].
  exact (builtin_clock_never_goes_back MarketDataReplayer_init
           MatchingEngine_init
           (LatencySimulator_init (R := nat) colo_config 42)
           SimpleMarketMaker_init self mock_stream_sorted Hrun).
Defined.

Lemma demo_events_heap : Heapq.is_heap sim_timestamp demo_events.
Proof.
  intros [|[|[|i]]] x p Hi Hx Hp; simpl in *; simplify_eq/=; lia.
Qed.

(** X19 on three queued arrivals, at 1000, 1500 and 1200, and a fourth
    pushed at 900. *)
Lemma heapq_keeps_order_witness :
  Heapq.is_heap sim_timestamp demo_events ∧
  (Heapq.is_heap sim_timestamp
     (Heapq.heappush SimEvent_lt demo_events
        (mkSimEvent 900 (ORDER_ARRIVAL maker_order))) ∧
   Heapq.heappush SimEvent_lt demo_events
     (mkSimEvent 900 (ORDER_ARRIVAL maker_order))
   ≡ₚ mkSimEvent 900 (ORDER_ARRIVAL maker_order) :: demo_events) ∧
  match Heapq.heappop SimEvent_lt demo_events with
  | None => demo_events = []
  | Some (y, heap') =>
      demo_events ≡ₚ y :: heap' ∧ Heapq.is_heap sim_timestamp heap' ∧
      ∀ z, z ∈ demo_events → sim_timestamp y ≤ sim_timestamp z
  end.
Proof.
  split; [exact demo_events_heap|].
  exact (heapq_keeps_order sim_timestamp demo_events
           (mkSimEvent 900 (ORDER_ARRIVAL maker_order)) demo_events_heap).
Defined.

End ClockInstances.
